(** * Anyware CLI: the dual-mode session orchestrator

    A shallow embedding of the orchestration core of the CLI: the message
    hand-off queue, the session's permission relay, the remote driver's
    permission callbacks, the transcript scanner, the reconnecting
    WebSocket client, the remote query driver and the local hook receiver.

    Conventions used throughout.
    - Every mutable object becomes a record that is passed explicitly.
    - A callback installed by a caller is an opaque observer: the model
      records whether one is installed and logs every invocation.
    - A promise handed out by the code is named by a natural number; a
      call of its resolver appends to a log of settlements.
    - [Date.now()] is an explicit argument in milliseconds.
    - Console output is not part of the model. *)

From Stdlib Require Import ZArith Ascii.
From stdpp Require Import gmap strings list.

Local Open Scope string_scope.
Local Open Scope list_scope.

Set Warnings "-register-all,-clear-no-such-hyp".

(** ** utils/messageQueue.ts *)

Module MessageQueue.

Record ImageAttachment := {
  name : string;
  mimeType : string;
  data : string
}.

Record QueueMessage := {
  message : string;
  images : option (list ImageAttachment)
}.

(** Identity of a promise returned by a suspended [waitForMessage]. *)
Definition promise := nat.

(** The four private fields of the class, followed by three ghost fields:
    [observed] logs the calls of [onMessageCallback], [settled] logs the
    calls of resolvers (oldest first), [fresh] names the next promise. *)
Record t := {
  queue : list QueueMessage;
  waitResolve : option promise;
  onMessageCallback : bool;
  closed : bool;
  observed : list QueueMessage;
  settled : list (promise * option QueueMessage);
  fresh : promise
}.

(** [new MessageQueue()]. *)
Definition empty : t :=
  {| queue := []; waitResolve := None; onMessageCallback := false;
     closed := false; observed := []; settled := []; fresh := 0 |}.

Definition notify (m : QueueMessage) (q : t) : t :=
  {| queue := queue q; waitResolve := waitResolve q;
     onMessageCallback := onMessageCallback q; closed := closed q;
     observed := observed q ++ [m]; settled := settled q;
     fresh := fresh q |}.

(** [const resolve = this.waitResolve; this.waitResolve = null;
    resolve(v)]. *)
Definition fire (p : promise) (v : option QueueMessage) (q : t) : t :=
  {| queue := queue q; waitResolve := None;
     onMessageCallback := onMessageCallback q; closed := closed q;
     observed := observed q; settled := settled q ++ [(p, v)];
     fresh := fresh q |}.

Definition enqueue (m : QueueMessage) (q : t) : t :=
  {| queue := queue q ++ [m]; waitResolve := waitResolve q;
     onMessageCallback := onMessageCallback q; closed := closed q;
     observed := observed q; settled := settled q; fresh := fresh q |}.

Definition push (msg : string) (imgs : option (list ImageAttachment))
    (q : t) : t :=
  if closed q then q
  else
    let queueMsg := {| message := msg; images := imgs |} in
    let q1 := if onMessageCallback q then notify queueMsg q else q in
    match waitResolve q1 with
    | Some resolve => fire resolve (Some queueMsg) q1
    | None => enqueue queueMsg q1
    end.

Definition set_queue (l : list QueueMessage) (q : t) : t :=
  {| queue := l; waitResolve := waitResolve q;
     onMessageCallback := onMessageCallback q; closed := closed q;
     observed := observed q; settled := settled q; fresh := fresh q |}.

Definition pop (q : t) : t * option QueueMessage :=
  match queue q with
  | m :: rest => (set_queue rest q, Some m)
  | [] => (q, None)
  end.

(** What the caller of the async [waitForMessage] gets: a promise that is
    already fulfilled with a value ([Returned]), or a pending promise whose
    resolver the queue has stored ([Suspended]). *)
Inductive WaitResult :=
| Returned (v : option QueueMessage)
| Suspended (p : promise).

Definition park (q : t) : t :=
  {| queue := queue q; waitResolve := Some (fresh q);
     onMessageCallback := onMessageCallback q; closed := closed q;
     observed := observed q; settled := settled q;
     fresh := S (fresh q) |}.

Definition waitForMessage (q : t) : t * WaitResult :=
  if closed q then (q, Returned None)
  else
    match queue q with
    | m :: rest => (set_queue rest q, Returned (Some m))
    | [] => (park q, Suspended (fresh q))
    end.

Definition size (q : t) : nat := length (queue q).

Definition reset (q : t) : t :=
  let q1 := set_queue [] q in
  match waitResolve q1 with
  | Some resolve => fire resolve None q1
  | None => q1
  end.

Definition setOnMessage (callback : bool) (q : t) : t :=
  {| queue := queue q; waitResolve := waitResolve q;
     onMessageCallback := callback; closed := closed q;
     observed := observed q; settled := settled q; fresh := fresh q |}.

Definition set_closed (q : t) : t :=
  {| queue := queue q; waitResolve := waitResolve q;
     onMessageCallback := onMessageCallback q; closed := true;
     observed := observed q; settled := settled q; fresh := fresh q |}.

Definition close (q : t) : t := reset (set_closed q).

(** *** Call sequences *)

(** One call of a public method. *)
Inductive call :=
| Push (msg : string) (imgs : option (list ImageAttachment))
| Pop
| Wait
| Reset
| SetOnMessage (callback : bool)
| Close.

Definition step (q : t) (c : call) : t :=
  match c with
  | Push msg imgs => push msg imgs q
  | Pop => fst (pop q)
  | Wait => fst (waitForMessage q)
  | Reset => reset q
  | SetOnMessage cb => setOnMessage cb q
  | Close => close q
  end.

Definition run (cs : list call) (q : t) : t := fold_left step cs q.

Definition mk (a : string * option (list ImageAttachment)) : QueueMessage :=
  {| message := a.1; images := a.2 |}.

(** [pushes args q]: one [push] per element, in order. *)
Definition pushes (args : list (string * option (list ImageAttachment)))
    (q : t) : t :=
  fold_left (fun q a => push a.1 a.2 q) args q.

(** [waits n q]: [n] calls of [waitForMessage], none of them awaited by the
    caller before the next is made; the results are listed in call
    order. *)
Fixpoint waits (n : nat) (q : t) : t * list WaitResult :=
  match n with
  | 0 => (q, [])
  | S n' =>
      let '(q1, r) := waitForMessage q in
      let '(q2, rs) := waits n' q1 in
      (q2, r :: rs)
  end.

(** The promises the queue has resolved so far. *)
Definition resolved (q : t) : list promise := (settled q).*1.

(** How many times the resolver of promise [p] has been called. *)
Definition timesResolved (p : promise) (q : t) : nat :=
  length (filter (fun e => e.1 = p) (settled q)).

(** A suspended wait whose resolver the queue no longer holds. *)
Definition orphaned (p : promise) (q : t) : Prop :=
  p < fresh q /\ (p ∉ resolved q) /\ waitResolve q <> Some p.

(** Promise bookkeeping is consistent: no resolver was called twice, and
    the stored resolver belongs to a promise that is still pending. *)
Definition wf (q : t) : Prop :=
  NoDup (resolved q)
  /\ (forall p, p ∈ resolved q -> p < fresh q)
  /\ (forall p, waitResolve q = Some p ->
        p < fresh q /\ (p ∉ resolved q)).

(** A closed, drained queue with no stored resolver. *)
Definition inert (q : t) : Prop :=
  closed q = true /\ queue q = [] /\ waitResolve q = None.

(** The queues that calls of the public methods can produce. *)
Definition reachable (q : t) : Prop := exists cs, q = run cs empty.

(** The reading of "the remaining waits stay suspended until satisfied by
    later pushes" that asks least of the code: every wait left suspended
    by [M] waits after [N < M] pushes can be resolved by some later
    pushes. *)
Definition suspended_waits_satisfiable : Prop :=
  forall (args : list (string * option (list ImageAttachment))) (M : nat),
    length args < M ->
    forall p, Suspended p ∈ (waits M (pushes args empty)).2 ->
    exists later,
      p ∈ resolved (pushes later (waits M (pushes args empty)).1).

End MessageQueue.

(** ** claude/session.ts *)

Module Session.

Inductive PermissionResponse := yes | no | always.

Record PendingPermissionResponse := {
  response : PermissionResponse;
  receivedAt : Z
}.

Inductive IncomingMessage :=
| user_input (prompt : string)
    (imgs : option (list MessageQueue.ImageAttachment))
| permission_response (r : PermissionResponse)
| switch.

(** An event handed to [wsClient.sendClaudeEvent]: its [type] and, for a
    permission request, the tool name and the serialised tool input. *)
Record ClaudeEvent := {
  ev_type : string;
  ev_tool_name : option string;
  ev_tool_input : option string
}.

(** Calls the session makes on its collaborators, oldest first. *)
Inductive effect :=
| MarkActivity
| UserInputHandler
| SwitchHandler
| PermissionResponseTriggerSwitch
| ResolvePermission (resolver : nat) (r : PermissionResponse)
| SendClaudeEvent (e : ClaudeEvent).

(** The fields of the class that the permission relay and the queue
    hand-off read or write. Handlers are opaque observers (installed or
    not); [permissionResolver] names the promise of the outstanding
    [waitForPermissionResponse]. [trace] and [nextResolver] are ghost. *)
Record t := {
  queue : MessageQueue.t;
  wsClient : bool;
  userInputHandler : bool;
  switchHandler : bool;
  permissionResolver : option nat;
  pendingPermissionResponse : option PendingPermissionResponse;
  permissionResponseTriggerSwitch : bool;
  alwaysAllowedTools : gset string;
  trace : list effect;
  nextResolver : nat
}.

(** The state built by the constructor. *)
Definition create : t :=
  {| queue := MessageQueue.empty; wsClient := false;
     userInputHandler := false; switchHandler := false;
     permissionResolver := None; pendingPermissionResponse := None;
     permissionResponseTriggerSwitch := false; alwaysAllowedTools := ∅;
     trace := []; nextResolver := 0 |}.

Definition set_queue (q : MessageQueue.t) (s : t) : t :=
  {| queue := q; wsClient := wsClient s;
     userInputHandler := userInputHandler s;
     switchHandler := switchHandler s;
     permissionResolver := permissionResolver s;
     pendingPermissionResponse := pendingPermissionResponse s;
     permissionResponseTriggerSwitch := permissionResponseTriggerSwitch s;
     alwaysAllowedTools := alwaysAllowedTools s;
     trace := trace s; nextResolver := nextResolver s |}.

Definition emit (e : effect) (s : t) : t :=
  {| queue := queue s; wsClient := wsClient s;
     userInputHandler := userInputHandler s;
     switchHandler := switchHandler s;
     permissionResolver := permissionResolver s;
     pendingPermissionResponse := pendingPermissionResponse s;
     permissionResponseTriggerSwitch := permissionResponseTriggerSwitch s;
     alwaysAllowedTools := alwaysAllowedTools s;
     trace := trace s ++ [e]; nextResolver := nextResolver s |}.

Definition set_resolver (r : option nat) (s : t) : t :=
  {| queue := queue s; wsClient := wsClient s;
     userInputHandler := userInputHandler s;
     switchHandler := switchHandler s;
     permissionResolver := r;
     pendingPermissionResponse := pendingPermissionResponse s;
     permissionResponseTriggerSwitch := permissionResponseTriggerSwitch s;
     alwaysAllowedTools := alwaysAllowedTools s;
     trace := trace s; nextResolver := nextResolver s |}.

Definition set_pending (p : option PendingPermissionResponse) (s : t) : t :=
  {| queue := queue s; wsClient := wsClient s;
     userInputHandler := userInputHandler s;
     switchHandler := switchHandler s;
     permissionResolver := permissionResolver s;
     pendingPermissionResponse := p;
     permissionResponseTriggerSwitch := permissionResponseTriggerSwitch s;
     alwaysAllowedTools := alwaysAllowedTools s;
     trace := trace s; nextResolver := nextResolver s |}.

Definition set_tools (a : gset string) (s : t) : t :=
  {| queue := queue s; wsClient := wsClient s;
     userInputHandler := userInputHandler s;
     switchHandler := switchHandler s;
     permissionResolver := permissionResolver s;
     pendingPermissionResponse := pendingPermissionResponse s;
     permissionResponseTriggerSwitch := permissionResponseTriggerSwitch s;
     alwaysAllowedTools := a;
     trace := trace s; nextResolver := nextResolver s |}.

Definition markActivity (s : t) : t :=
  if wsClient s then emit MarkActivity s else s.

Definition sendClaudeEvent (e : ClaudeEvent) (s : t) : t :=
  if wsClient s then emit (SendClaudeEvent e) s else s.

(** [handleMessage], with [now] the value of [Date.now()]. *)
Definition handleMessage (now : Z) (m : IncomingMessage) (s : t) : t :=
  match m with
  | user_input prompt imgs =>
      let s1 := set_queue (MessageQueue.push prompt imgs (queue s)) s in
      let s2 := markActivity s1 in
      if userInputHandler s2 then emit UserInputHandler s2 else s2
  | permission_response r =>
      match permissionResolver s with
      | Some resolver =>
          emit (ResolvePermission resolver r) (set_resolver None s)
      | None =>
          let s1 :=
            set_pending (Some {| response := r; receivedAt := now |}) s in
          if permissionResponseTriggerSwitch s1
          then emit PermissionResponseTriggerSwitch s1 else s1
      end
  | switch =>
      if switchHandler s then emit SwitchHandler s else s
  end.

Definition hasPendingPermissionResponse (s : t) : bool :=
  match pendingPermissionResponse s with
  | Some _ => true
  | None => false
  end.

(** The default value of the [maxAgeMs] parameter of both methods
    below. *)
Definition defaultMaxAgeMs : Z := 30000.

(** [consumePendingPermissionResponse(maxAgeMs = 30_000)]; [None] for
    [maxAgeMs] is an omitted argument. *)
Definition consumePendingPermissionResponse (now : Z) (maxAgeMs : option Z)
    (s : t) : t * option PermissionResponse :=
  let maxAgeMs := default defaultMaxAgeMs maxAgeMs in
  match pendingPermissionResponse s with
  | None => (s, None)
  | Some pending =>
      let ageMs := (now - receivedAt pending)%Z in
      if (maxAgeMs <? ageMs)%Z then (set_pending None s, None)
      else (set_pending None s, Some (response pending))
  end.

(** [clearPendingPermissionResponse(maxAgeMs = 30_000)]. *)
Definition clearPendingPermissionResponse (now : Z) (maxAgeMs : option Z)
    (s : t) : t :=
  let maxAgeMs := default defaultMaxAgeMs maxAgeMs in
  match pendingPermissionResponse s with
  | None => s
  | Some pending =>
      if (maxAgeMs =? 0)%Z then set_pending None s
      else
        let ageMs := (now - receivedAt pending)%Z in
        if (maxAgeMs <? ageMs)%Z then set_pending None s else s
  end.

Definition isToolAlwaysAllowed (toolName : string) (s : t) : bool :=
  if String.eqb toolName "AskUserQuestion" then false
  else bool_decide (toolName ∈ alwaysAllowedTools s).

Definition markToolAlwaysAllowed (toolName : string) (s : t) : t :=
  if String.eqb toolName "AskUserQuestion" then s
  else set_tools ({[toolName]} ∪ alwaysAllowedTools s) s.

(** [waitForPermissionResponse]: stores a resolver and hands back its
    promise. *)
Definition waitForPermissionResponse (s : t) : t * nat :=
  let p := nextResolver s in
  ({| queue := queue s; wsClient := wsClient s;
      userInputHandler := userInputHandler s;
      switchHandler := switchHandler s;
      permissionResolver := Some p;
      pendingPermissionResponse := pendingPermissionResponse s;
      permissionResponseTriggerSwitch := permissionResponseTriggerSwitch s;
      alwaysAllowedTools := alwaysAllowedTools s;
      trace := trace s; nextResolver := S p |}, p).

(** Calls of the two always-allow methods, for sequences of them. *)
Inductive toolCall :=
| Mark (toolName : string)
| Query (toolName : string).

(** Runs the calls in order; the answers of the [Query] calls are
    collected in call order, each with the tool it was asked about. *)
Fixpoint toolCalls (cs : list toolCall) (s : t) : t * list (string * bool) :=
  match cs with
  | [] => (s, [])
  | Mark n :: cs' => toolCalls cs' (markToolAlwaysAllowed n s)
  | Query n :: cs' =>
      let '(s', answers) := toolCalls cs' s in
      (s', (n, isToolAlwaysAllowed n s) :: answers)
  end.

End Session.

(** ** claude/claudeRemoteLauncher.ts: the permission callbacks *)

Module RemoteLauncher.

Import Session.

(** The [onPermissionRequest] callback given to [claudeRemote];
    [toolInput] is the serialised input. The call made with argument [0]
    never reads the clock; [now] is there because the method takes it. *)
Definition onPermissionRequest (now : Z) (toolName toolInput : string)
    (s : Session.t) : Session.t :=
  if isToolAlwaysAllowed toolName s then s
  else
    let s1 := clearPendingPermissionResponse now (Some 0%Z) s in
    let s2 :=
      if String.eqb toolName "AskUserQuestion"
      then set_queue (MessageQueue.reset (queue s1)) s1 else s1 in
    sendClaudeEvent
      {| ev_type := "PermissionRequest";
         ev_tool_name := Some toolName;
         ev_tool_input := Some toolInput |} s2.

(** What [waitForPermission] does up to its first suspension: an answer
    at once, or the promise of [waitForPermissionResponse] it awaits. *)
Inductive Permission :=
| Answered (r : PermissionResponse)
| Awaiting (resolver : nat).

Definition waitForPermission (now : Z) (toolName : string)
    (s : Session.t) : Session.t * Permission :=
  if isToolAlwaysAllowed toolName s then (s, Answered always)
  else
    match consumePendingPermissionResponse now None s with
    | (s1, Some pending) =>
        let s2 :=
          match pending with
          | always => markToolAlwaysAllowed toolName s1
          | _ => s1
          end in
        (s2, Answered pending)
    | (s1, None) =>
        let '(s2, p) := waitForPermissionResponse s1 in
        (s2, Awaiting p)
    end.

End RemoteLauncher.

(** ** claude/sessionScanner.ts *)

Module SessionScanner.

(** A record accepted by [RawJSONLinesSchema]; [rest] stands for the
    fields the schema passes through. *)
Inductive RawJSONLines :=
| user (uuid : string) (rest : string)
| assistant (uuid : string) (rest : string)
| system (uuid : string) (rest : string)
| summary (leafUuid : string) (summary_text : string) (rest : string).

Definition messageKey (m : RawJSONLines) : string :=
  match m with
  | user uuid _ => uuid
  | assistant uuid _ => uuid
  | summary leafUuid text _ =>
      ("summary:" ++ leafUuid ++ ":" ++ text)%string
  | system uuid _ => uuid
  end.

Definition is_assistant (m : RawJSONLines) : bool :=
  match m with
  | assistant _ _ => true
  | _ => false
  end.

(** What one line of a session file turns out to be in [readSessionLog]:
    blank, not JSON, one of [INTERNAL_CLAUDE_EVENT_TYPES], JSON that the
    schema rejects, or an entry. *)
Inductive line :=
| blank
| malformed
| internal (type : string)
| rejected
| entry (m : RawJSONLines).

(** The project directory at one instant: the lines of
    [<sessionId>.jsonl], or [None] when the file is missing or
    unreadable. *)
Definition files := string -> option (list line).

Definition readSessionLog (fs : files) (sessionId : string)
    : list RawJSONLines :=
  match fs sessionId with
  | None => []
  | Some lines =>
      flat_map (fun l => match l with entry m => [m] | _ => [] end) lines
  end.

(** The variables captured by the closures of [createSessionScanner],
    with [forwarded] the log of [opts.onMessage] calls and [idle] the
    number of [opts.onIdle] calls. *)
Record t := {
  processedMessageKeys : gset string;
  currentSessionId : option string;
  watcher : option string;
  onIdle : bool;
  forwarded : list RawJSONLines;
  idle : nat
}.

(** JavaScript truthiness of a [string | null]. *)
Definition truthy (s : option string) : option string :=
  match s with
  | Some x => if String.eqb x "" then None else Some x
  | None => None
  end.

Definition add_key (k : string) (s : t) : t :=
  {| processedMessageKeys := {[k]} ∪ processedMessageKeys s;
     currentSessionId := currentSessionId s; watcher := watcher s;
     onIdle := onIdle s; forwarded := forwarded s; idle := idle s |}.

Definition onMessage (m : RawJSONLines) (s : t) : t :=
  {| processedMessageKeys := processedMessageKeys s;
     currentSessionId := currentSessionId s; watcher := watcher s;
     onIdle := onIdle s; forwarded := forwarded s ++ [m];
     idle := idle s |}.

Definition notifyIdle (s : t) : t :=
  {| processedMessageKeys := processedMessageKeys s;
     currentSessionId := currentSessionId s; watcher := watcher s;
     onIdle := onIdle s; forwarded := forwarded s; idle := S (idle s) |}.

(** The [for] loop of [sync]; the boolean is [sawAssistantMessage]. *)
Fixpoint forward (messages : list RawJSONLines) (saw : bool) (s : t)
    : t * bool :=
  match messages with
  | [] => (s, saw)
  | m :: rest =>
      let key := messageKey m in
      if bool_decide (key ∈ processedMessageKeys s)
      then forward rest saw s
      else forward rest (saw || is_assistant m) (onMessage m (add_key key s))
  end.

(** One pass of [sync] against the directory content [fs]. There is no
    await inside the loop, so a pass forwards atomically. *)
Definition sync (fs : files) (s : t) : t :=
  match truthy (currentSessionId s) with
  | None => s
  | Some sid =>
      let '(s1, sawAssistantMessage) :=
        forward (readSessionLog fs sid) false s in
      if sawAssistantMessage && onIdle s1 then notifyIdle s1 else s1
  end.

(** [createSessionScanner(opts)] run against the directory content
    [fs]. *)
Definition createSessionScanner (sessionId : option string)
    (onIdle : bool) (fs : files) : t :=
  match truthy sessionId with
  | Some sid =>
      {| processedMessageKeys :=
           list_to_set (messageKey <$> readSessionLog fs sid);
         currentSessionId := sessionId; watcher := Some sid;
         onIdle := onIdle; forwarded := []; idle := 0 |}
  | None =>
      {| processedMessageKeys := ∅; currentSessionId := sessionId;
         watcher := None; onIdle := onIdle; forwarded := []; idle := 0 |}
  end.

(** [onNewSession]; the [scheduleSync()] at its end leads to a later
    [sync] pass. *)
Definition onNewSession (sessionId : string) (s : t) : t :=
  if bool_decide (Some sessionId = currentSessionId s) then s
  else
    {| processedMessageKeys := processedMessageKeys s;
       currentSessionId := Some sessionId; watcher := Some sessionId;
       onIdle := onIdle s; forwarded := forwarded s; idle := idle s |}.

(** What happens to a scanner: a sync pass (whatever scheduled it: the
    watcher, the debounce timer or the 3 s interval), reading the
    directory as it is then, or a retarget. *)
Inductive event :=
| SyncPass (fs : files)
| NewSession (sessionId : string).

Definition step (s : t) (e : event) : t :=
  match e with
  | SyncPass fs => sync fs s
  | NewSession sid => onNewSession sid s
  end.

Definition run (es : list event) (s : t) : t := fold_left step es s.

(** The identifiers handed to [onMessage] so far, oldest first. *)
Definition forwardedKeys (s : t) : list string :=
  messageKey <$> forwarded s.

(** The entries of [messages], in order, whose identifier is neither in
    [seen] nor carried by an earlier entry of [messages]. *)
Fixpoint unseen (seen : gset string) (messages : list RawJSONLines)
    : list RawJSONLines :=
  match messages with
  | [] => []
  | m :: rest =>
      if bool_decide (messageKey m ∈ seen) then unseen seen rest
      else m :: unseen ({[messageKey m]} ∪ seen) rest
  end.

(** What a pass reads: nothing unless the current session id is a
    non-empty string. *)
Definition reads (fs : files) (s : t) : list RawJSONLines :=
  match truthy (currentSessionId s) with
  | Some sid => readSessionLog fs sid
  | None => []
  end.

(** No identifier was forwarded twice, and every forwarded identifier is
    in the processed set. *)
Definition once (s : t) : Prop :=
  NoDup (forwardedKeys s)
  /\ forall k, k ∈ forwardedKeys s -> k ∈ processedMessageKeys s.

End SessionScanner.

(** ** api/wsClient.ts: the reconnect logic of [createWSClient] *)

Module WSClient.

Local Open Scope Z_scope.

(** An inbound frame: text that [JSON.parse] rejects, or a message with
    its [type]. *)
Inductive frame :=
| garbled
| typed (type : string).

Inductive effect :=
| NewWebSocket
| SetTimeoutConnect (delay : Z)
| SetPingInterval (period : Z)
| ClearPingInterval
| CallCloseHandler
| CallMessageHandler (type : string)
| ResolveClient
| RejectClient
| SocketClose.

(** The [let] variables of the closure. [timers] counts the [connect]
    timers set and not yet fired; [effects] logs the calls made on timers,
    on the socket and on the observers, oldest first. *)
Record t := {
  messageHandler : bool;
  closeHandler : bool;
  pingInterval : bool;
  reconnectAttempts : Z;
  isIntentionallyClosed : bool;
  clientResolved : bool;
  timers : nat;
  effects : list effect
}.

Definition maxReconnects : Z := 50.

Definition initial : t :=
  {| messageHandler := false; closeHandler := false; pingInterval := false;
     reconnectAttempts := 0; isIntentionallyClosed := false;
     clientResolved := false; timers := 0; effects := [] |}.

Definition emit (e : effect) (s : t) : t :=
  {| messageHandler := messageHandler s; closeHandler := closeHandler s;
     pingInterval := pingInterval s;
     reconnectAttempts := reconnectAttempts s;
     isIntentionallyClosed := isIntentionallyClosed s;
     clientResolved := clientResolved s; timers := timers s;
     effects := effects s ++ [e] |}.

Definition set_pingInterval (b : bool) (s : t) : t :=
  {| messageHandler := messageHandler s; closeHandler := closeHandler s;
     pingInterval := b;
     reconnectAttempts := reconnectAttempts s;
     isIntentionallyClosed := isIntentionallyClosed s;
     clientResolved := clientResolved s; timers := timers s;
     effects := effects s |}.

Definition set_reconnectAttempts (n : Z) (s : t) : t :=
  {| messageHandler := messageHandler s; closeHandler := closeHandler s;
     pingInterval := pingInterval s;
     reconnectAttempts := n;
     isIntentionallyClosed := isIntentionallyClosed s;
     clientResolved := clientResolved s; timers := timers s;
     effects := effects s |}.

Definition set_timers (n : nat) (s : t) : t :=
  {| messageHandler := messageHandler s; closeHandler := closeHandler s;
     pingInterval := pingInterval s;
     reconnectAttempts := reconnectAttempts s;
     isIntentionallyClosed := isIntentionallyClosed s;
     clientResolved := clientResolved s; timers := n;
     effects := effects s |}.

Definition connect (s : t) : t := emit NewWebSocket s.

(** [setTimeout(connect, delay)]. *)
Definition setTimeoutConnect (delay : Z) (s : t) : t :=
  emit (SetTimeoutConnect delay) (set_timers (S (timers s)) s).

(** [ws.on('open', ...)]. *)
Definition on_open (s : t) : t :=
  let s1 := set_reconnectAttempts 0 s in
  let s2 := if pingInterval s1 then emit ClearPingInterval s1 else s1 in
  let s3 := set_pingInterval true (emit (SetPingInterval 30000) s2) in
  if clientResolved s3 then s3
  else
    emit ResolveClient
      {| messageHandler := messageHandler s3;
         closeHandler := closeHandler s3; pingInterval := pingInterval s3;
         reconnectAttempts := reconnectAttempts s3;
         isIntentionallyClosed := isIntentionallyClosed s3;
         clientResolved := true; timers := timers s3;
         effects := effects s3 |}.

(** [ws.on('message', ...)]. *)
Definition on_message (f : frame) (s : t) : t :=
  match f with
  | garbled => s
  | typed type =>
      if String.eqb type "pong" then s
      else if messageHandler s
              && (String.eqb type "user_input"
                  || String.eqb type "permission_response"
                  || String.eqb type "switch")
      then emit (CallMessageHandler type) s
      else s
  end.

(** [ws.on('close', ...)]. *)
Definition on_close (s : t) : t :=
  let s1 :=
    if pingInterval s
    then set_pingInterval false (emit ClearPingInterval s) else s in
  if isIntentionallyClosed s1 then
    if closeHandler s1 then emit CallCloseHandler s1 else s1
  else if reconnectAttempts s1 <? maxReconnects then
    let s2 := set_reconnectAttempts (reconnectAttempts s1 + 1) s1 in
    let delay := Z.min (1000 * reconnectAttempts s2) 10000 in
    setTimeoutConnect delay s2
  else
    if closeHandler s1 then emit CallCloseHandler s1 else s1.

(** [ws.on('error', ...)]. *)
Definition on_error (s : t) : t :=
  if clientResolved s then s else emit RejectClient s.

(** [client.onMessage(handler)]. *)
Definition onMessage (handler : bool) (s : t) : t :=
  {| messageHandler := handler; closeHandler := closeHandler s;
     pingInterval := pingInterval s;
     reconnectAttempts := reconnectAttempts s;
     isIntentionallyClosed := isIntentionallyClosed s;
     clientResolved := clientResolved s; timers := timers s;
     effects := effects s |}.

(** [client.onClose(handler)]. *)
Definition onClose (handler : bool) (s : t) : t :=
  {| messageHandler := messageHandler s; closeHandler := handler;
     pingInterval := pingInterval s;
     reconnectAttempts := reconnectAttempts s;
     isIntentionallyClosed := isIntentionallyClosed s;
     clientResolved := clientResolved s; timers := timers s;
     effects := effects s |}.

(** [client.close()]. It clears the ping interval and closes the socket;
    a [connect] timer that is pending stays pending. *)
Definition close (s : t) : t :=
  let s1 :=
    {| messageHandler := messageHandler s; closeHandler := closeHandler s;
       pingInterval := pingInterval s;
       reconnectAttempts := reconnectAttempts s;
       isIntentionallyClosed := true;
       clientResolved := clientResolved s; timers := timers s;
       effects := effects s |} in
  let s2 := if pingInterval s1 then emit ClearPingInterval s1 else s1 in
  emit SocketClose s2.

(** A pending [connect] timer fires; with none pending nothing happens. *)
Definition timer_fires (s : t) : t :=
  match timers s with
  | O => s
  | S n => connect (set_timers n s)
  end.

(** What drives the client: socket events, the reconnect timer firing,
    and calls of the caller. *)
Inductive event :=
| Open
| Message (f : frame)
| Closed
| Error
| TimerFires
| CallOnMessage (handler : bool)
| CallOnClose (handler : bool)
| CallClose.

Definition step (s : t) (e : event) : t :=
  match e with
  | Open => on_open s
  | Message f => on_message f s
  | Closed => on_close s
  | Error => on_error s
  | TimerFires => timer_fires s
  | CallOnMessage h => onMessage h s
  | CallOnClose h => onClose h s
  | CallClose => close s
  end.

Definition run (es : list event) (s : t) : t := fold_left step es s.

(** [createWSClient] up to its first [connect()]. *)
Definition createWSClient : t := connect initial.

Definition is_reconnect (e : effect) : bool :=
  match e with
  | SetTimeoutConnect _ => true
  | _ => false
  end.

(** The reconnects scheduled so far. *)
Definition scheduled (s : t) : list effect :=
  List.filter is_reconnect (effects s).

Definition is_connect (e : effect) : bool :=
  match e with
  | NewWebSocket => true
  | _ => false
  end.

(** The sockets opened so far. *)
Definition sockets (s : t) : nat :=
  length (List.filter is_connect (effects s)).

End WSClient.

(** ** claude/claudeRemote.ts *)

Module ClaudeRemote.

Import MessageQueue.

Record UserMessage := {
  text : string;
  attachments : option (list ImageAttachment)
}.

Inductive SDKContentBlock :=
| image_block (media_type : string) (base64 : string)
| text_block (txt : string).

Inductive content :=
| plain (txt : string)
| blocks (bs : list SDKContentBlock).

Definition buildContent (txt : string)
    (imgs : option (list ImageAttachment)) : content :=
  match imgs with
  | None | Some [] => plain txt
  | Some imgs =>
      blocks (((fun img => image_block (mimeType img) (data img)) <$> imgs)
              ++ (if String.eqb txt "" then [] else [text_block txt]))
  end.

(** The SDK messages the loop tells apart. [sdk_init sid] has type
    [system] and subtype [init]; [sid] is its [session_id] when that is a
    string. *)
Inductive SDKMessage :=
| sdk_user (c : content)
| sdk_init (session_id : option string)
| sdk_result
| sdk_other (type : string).

(** How iterating the response of one [query] call goes: the messages it
    yields and whether it then finishes or throws. *)
Inductive ending := finishes | fails.

Record response := {
  yields : list SDKMessage;
  last : ending
}.

(** The collaborators of [claudeRemote]: the session files on disk, the
    answers of [opts.nextMessage] by call number, the response of the
    n-th [query] call for a given resume target, whether
    [opts.onThinkingChange] is given, and [opts.abort.aborted] as read in
    the catch block. *)
Record env := {
  sessionExists : string -> bool;
  nextMessage : nat -> option UserMessage;
  query : nat -> option string -> response;
  onThinkingChange : bool;
  aborted : bool
}.

Inductive effect :=
| OnMessage (m : SDKMessage)
| OnSessionFound (id : string)
| OnThinkingChange (b : bool)
| Query (resume : option string)
| StreamPush (m : SDKMessage)
| StreamEnd.

Record state := {
  thinking : bool;
  asked : nat;
  queried : nat;
  log : list effect
}.

Definition start : state :=
  {| thinking := false; asked := 0; queried := 0; log := [] |}.

Definition emit (e : effect) (s : state) : state :=
  {| thinking := thinking s; asked := asked s; queried := queried s;
     log := log s ++ [e] |}.

Definition updateThinking (E : env) (newThinking : bool) (s : state)
    : state :=
  if Bool.eqb (thinking s) newThinking then s
  else
    let s1 :=
      {| thinking := newThinking; asked := asked s; queried := queried s;
         log := log s |} in
    if onThinkingChange E then emit (OnThinkingChange newThinking) s1
    else s1.

(** [await opts.nextMessage()]. *)
Definition ask (E : env) (s : state) : state * option UserMessage :=
  ({| thinking := thinking s; asked := S (asked s); queried := queried s;
      log := log s |}, nextMessage E (asked s)).

(** [query({ prompt: msgStream, options })]. *)
Definition call_query (E : env) (resume : option string) (s : state)
    : state * response :=
  (emit (Query resume)
     {| thinking := thinking s; asked := asked s; queried := S (queried s);
        log := log s |},
   query E (queried s) resume).

(** How a block of statements completes. *)
Inductive completion :=
| Return (v : option string)
| Normal
| Throw.

Definition userMsg (m : UserMessage) : SDKMessage :=
  sdk_user (buildContent (text m) (attachments m)).

(** The [for await] loop of [runQuery] over the messages still to come. *)
Fixpoint loop (E : env) (sessionToResume : option string)
    (ms : list SDKMessage) (fin : ending) (s : state)
    : state * completion :=
  match ms with
  | [] =>
      match fin with
      | finishes => (s, Return sessionToResume)
      | fails => (s, Throw)
      end
  | m :: rest =>
      let s1 := emit (OnMessage m) s in
      match m with
      | sdk_init sid =>
          let s2 := updateThinking E true s1 in
          let s3 :=
            match sid with
            | Some id => emit (OnSessionFound id) s2
            | None => s2
            end in
          loop E sessionToResume rest fin s3
      | sdk_result =>
          let s2 := updateThinking E false s1 in
          let '(s3, next) := ask E s2 in
          match next with
          | None => (emit StreamEnd s3, Return sessionToResume)
          | Some n =>
              let s4 := emit (StreamPush (userMsg n)) s3 in
              loop E sessionToResume rest fin (emit (OnMessage (userMsg n)) s4)
          end
      | _ => loop E sessionToResume rest fin s1
      end
  end.

Definition runQuery (E : env) (sessionToResume : option string)
    (initialMessage : UserMessage) (s : state) : state * completion :=
  let s1 := emit (StreamPush (userMsg initialMessage)) s in
  let s2 := emit (OnMessage (userMsg initialMessage)) s1 in
  let '(s3, r) := call_query E sessionToResume s2 in
  let s4 := updateThinking E true s3 in
  loop E sessionToResume (yields r) (last r) s4.

(** [try { body } catch { handler }]. *)
Definition try_catch (body handler : state -> state * completion)
    (s : state) : state * completion :=
  match body s with
  | (s', Throw) => handler s'
  | done => done
  end.

(** [try { body } finally { cleanup }], for a cleanup that completes
    normally. *)
Definition try_finally (body : state -> state * completion)
    (cleanup : state -> state) (s : state) : state * completion :=
  let '(s', c) := body s in (cleanup s', c).

(** JavaScript truthiness of a [string | null]. *)
Definition truthy (s : option string) : bool :=
  match s with
  | Some x => negb (String.eqb x "")
  | None => false
  end.

Fixpoint includes_dash (s : string) : bool :=
  match s with
  | EmptyString => false
  | String c s' => Ascii.eqb c "-"%char || includes_dash s'
  end.

(** The loop that extracts [--resume <id>] from [claudeArgs]. *)
Fixpoint resumeArg (args : list string) (startFrom : option string)
    : option string :=
  match args with
  | [] => startFrom
  | arg :: rest =>
      if String.eqb arg "--resume" then
        match rest with
        | nextArg :: _ =>
            if negb (String.prefix "-" nextArg) && includes_dash nextArg
            then resumeArg rest (Some nextArg)
            else resumeArg rest startFrom
        | [] => resumeArg rest startFrom
        end
      else resumeArg rest startFrom
  end.

(** The resume target as it stands when the first message is awaited. *)
Definition resumeTarget (E : env) (sessionId : option string)
    (claudeArgs : option (list string)) : option string :=
  let startFrom := sessionId in
  let startFrom :=
    match claudeArgs with
    | Some args => if truthy startFrom then startFrom
                   else resumeArg args startFrom
    | None => startFrom
    end in
  match startFrom with
  | Some sid =>
      if truthy startFrom && negb (sessionExists E sid) then None
      else startFrom
  | None => startFrom
  end.

(** The [try] statement that ends [claudeRemote]. *)
Definition attempt (E : env) (startFrom : option string)
    (firstMessage : UserMessage) : state -> state * completion :=
  try_finally
    (try_catch
       (runQuery E startFrom firstMessage)
       (fun s =>
          if truthy startFrom && negb (aborted E) then
            try_catch (runQuery E None firstMessage) (fun s => (s, Normal)) s
          else (s, Normal)))
    (updateThinking E false).

(** What a call of [claudeRemote] comes to: the value its promise is
    fulfilled with, or a rejection. *)
Inductive outcome :=
| Fulfilled (v : option string)
| Rejected.

Definition claudeRemote (E : env) (sessionId : option string)
    (claudeArgs : option (list string)) : state * outcome :=
  let startFrom := resumeTarget E sessionId claudeArgs in
  let '(s1, firstMessage) := ask E start in
  match firstMessage with
  | None => (s1, Fulfilled startFrom)
  | Some firstMessage =>
      match attempt E startFrom firstMessage s1 with
      | (s2, Return v) => (s2, Fulfilled v)
      | (s2, Normal) => (s2, Fulfilled startFrom)
      | (s2, Throw) => (s2, Rejected)
      end
  end.

(** The resume targets of the [query] calls made, in call order. *)
Definition queries (s : state) : list (option string) :=
  omap (fun e => match e with Query r => Some r | _ => None end) (log s).

(** The user messages pushed into the prompt streams, in order. *)
Definition pushed (s : state) : list SDKMessage :=
  omap (fun e => match e with StreamPush m => Some m | _ => None end)
       (log s).

(** Effects among which there is no [query] call. *)
Definition quiet (more : list effect) : Prop :=
  omap (fun e => match e with Query r => Some r | _ => None end) more = [].

(** C8 as worded, with "a specific prior session was being resumed" read
    as its gloss "startFrom non-null": whenever the first query loop
    throws with a non-null resume target and the abort signal unset,
    exactly one more [query] call follows, with no resume target. *)
Definition retries_whenever_startFrom_non_null : Prop :=
  forall (E : env) (sessionId : option string)
         (claudeArgs : option (list string)) (first : UserMessage),
    nextMessage E 0 = Some first ->
    resumeTarget E sessionId claudeArgs <> None ->
    aborted E = false ->
    (runQuery E (resumeTarget E sessionId claudeArgs) first
       (ask E start).1).2 = Throw ->
    queries (claudeRemote E sessionId claudeArgs).1
    = [resumeTarget E sessionId claudeArgs; None].

End ClaudeRemote.

(** ** hooks/hookServer.ts: the request handler of [startHookServer] *)

Module HookServer.

Local Open Scope Z_scope.

(** A JSON value; of a number only being zero matters here. *)
Inductive Json :=
| JNull
| JBool (b : bool)
| JNum (n : Z)
| JStr (s : string)
| JArr (items : list Json)
| JObj (fields : list (string * Json)).

(** What [JSON.parse(body)] does. *)
Inductive parsed :=
| SyntaxError
| Value (v : Json).

Inductive js (A : Type) :=
| Ok (a : A)
| Throws.
Arguments Ok {A} a.
Arguments Throws {A}.

Fixpoint assoc (k : string) (fields : list (string * Json)) : option Json :=
  match fields with
  | [] => None
  | (k', v) :: rest => if String.eqb k k' then Some v else assoc k rest
  end.

(** [data.k]: a TypeError on [null], [undefined] ([None]) where the
    property is absent. *)
Definition prop (data : Json) (k : string) : js (option Json) :=
  match data with
  | JNull => Throws
  | JObj fields => Ok (assoc k fields)
  | _ => Ok None
  end.

Definition truthy (v : option Json) : bool :=
  match v with
  | None | Some JNull => false
  | Some (JBool b) => b
  | Some (JNum n) => negb (n =? 0)
  | Some (JStr s) => negb (String.eqb s "")
  | Some (JArr _) | Some (JObj _) => true
  end.

Definition is_string (v : option Json) (s : string) : bool :=
  match v with
  | Some (JStr x) => String.eqb x s
  | _ => false
  end.

(** The observers; each tells whether it returns ([true]) or throws. *)
Record HookServerOptions := {
  onSessionHook : Json -> Json -> bool;
  onHookEvent : option (Json -> Json -> Json -> bool)
}.

(** How the body of a request comes in: it ends, or the stream fails,
    before or after ([late]) the 5000 ms timer has fired; or it never
    ends. *)
Inductive arrival :=
| ends (late : bool) (p : parsed)
| breaks (late : bool)
| stalls.

Record request := {
  method : string;
  url : string;
  body : arrival
}.

Inductive call :=
| SessionHook (sessionId data : Json)
| HookEvent (eventType sessionId data : Json).

(** [res]: the status and text written, if any ([headersSent]); and the
    observer calls made. *)
Record state := {
  sent : option (Z * string);
  calls : list call
}.

Definition fresh : state := {| sent := None; calls := [] |}.

Definition headersSent (s : state) : bool :=
  match sent s with Some _ => true | None => false end.

(** Code that runs on the response state and may throw. *)
Definition M (A : Type) : Type := state -> state * js A.

Definition ret {A : Type} (a : A) : M A := fun s => (s, Ok a).

Definition lift {A : Type} (r : js A) : M A := fun s => (s, r).

Definition bind {A B : Type} (m : M A) (k : A -> M B) : M B :=
  fun s =>
    match m s with
    | (s', Ok a) => k a s'
    | (s', Throws) => (s', Throws)
    end.

Notation "x <- m ;; k" := (bind m (fun x => k))
  (at level 100, m at next level, right associativity).
Notation "m ;;; k" := (bind m (fun _ => k))
  (at level 100, right associativity).

(** [res.writeHead(status).end(text)]; throws once headers are sent. *)
Definition respond (status : Z) (txt : string) : M unit :=
  fun s =>
    if headersSent s then (s, Throws)
    else ({| sent := Some (status, txt); calls := calls s |}, Ok tt).

Definition record (c : call) (s : state) : state :=
  {| sent := sent s; calls := calls s ++ [c] |}.

(** A call of an observer, which returns or throws. *)
Definition notify (c : call) (returns : bool) : M unit :=
  fun s => (record c s, if returns then Ok tt else Throws).

(** The callback of the [setTimeout]. *)
Definition on_timeout (s : state) : state :=
  if headersSent s then s else fst (respond 408 "timeout" s).

(** The [try] block from [JSON.parse] on. *)
Definition process (o : HookServerOptions) (u : string) (p : parsed)
    : M unit :=
  let data := match p with SyntaxError => JObj [] | Value v => v end in
  a <- lift (prop data "session_id") ;;
  sessionId <- (if truthy a then ret a else lift (prop data "sessionId")) ;;
  eventType <- lift (prop data "hook_event_name") ;;
  match sessionId with
  | Some sid =>
      if truthy sessionId then
        (if is_string eventType "SessionStart"
            || String.eqb u "/hook/session-start"
         then notify (SessionHook sid data) (onSessionHook o sid data)
         else ret tt) ;;;
        match onHookEvent o, eventType with
        | Some f, Some ty =>
            if truthy eventType
            then notify (HookEvent ty sid data) (f ty sid data)
            else ret tt
        | _, _ => ret tt
        end
      else ret tt
  | None => ret tt
  end ;;;
  respond 200 "ok".

(** The [catch] block. *)
Definition on_error (s : state) : state :=
  if headersSent s then s else fst (respond 500 "error" s).

(** The request listener, run to the point where nothing more can
    happen for this request. *)
Definition handle (o : HookServerOptions) (req : request) : state :=
  if String.eqb (method req) "POST"
     && (String.eqb (url req) "/hook"
         || String.eqb (url req) "/hook/session-start")
  then
    match body req with
    | stalls => on_timeout fresh
    | ends late p =>
        let s0 := if late then on_timeout fresh else fresh in
        match process o (url req) p s0 with
        | (s1, Ok _) => s1
        | (s1, Throws) => on_error s1
        end
    | breaks late =>
        let s0 := if late then on_timeout fresh else fresh in
        on_error s0
    end
  else fst (respond 404 "not found" fresh).

(** The status line and text the client receives. *)
Definition answer (o : HookServerOptions) (req : request)
    : option (Z * string) :=
  sent (handle o req).

(** Code that leaves the answer of the timer in place. *)
Definition keeps_timeout {A : Type} (m : M A) : Prop :=
  forall s, sent s = Some (408, "timeout") ->
            sent (m s).1 = Some (408, "timeout").

(** Both observers return normally on every call. *)
Definition observers_return (o : HookServerOptions) : Prop :=
  (forall sid data, onSessionHook o sid data = true)
  /\ (forall f, onHookEvent o = Some f ->
        forall ty sid data, f ty sid data = true).

(** The requests the handler takes as hook posts. *)
Definition posted (req : request) : Prop :=
  method req = "POST"
  /\ (url req = "/hook" \/ url req = "/hook/session-start").

(** The last part of C9 as worded: whatever is not a POST to [/hook] is
    answered 404. *)
Definition only_post_hook_is_served : Prop :=
  forall (o : HookServerOptions) (req : request),
    ~ (method req = "POST" /\ url req = "/hook") ->
    answer o req = Some (404, "not found").

End HookServer.

(** ** utils/messageQueue.ts: what a run of calls hands out *)

Module QueueTrace.

Import MessageQueue.

(** The messages a call hands out: the return value of [pop] or of a
    [waitForMessage] that returns at once, and the values of the resolver
    calls the call makes. *)
Definition handed (q : t) (c : call) : list QueueMessage :=
  match c with
  | Pop => option_list (pop q).2
  | Wait =>
      match (waitForMessage q).2 with
      | Returned v => option_list v
      | Suspended _ => []
      end
  | _ => []
  end
  ++ omap snd (drop (length (settled q)) (settled (step q c))).

(** The messages handed out along a run of calls, in the order they are
    handed out. *)
Fixpoint deliveries (cs : list call) (q : t) : list QueueMessage :=
  match cs with
  | [] => []
  | c :: cs' => handed q c ++ deliveries cs' (step q c)
  end.

(** The messages the [push] calls of a run carry, in call order. *)
Definition pushedBy (cs : list call) : list QueueMessage :=
  omap (fun c => match c with
                 | Push msg imgs => Some (mk (msg, imgs))
                 | _ => None
                 end) cs.

(** Calls other than [reset] and [close]. *)
Definition keeps (c : call) : bool :=
  match c with
  | Reset | Close => false
  | _ => true
  end.

(** An open queue that holds a resolver only while its backlog is empty. *)
Definition tidy (q : t) : Prop :=
  closed q = false /\ (waitResolve q <> None -> queue q = []).

(** The [push] calls of a run made while an observer is installed and the
    queue is not closed, read off the calls alone: [installed] and [shut]
    are the observer and the closed flag before the run. *)
Fixpoint notified (installed shut : bool) (cs : list call)
    : list QueueMessage :=
  match cs with
  | [] => []
  | Push msg imgs :: cs' =>
      (if installed && negb shut then [mk (msg, imgs)] else [])
      ++ notified installed shut cs'
  | SetOnMessage callback :: cs' => notified callback shut cs'
  | Close :: cs' => notified installed true cs'
  | _ :: cs' => notified installed shut cs'
  end.

End QueueTrace.

(** ** api/wsClient.ts: the keep-alive interval *)

Module WSTimers.

Import WSClient.

(** Replays the timer calls of a log: how many intervals are running, and
    whether the one [pingInterval] refers to is among them. A
    [clearInterval] of an interval that was cleared before does nothing. *)
Definition replay (acc : nat * bool) (e : effect) : nat * bool :=
  match e with
  | SetPingInterval _ => (S acc.1, true)
  | ClearPingInterval => if acc.2 then (pred acc.1, false) else acc
  | _ => acc
  end.

Definition running (l : list effect) : nat * bool :=
  fold_left replay l (0, false).

(** The message types handed to the message observer. *)
Definition delivered (s : t) : list string :=
  omap (fun e => match e with
                 | CallMessageHandler type => Some type
                 | _ => None
                 end) (effects s).

(** The settlements of the promise of [createWSClient]. *)
Definition is_settlement (e : effect) : bool :=
  match e with
  | ResolveClient | RejectClient => true
  | _ => false
  end.

Definition settlements (s : t) : list effect :=
  List.filter is_settlement (effects s).

(** The types the message handler forwards. *)
Definition forwardable (type : string) : bool :=
  String.eqb type "user_input" || String.eqb type "permission_response"
  || String.eqb type "switch".

(** The frames of an event sequence that arrive while an observer is
    registered and carry a forwardable type, [handler] telling whether one
    is registered at the start. *)
Fixpoint relayed (handler : bool) (es : list event) : list string :=
  match es with
  | [] => []
  | Message (typed type) :: rest =>
      (if handler && forwardable type then [type] else [])
      ++ relayed handler rest
  | CallOnMessage h :: rest => relayed h rest
  | _ :: rest => relayed handler rest
  end.

End WSTimers.

(** ** claude/session.ts and claude/claudeRemoteLauncher.ts: one-time
    flags, tool calls and the exit reason *)

Module SessionOps.

Import Session RemoteLauncher.

(** [v.startsWith('-')]. *)
Definition startsWithDash (v : string) : bool :=
  match v with
  | String c _ => Ascii.eqb c "-"
  | EmptyString => false
  end.

(** The loop of [consumeOneTimeFlags] over the arguments from index [i]
    on: [--continue] is skipped; [--resume] is skipped with the argument
    after it when there is one and it does not start with a dash, and
    pushed otherwise. *)
Fixpoint filterFlags (args : list string) : list string :=
  match args with
  | [] => []
  | arg :: rest =>
      if String.eqb arg "--continue" then filterFlags rest
      else if String.eqb arg "--resume" then
        match rest with
        | v :: rest' =>
            if negb (startsWithDash v) then filterFlags rest'
            else arg :: filterFlags rest
        | [] => arg :: filterFlags rest
        end
      else arg :: filterFlags rest
  end.

(** [consumeOneTimeFlags] on the field [_claudeArgs], [None] being
    [undefined]. *)
Definition consumeOneTimeFlags (claudeArgs : option (list string))
    : option (list string) :=
  match claudeArgs with
  | None => None
  | Some args => Some (filterFlags args)
  end.

Inductive PermissionResult := allow | deny.

(** [canCallTool] of [claudeRemote] with the callbacks the remote launcher
    passes, up to the first suspension: [onPermissionRequest], then
    [waitForPermission] until it answers or awaits the web. *)
Definition canCallTool (now : Z) (toolName toolInput : string)
    (s : Session.t) : Session.t * Permission :=
  waitForPermission now toolName (onPermissionRequest now toolName toolInput s).

(** The rest of [waitForPermission] and of [canCallTool] once the awaited
    promise is resolved with [response]. *)
Definition resumed (toolName : string) (response : PermissionResponse)
    (s : Session.t) : Session.t * PermissionResult :=
  let s1 :=
    match response with
    | always => markToolAlwaysAllowed toolName s
    | _ => s
    end in
  (s1, match response with yes | always => allow | no => deny end).

(** Calls made on a session while the remote launcher runs. *)
Inductive op :=
| Incoming (now : Z) (m : IncomingMessage)
| CanCallTool (now : Z) (toolName toolInput : string)
| Resumed (toolName : string) (response : PermissionResponse)
| WaitForPermissionResponse
| ConsumePending (now : Z) (maxAgeMs : option Z)
| ClearPending (now : Z) (maxAgeMs : option Z)
| MarkToolAlwaysAllowed (toolName : string)
| OnQueue (c : MessageQueue.call).

Definition step (s : Session.t) (o : op) : Session.t :=
  match o with
  | Incoming now m => handleMessage now m s
  | CanCallTool now toolName toolInput => (canCallTool now toolName toolInput s).1
  | Resumed toolName response => (resumed toolName response s).1
  | WaitForPermissionResponse => (waitForPermissionResponse s).1
  | ConsumePending now maxAgeMs => (consumePendingPermissionResponse now maxAgeMs s).1
  | ClearPending now maxAgeMs => clearPendingPermissionResponse now maxAgeMs s
  | MarkToolAlwaysAllowed toolName => markToolAlwaysAllowed toolName s
  | OnQueue c => set_queue (MessageQueue.step (queue s) c) s
  end.

Definition run (os : list op) (s : Session.t) : Session.t :=
  fold_left step os s.

(** The promises of [waitForPermissionResponse] resolved so far. *)
Definition resolvedPermissions (s : Session.t) : list nat :=
  omap (fun e => match e with
                 | ResolvePermission p _ => Some p
                 | _ => None
                 end) (trace s).

(** The permission requests sent to the web so far. *)
Definition requests (s : Session.t) : list ClaudeEvent :=
  omap (fun e => match e with
                 | SendClaudeEvent ev => Some ev
                 | _ => None
                 end) (trace s).

End SessionOps.

(** ** claude/claudeRemoteLauncher.ts: keypresses, the switch request and
    the exit reason *)

Module RemoteExit.

Import Session.

Inductive RemoteExitReason := to_switch | to_exit.

(** A keypress: [str] and the fields of [key] the handler reads, [None]
    being an absent [name]. *)
Record keypress := {
  str : string;
  name : option string;
  ctrl : bool
}.

(** The variables of [claudeRemoteLauncher] that its handlers write, and
    the session. *)
Record t := {
  exitReason : option RemoteExitReason;
  aborted : bool;
  session : Session.t
}.

(** The body shared by the handlers: record the reason unless one is
    recorded, reset the queue, abort. *)
Definition leave (r : RemoteExitReason) (l : t) : t :=
  {| exitReason :=
       match exitReason l with
       | None => Some r
       | Some r0 => Some r0
       end;
     aborted := true;
     session :=
       set_queue (MessageQueue.reset (queue (session l))) (session l) |}.

Definition name_is (k : keypress) (n : string) : bool :=
  match name k with
  | Some m => String.eqb m n
  | None => false
  end.

Definition keypressHandler (k : keypress) (l : t) : t :=
  let l1 :=
    if name_is k "return" || name_is k "escape" || String.eqb (str k) "q"
    then leave to_switch l else l in
  if ctrl k && name_is k "c" then leave to_exit l1 else l1.

(** [session.onSwitch(handler)]. *)
Definition onSwitch (handler : bool) (s : Session.t) : Session.t :=
  {| queue := queue s; wsClient := wsClient s;
     userInputHandler := userInputHandler s;
     switchHandler := handler;
     permissionResolver := permissionResolver s;
     pendingPermissionResponse := pendingPermissionResponse s;
     permissionResponseTriggerSwitch := permissionResponseTriggerSwitch s;
     alwaysAllowedTools := alwaysAllowedTools s;
     trace := trace s; nextResolver := nextResolver s |}.

(** The start of the [try] block: the switch handler is installed, and
    with a response parked and the queue empty the message [continue] is
    queued. *)
Definition launch (s : Session.t) : t :=
  let s1 := onSwitch true s in
  let s2 :=
    if hasPendingPermissionResponse s1
       && Nat.eqb (MessageQueue.size (queue s1)) 0
    then set_queue (MessageQueue.push "continue" None (queue s1)) s1
    else s1 in
  {| exitReason := None; aborted := false; session := s2 |}.

(** What happens while [claudeRemote] runs: a keypress, or a message from
    the web, whose [switch] runs the handler installed by [launch]. *)
Inductive event :=
| Keypress (k : keypress)
| Web (now : Z) (m : IncomingMessage).

Definition step (l : t) (e : event) : t :=
  match e with
  | Keypress k => keypressHandler k l
  | Web now m =>
      let l1 :=
        {| exitReason := exitReason l; aborted := aborted l;
           session := handleMessage now m (session l) |} in
      match m with
      | switch => if switchHandler (session l) then leave to_switch l1 else l1
      | _ => l1
      end
  end.

Definition run (es : list event) (l : t) : t := fold_left step es l.

(** The value [claudeRemoteLauncher] returns, whether [claudeRemote]
    returned or threw. *)
Definition returned (l : t) : RemoteExitReason :=
  match exitReason l with
  | Some r => r
  | None => to_exit
  end.

(** The reason an event asks to leave with, if it asks to leave: Enter,
    Escape or [q] and the switch request of the web ask for a switch,
    Ctrl+C for an exit. *)
Definition reason_of (e : event) : option RemoteExitReason :=
  match e with
  | Keypress k =>
      if name_is k "return" || name_is k "escape" || String.eqb (str k) "q"
      then Some to_switch
      else if ctrl k && name_is k "c" then Some to_exit else None
  | Web _ switch => Some to_switch
  | Web _ _ => None
  end.

End RemoteExit.

(** ** claude/loop.ts: the mode loop *)

Module Loop.

Inductive mode := local | remote.

Inductive reason := switch | exit.

(** How a launcher call ends. *)
Inductive launched :=
| returns (r : reason)
| throws.

Inductive effect :=
| OnModeChange (m : mode)
| SendModeChange (m : mode)
| Launch (m : mode).

Inductive outcome := Fulfilled | Rejected | Pending.

Definition other (m : mode) : mode :=
  match m with
  | local => remote
  | remote => local
  end.

(** One pass of the [while] loop per launcher result; with the results
    used up the loop is awaiting a launcher. [onModeChange] tells whether
    the option is given. *)
Fixpoint iterate (onModeChange : bool) (m : mode) (results : list launched)
    : list effect * outcome :=
  let announce :=
    (if onModeChange then [OnModeChange m] else [])
    ++ [SendModeChange m; Launch m] in
  match results with
  | [] => (announce, Pending)
  | returns exit :: _ => (announce, Fulfilled)
  | throws :: _ => (announce, Rejected)
  | returns switch :: rest =>
      let '(log, o) := iterate onModeChange (other m) rest in
      (announce ++ log, o)
  end.

(** [loop(opts)]: [startingMode ?? 'local']. *)
Definition loop (onModeChange : bool) (startingMode : option mode)
    (results : list launched) : list effect * outcome :=
  iterate onModeChange (default local startingMode) results.





End Loop.

(** ** claude/claudeLocal.ts: the arguments of the child and the thinking
    tracker *)

Module ClaudeLocal.

Local Open Scope Z_scope.

(** [claudeArgs?.includes(flag)]. *)
Definition includes (flag : string) (claudeArgs : option (list string))
    : bool :=
  match claudeArgs with
  | Some args => existsb (String.eqb flag) args
  | None => false
  end.

(** A string that JavaScript takes for true. *)
Definition truthy (o : option string) : bool :=
  match o with
  | Some v => negb (String.eqb v "")
  | None => false
  end.

(** [startFrom]: the session id, unless it is given and names no session
    file. [sessionExists] stands for [claudeCheckSession]. *)
Definition startFrom (sessionExists : string -> bool)
    (sessionId : option string) : option string :=
  match sessionId with
  | Some id =>
      if truthy sessionId && negb (sessionExists id) then None else Some id
  | None => None
  end.

(** The argument vector handed to [spawn]. *)
Definition spawnArgs (sessionExists : string -> bool)
    (sessionId : option string) (claudeArgs : option (list string))
    (hookSettingsPath : string) : list string :=
  let hasUserSessionControl :=
    includes "--continue" claudeArgs || includes "--resume" claudeArgs in
  (match startFrom sessionExists sessionId with
   | Some id =>
       if negb hasUserSessionControl
          && truthy (startFrom sessionExists sessionId)
       then ["--resume"; id] else []
   | None => []
   end)
  ++ default [] claudeArgs
  ++ ["--settings"; hookSettingsPath].

(** The variables of the fd3 listener. [timerLive] is ghost: whether the
    timer that [stopThinkingTimeout] names is still to fire; [calls] logs
    the calls of [onThinkingChange]. *)
Record tracker := {
  activeFetches : gset Z;
  thinking : bool;
  stopThinkingTimeout : bool;
  timerLive : bool;
  calls : list bool
}.

Definition start : tracker :=
  {| activeFetches := ∅; thinking := false; stopThinkingTimeout := false;
     timerLive := false; calls := [] |}.

(** [updateThinking]; [cb] tells whether [onThinkingChange] is given. *)
Definition updateThinking (cb : bool) (newThinking : bool) (t : tracker)
    : tracker :=
  if Bool.eqb (thinking t) newThinking then t
  else
    {| activeFetches := activeFetches t; thinking := newThinking;
       stopThinkingTimeout := stopThinkingTimeout t;
       timerLive := timerLive t;
       calls := calls t ++ (if cb then [newThinking] else []) |}.

Definition set_fetches (a : gset Z) (t : tracker) : tracker :=
  {| activeFetches := a; thinking := thinking t;
     stopThinkingTimeout := stopThinkingTimeout t;
     timerLive := timerLive t; calls := calls t |}.

Definition set_timeout (var live : bool) (t : tracker) : tracker :=
  {| activeFetches := activeFetches t; thinking := thinking t;
     stopThinkingTimeout := var; timerLive := live; calls := calls t |}.

(** What the listener sees: a line of fd3, the timer firing, the exit of
    the child, and the [finally] block of [claudeLocal]. *)
Inductive event :=
| FetchStart (id : Z)
| FetchEnd (id : Z)
| OtherLine
| TimerFires
| ChildExit
| Finally.

Definition step (cb : bool) (t : tracker) (e : event) : tracker :=
  match e with
  | FetchStart id =>
      let t1 := set_fetches ({[id]} ∪ activeFetches t) t in
      let t2 :=
        if stopThinkingTimeout t1 then set_timeout false false t1 else t1 in
      updateThinking cb true t2
  | FetchEnd id =>
      let t1 := set_fetches (activeFetches t ∖ {[id]}) t in
      if bool_decide (activeFetches t1 = ∅) && thinking t1
         && negb (stopThinkingTimeout t1)
      then set_timeout true true t1 else t1
  | OtherLine => t
  | TimerFires =>
      if timerLive t then
        let t1 :=
          if bool_decide (activeFetches t = ∅)
          then updateThinking cb false t else t in
        set_timeout false false t1
      else t
  | ChildExit | Finally =>
      let t1 :=
        if stopThinkingTimeout t
        then set_timeout (stopThinkingTimeout t) false t else t in
      updateThinking cb false t1
  end.

Definition run (cb : bool) (es : list event) (t : tracker) : tracker :=
  fold_left (step cb) es t.

Definition is_line_or_timer (e : event) : bool :=
  match e with
  | ChildExit | Finally => false
  | _ => true
  end.

(** [n] calls in turn, starting with [true]. *)
Fixpoint alternating (b : bool) (n : nat) : list bool :=
  match n with
  | 0%nat => []
  | S n' => b :: alternating (negb b) n'
  end.

End ClaudeLocal.

(** ** claude/claudeLocalLauncher.ts: the retry loop *)

Module LocalLauncher.

Import Loop.

Inductive ending := finishes | fails.

(** One call of [claudeLocal]: whether a handler of the session (user
    input, switch request, permission response) ran [doSwitch] while it
    was awaited, and how it ended. *)
Record attempt := {
  asked : bool;
  ending_of : ending
}.

Inductive outcome :=
| Returned (r : reason)
| Awaiting.

(** The state the loop threads: the arguments each [claudeLocal] was
    called with, oldest first, and the field [_claudeArgs]. *)
Record t := {
  spawned : list (option (list string));
  claudeArgs : option (list string)
}.

(** The [while (true)] loop, one pass per attempt; [exitReason] is the
    variable of the launcher. *)
Fixpoint retry (exitReason : option reason) (attempts : list attempt)
    (s : t) : t * outcome :=
  match exitReason with
  | Some r => (s, Returned r)
  | None =>
      match attempts with
      | [] =>
          ({| spawned := spawned s ++ [claudeArgs s];
              claudeArgs := claudeArgs s |}, Awaiting)
      | a :: rest =>
          let s1 :=
            {| spawned := spawned s ++ [claudeArgs s];
               claudeArgs := claudeArgs s |} in
          let exitReason1 := if asked a then Some switch else None in
          match ending_of a with
          | finishes =>
              let s2 :=
                {| spawned := spawned s1;
                   claudeArgs :=
                     SessionOps.consumeOneTimeFlags (claudeArgs s1) |} in
              match exitReason1 with
              | None => (s2, Returned exit)
              | Some _ => retry exitReason1 rest s2
              end
          | fails =>
              match exitReason1 with
              | None => retry None rest s1
              | Some r => (s1, Returned r)
              end
          end
      end
  end.

(** [claudeLocalLauncher] from the registration of the handlers on;
    [size] is [session.queue.size()]. *)
Definition claudeLocalLauncher (size : nat) (claudeArgs : option (list string))
    (attempts : list attempt) : t * outcome :=
  let s := {| spawned := []; claudeArgs := claudeArgs |} in
  if (0 <? size)%nat then (s, Returned switch)
  else retry None attempts s.

(** The attempts that failed with no switch asked for, up to the first
    that did not. *)
Fixpoint crashes (attempts : list attempt) : nat :=
  match attempts with
  | {| asked := false; ending_of := fails |} :: rest => S (crashes rest)
  | _ => 0
  end.

End LocalLauncher.

(** ** claude/claudeArgs.ts: validation of pass-through arguments, and
    the arguments [main.ts] builds *)

Module ClaudeArgs.

Import SessionOps.

Definition CLAUDE_FLAG_ARGS : list string :=
  ["--debug"; "-d"; "--verbose"; "--print"; "-p";
   "--include-partial-messages"; "--mcp-debug";
   "--dangerously-skip-permissions";
   "--allow-dangerously-skip-permissions"; "--replay-user-messages";
   "--continue"; "-c"; "--fork-session"; "--no-session-persistence";
   "--ide"; "--strict-mcp-config"; "--disable-slash-commands"; "--chrome";
   "--no-chrome"].

Definition CLAUDE_VALUE_ARGS : list string :=
  ["--output-format"; "--json-schema"; "--input-format";
   "--max-budget-usd"; "--allowedTools"; "--allowed-tools"; "--tools";
   "--disallowedTools"; "--disallowed-tools"; "--mcp-config";
   "--system-prompt"; "--append-system-prompt"; "--permission-mode";
   "--resume"; "-r"; "--model"; "--agent"; "--betas"; "--fallback-model";
   "--settings"; "--add-dir"; "--session-id"; "--agents";
   "--setting-sources"; "--plugin-dir"].

Definition ANYWARE_HANDLED_ARGS : list string :=
  ["--model"; "--resume"; "-r"; "--continue"; "-c"; "--settings"].

(** [set.has(arg)]. *)
Definition has (set : list string) (arg : string) : bool :=
  existsb (String.eqb arg) set.

Definition isDigit (c : ascii) : bool :=
  (48 <=? nat_of_ascii c)%nat && (nat_of_ascii c <=? 57)%nat.

(** [value.match(/^-?\d/)]. *)
Definition matchesNumber (value : string) : bool :=
  match value with
  | String c rest =>
      if Ascii.eqb c "-" then
        match rest with
        | String d _ => isDigit d
        | EmptyString => false
        end
      else isDigit c
  | EmptyString => false
  end.

(** [value.startsWith('-') && !value.match(/^-?\d/)]. *)
Definition looksLikeFlag (value : string) : bool :=
  startsWithDash value && negb (matchesNumber value).

Record ValidationResult := {
  valid : bool;
  errors : list string;
  warnings : list string;
  validArgs : list string
}.

(** The three arrays the loop fills. *)
Record arrays := {
  errs : list string;
  warns : list string;
  oks : list string
}.

Definition error (e : string) (r : arrays) : arrays :=
  {| errs := e :: errs r; warns := warns r; oks := oks r |}.

Definition warning (w : string) (r : arrays) : arrays :=
  {| errs := errs r; warns := w :: warns r; oks := oks r |}.

Definition keep (l : list string) (r : arrays) : arrays :=
  {| errs := errs r; warns := warns r; oks := l ++ oks r |}.

Definition handledWarning (arg : string) : string :=
  ("'" ++ arg
   ++ "' is handled by anyware. Use anyware's own option instead.")%string.

(** The [while] loop from index [i] on, [args] being the arguments from
    that index; what it pushes from there on is returned in order. *)
Fixpoint scan (allowHandledArgs : bool) (args : list string) : arrays :=
  match args with
  | [] => {| errs := []; warns := []; oks := [] |}
  | arg :: rest =>
      if has CLAUDE_FLAG_ARGS arg then
        if has ANYWARE_HANDLED_ARGS arg && negb allowHandledArgs
        then warning (handledWarning arg) (scan allowHandledArgs rest)
        else keep [arg] (scan allowHandledArgs rest)
      else if has CLAUDE_VALUE_ARGS arg then
        match rest with
        | [] =>
            error ("'" ++ arg ++ "' requires a value")%string
              (scan allowHandledArgs rest)
        | value :: rest' =>
            if looksLikeFlag value then
              error ("'" ++ arg ++ "' requires a value, but got '" ++ value
                     ++ "'")%string
                (scan allowHandledArgs rest)
            else if has ANYWARE_HANDLED_ARGS arg && negb allowHandledArgs
            then warning (handledWarning arg) (scan allowHandledArgs rest')
            else keep [arg; value] (scan allowHandledArgs rest')
        end
      else if startsWithDash arg then
        error ("Unknown Claude Code argument: '" ++ arg ++ "'")%string
          (scan allowHandledArgs rest)
      else keep [arg] (scan allowHandledArgs rest)
  end.

(** [validateClaudeArgs(args, allowHandledArgs = false)]; [None] is an
    omitted second argument. *)
Definition validateClaudeArgs (args : list string)
    (allowHandledArgs : option bool) : ValidationResult :=
  let r := scan (default false allowHandledArgs) args in
  {| valid := Nat.eqb (length (errs r)) 0;
     errors := errs r; warnings := warns r; validArgs := oks r |}.

(** The arguments [main.ts] hands to the session: [model], [resume] and
    [continue] are the options of the command, [passthroughArgs] the
    arguments after them. *)
Definition buildClaudeArgs (model resume : option string) (continue : bool)
    (passthroughArgs : list string) : option (list string) :=
  let claudeArgs :=
    (match model with
     | Some m => if ClaudeLocal.truthy model then ["--model"; m] else []
     | None => []
     end)
    ++ (match resume with
        | Some r => if ClaudeLocal.truthy resume then ["--resume"; r] else []
        | None => []
        end)
    ++ (if continue then ["--continue"] else [])
    ++ (if (0 <? length passthroughArgs)%nat
        then validArgs (validateClaudeArgs passthroughArgs None) else []) in
  if (0 <? length claudeArgs)%nat then Some claudeArgs else None.

End ClaudeArgs.

(** ** claude/sdk/stream.ts: the stream of SDK messages *)

Module Stream.

Definition promise := nat.

Section Stream.

Variable T : Type.

Inductive IteratorResult :=
| item (value : T)
| finished.

(** How the promise of a suspended [next] is settled. *)
Inductive settlement :=
| resolved (r : IteratorResult)
| rejected (e : string).

(** The fields of the class; [readResolve] and [readReject] are set and
    cleared together and are one field here. Three ghost fields follow:
    [settled] logs the settlements of suspended reads, [delivered] the
    items handed to readers, [fresh] names the next promise. *)
Record t := {
  queue : list T;
  reader : option promise;
  isDone : bool;
  errorValue : option string;
  started : bool;
  settled : list (promise * settlement);
  delivered : list T;
  fresh : promise
}.

Definition empty : t :=
  {| queue := []; reader := None; isDone := false; errorValue := None;
     started := false; settled := []; delivered := []; fresh := 0 |}.

(** What the caller of [next] gets. *)
Inductive NextResult :=
| Fulfilled (r : IteratorResult)
| Rejected (e : string)
| Suspended (p : promise).

Definition next (s : t) : t * NextResult :=
  match errorValue s with
  | Some e => (s, Rejected e)
  | None =>
      match queue s with
      | v :: rest =>
          ({| queue := rest; reader := reader s; isDone := isDone s;
              errorValue := errorValue s; started := started s;
              settled := settled s; delivered := delivered s ++ [v];
              fresh := fresh s |}, Fulfilled (item v))
      | [] =>
          if isDone s then (s, Fulfilled finished)
          else
            ({| queue := queue s; reader := Some (fresh s);
                isDone := isDone s; errorValue := errorValue s;
                started := started s; settled := settled s;
                delivered := delivered s; fresh := S (fresh s) |},
             Suspended (fresh s))
      end
  end.

Definition enqueue (value : T) (s : t) : t :=
  if isDone s then s
  else
    match reader s with
    | Some p =>
        {| queue := queue s; reader := None; isDone := isDone s;
           errorValue := errorValue s; started := started s;
           settled := settled s ++ [(p, resolved (item value))];
           delivered := delivered s ++ [value]; fresh := fresh s |}
    | None =>
        {| queue := queue s ++ [value]; reader := reader s;
           isDone := isDone s; errorValue := errorValue s;
           started := started s; settled := settled s;
           delivered := delivered s; fresh := fresh s |}
    end.

Definition done (s : t) : t :=
  if isDone s then s
  else
    match reader s with
    | Some p =>
        {| queue := queue s; reader := None; isDone := true;
           errorValue := errorValue s; started := started s;
           settled := settled s ++ [(p, resolved finished)];
           delivered := delivered s; fresh := fresh s |}
    | None =>
        {| queue := queue s; reader := None; isDone := true;
           errorValue := errorValue s; started := started s;
           settled := settled s; delivered := delivered s;
           fresh := fresh s |}
    end.

Definition error (err : string) (s : t) : t :=
  match reader s with
  | Some p =>
      {| queue := queue s; reader := None; isDone := true;
         errorValue := Some err; started := started s;
         settled := settled s ++ [(p, rejected err)];
         delivered := delivered s; fresh := fresh s |}
  | None =>
      {| queue := queue s; reader := None; isDone := true;
         errorValue := Some err; started := started s;
         settled := settled s; delivered := delivered s;
         fresh := fresh s |}
  end.

(** [[Symbol.asyncIterator]()]: [None] when it throws. *)
Definition asyncIterator (s : t) : option t :=
  if started s then None
  else
    Some {| queue := queue s; reader := reader s; isDone := isDone s;
            errorValue := errorValue s; started := true;
            settled := settled s; delivered := delivered s;
            fresh := fresh s |}.

Inductive call :=
| Next
| Enqueue (value : T)
| Done
| Error (err : string)
| Return
| Throw (err : string)
| AsyncIterator.

Definition step (s : t) (c : call) : t :=
  match c with
  | Next => (next s).1
  | Enqueue v => enqueue v s
  | Done | Return => done s
  | Error e | Throw e => error e s
  | AsyncIterator => default s (asyncIterator s)
  end.

Definition run (cs : list call) (s : t) : t := fold_left step cs s.

(** The values of the [enqueue] calls of a run made before the stream was
    marked complete, read off the calls alone; [complete] is the flag
    before the run. *)
Fixpoint accepted (complete : bool) (cs : list call) : list T :=
  match cs with
  | [] => []
  | Enqueue v :: rest =>
      (if complete then [] else [v]) ++ accepted complete rest
  | (Done | Return | Error _ | Throw _) :: rest => accepted true rest
  | _ :: rest => accepted complete rest
  end.

End Stream.

Arguments item {T}.
Arguments finished {T}.
Arguments empty {T}.
Arguments queue {T}.
Arguments isDone {T}.
Arguments errorValue {T}.
Arguments delivered {T}.
Arguments reader {T}.
Arguments settled {T}.
Arguments next {T}.
Arguments enqueue {T}.
Arguments done {T}.
Arguments error {T}.
Arguments step {T}.
Arguments run {T}.
Arguments accepted {T}.
Arguments Next {T}.
Arguments Enqueue {T}.
Arguments Done {T}.
Arguments Error {T}.
Arguments Return {T}.
Arguments Throw {T}.
Arguments AsyncIterator {T}.
Arguments Rejected {T}.
Arguments Fulfilled {T}.
Arguments Suspended {T}.

End Stream.

(** ** claude/claudeHistory.ts: the events of the latest session *)

Module ClaudeHistory.

Local Open Scope Z_scope.

Section History.

(** The numbers [getTime()] and [Date.now()] give. *)
Variable Time : Type.
Variable getTime : string -> Time.

(** A parsed line, as far as the conversion reads it: its [type], its
    [message] when it has one, and its [timestamp] when that is a
    non-empty string. *)
Record ClaudeLocalEvent := {
  type : string;
  message : option string;
  timestamp : option string
}.

Inductive kind := user | assistant.

Record HistoricalEvent := {
  h_type : kind;
  h_timestamp : Time;
  h_message : string
}.

(** A line of the session file: blank, rejected by [JSON.parse], the
    value [null], or another value. *)
Inductive line :=
| blank
| malformed
| null
| parsed (e : ClaudeLocalEvent).

(** [parseSessionFile]: the values that parse, [None] standing for
    [null]. *)
Definition parseSessionFile (lines : list line)
    : list (option ClaudeLocalEvent) :=
  omap (fun l => match l with
                 | blank | malformed => None
                 | null => Some None
                 | parsed e => Some (Some e)
                 end) lines.

Definition internal (e : ClaudeLocalEvent) : bool :=
  String.eqb (type e) "queue-operation" || String.eqb (type e) "change"
  || String.eqb (type e) "file-history-snapshot".

(** The loop of [convertToHistoricalEvents] from the [i]-th event on;
    [now i] is the value of [Date.now()] while the [i]-th event is
    converted; [None] when reading [event.type] of [null] throws. *)
Fixpoint convertFrom (now : nat -> Time) (i : nat)
    (events : list (option ClaudeLocalEvent))
    : option (list HistoricalEvent) :=
  match events with
  | [] => Some []
  | None :: _ => None
  | Some event :: rest =>
      match convertFrom now (S i) rest with
      | None => None
      | Some result =>
          if internal event then Some result
          else
            let timestamp :=
              match timestamp event with
              | Some t => getTime t
              | None => now i
              end in
            match message event with
            | Some m =>
                if String.eqb (type event) "user" then
                  Some ({| h_type := user; h_timestamp := timestamp;
                           h_message := m |} :: result)
                else if String.eqb (type event) "assistant" then
                  Some ({| h_type := assistant; h_timestamp := timestamp;
                           h_message := m |} :: result)
                else Some result
            | None => Some result
            end
      end
  end.

Definition convertToHistoricalEvents (now : nat -> Time)
    (events : list (option ClaudeLocalEvent))
    : option (list HistoricalEvent) :=
  convertFrom now 0 events.

(** [array.slice(start)] for an integer [start]. *)
Definition slice {A} (start : Z) (l : list A) : list A :=
  let len := Z.of_nat (length l) in
  let k := if start <? 0 then Z.max (len + start) 0 else Z.min start len in
  drop (Z.to_nat k) l.

(** The end of [readClaudeLocalHistory]: the most recent [limit]
    events. *)
Definition limited {A} (limit : Z) (historicalEvents : list A) : list A :=
  if limit <? Z.of_nat (length historicalEvents)
  then slice (- limit) historicalEvents
  else historicalEvents.

Inductive result :=
| Returns (events : option (list HistoricalEvent))
| Throws.

(** [readClaudeLocalHistory(projectPath, limit = 250)]: [latestSession]
    holds the lines of the file [findLatestSessionFile] finds, if it finds
    one; [None] for [limit] is an omitted argument. *)
Definition readClaudeLocalHistory (now : nat -> Time)
    (latestSession : option (list line)) (limit : option Z) : result :=
  match latestSession with
  | None => Returns None
  | Some lines =>
      match convertToHistoricalEvents now (parseSessionFile lines) with
      | None => Throws
      | Some historicalEvents =>
          Returns (Some (limited (default 250 limit) historicalEvents))
      end
  end.

End History.

End ClaudeHistory.

(** * Properties *)

(** ** The message queue *)

Module QueueFacts.

Import MessageQueue.

Implicit Types (q : t) (p : promise) (c : call) (cs : list call).
Implicit Types (args : list (string * option (list ImageAttachment))).

(** *** Pushes into a queue nobody waits on *)

Lemma push_enqueues q msg imgs :
  closed q = false -> waitResolve q = None ->
  closed (push msg imgs q) = false
  /\ waitResolve (push msg imgs q) = None
  /\ queue (push msg imgs q) = queue q ++ [mk (msg, imgs)]
  /\ settled (push msg imgs q) = settled q
  /\ fresh (push msg imgs q) = fresh q.
Proof.
  intros Hc Hw. unfold push. rewrite Hc.
  destruct (onMessageCallback q); cbn; rewrite Hw; cbn; auto.
Qed.

Lemma pushes_enqueue args : forall q,
  closed q = false -> waitResolve q = None ->
  closed (pushes args q) = false
  /\ waitResolve (pushes args q) = None
  /\ queue (pushes args q) = queue q ++ (mk <$> args)
  /\ settled (pushes args q) = settled q
  /\ fresh (pushes args q) = fresh q.
Proof.
  induction args as [|[msg imgs] args IH]; intros q Hc Hw.
  - cbn. rewrite app_nil_r. auto.
  - destruct (push_enqueues q msg imgs Hc Hw) as (Hc' & Hw' & Hq & Hs & Hf).
    destruct (IH (push msg imgs q) Hc' Hw') as (? & ? & Hq2 & Hs2 & Hf2).
    change (pushes ((msg, imgs) :: args) q)
      with (pushes args (push msg imgs q)).
    rewrite Hq2, Hs2, Hf2, Hq, Hs, Hf, <- app_assoc. cbn. auto.
Qed.

(** *** Waits *)

Lemma waits_add a b q :
  waits (a + b) q =
    ((waits b (waits a q).1).1, (waits a q).2 ++ (waits b (waits a q).1).2).
Proof.
  revert q. induction a as [|a IH]; intros q; cbn.
  - by destruct (waits b q).
  - destruct (waitForMessage q) as [q1 r]. rewrite IH.
    destruct (waits a q1) as [q2 rs]. cbn. done.
Qed.

(** Waits served from the backlog return its head, in order. *)
Lemma waits_backlog n : forall q,
  closed q = false -> n <= length (queue q) ->
  waits n q =
    (set_queue (drop n (queue q)) q, Returned ∘ Some <$> take n (queue q)).
Proof.
  induction n as [|n IH]; intros q Hc Hn.
  - cbn. rewrite drop_0. by destruct q.
  - cbn [waits]. unfold waitForMessage. rewrite Hc.
    destruct (queue q) as [|m rest] eqn:Hq; cbn in Hn; [lia|].
    rewrite (IH (set_queue rest q)); cbn; [done | done | lia].
Qed.

Lemma waits_S n q :
  waits (S n) q =
    ((waits n (waitForMessage q).1).1,
     (waitForMessage q).2 :: (waits n (waitForMessage q).1).2).
Proof.
  change (waits (S n) q)
    with (let '(q1, r) := waitForMessage q in
          let '(q2, rs) := waits n q1 in (q2, r :: rs)).
  destruct (waitForMessage q) as [q1 r]. cbn [fst snd].
  by destruct (waits n q1) as [q2 rs].
Qed.

Lemma waitForMessage_suspends q :
  closed q = false -> queue q = [] ->
  waitForMessage q = (park q, Suspended (fresh q)).
Proof. intros Hc Hq. unfold waitForMessage. by rewrite Hc, Hq. Qed.

(** Waits on an empty open queue all suspend; each overwrites the
    resolver stored by the one before. *)
Lemma waits_suspend n : forall q,
  closed q = false -> queue q = [] ->
  (waits (S n) q).2 = Suspended <$> seq (fresh q) (S n)
  /\ waitResolve (waits (S n) q).1 = Some (fresh q + n)
  /\ fresh (waits (S n) q).1 = fresh q + S n
  /\ settled (waits (S n) q).1 = settled q
  /\ queue (waits (S n) q).1 = []
  /\ closed (waits (S n) q).1 = false
  /\ onMessageCallback (waits (S n) q).1 = onMessageCallback q.
Proof.
  induction n as [|n IH]; intros q Hc Hq.
  - rewrite waits_S, waitForMessage_suspends by done. cbn.
    rewrite Nat.add_0_r, Nat.add_1_r. auto 10.
  - rewrite waits_S, waitForMessage_suspends by done.
    destruct (IH (park q)) as (Hr & Hw & Hf & Hs & Hq' & Hc' & Ho);
      [done | done |].
    cbn [fst snd]. rewrite Hr, Hw, Hf, Hs, Hq', Hc', Ho. cbn.
    repeat split; try done; f_equal; lia.
Qed.

(** *** What any call can do to the promises *)

Lemma step_promises q c :
  fresh q <= fresh (step q c)
  /\ (forall p, waitResolve (step q c) = Some p ->
        waitResolve q = Some p
        \/ (p = fresh q /\ fresh (step q c) = S (fresh q)))
  /\ (settled (step q c) = settled q
      \/ exists p v, waitResolve q = Some p
           /\ waitResolve (step q c) = None
           /\ settled (step q c) = settled q ++ [(p, v)]).
Proof.
  destruct c as [msg imgs| | | |cb|]; cbn;
    unfold push, pop, waitForMessage, reset, close, reset;
    destruct q as [qu w o cl ob se fr]; cbn;
    repeat match goal with
           | |- context [if ?b then _ else _] => destruct b; cbn
           | |- context [match ?l with [] => _ | _ :: _ => _ end] =>
               destruct l; cbn
           | |- context [match ?w with Some _ => _ | None => _ end] =>
               destruct w; cbn
           end;
    (split; [lia|]); (split; [by intros p' [= <-]; auto|]);
    eauto 10.
Qed.

Lemma orphaned_step p q c : orphaned p q -> orphaned p (step q c).
Proof.
  intros (Hlt & Hnot & Hw).
  destruct (step_promises q c) as (Hf & Hwait & Hs).
  repeat split.
  - lia.
  - unfold resolved in *.
    destruct Hs as [-> | (p' & v & Hp' & _ & ->)]; [done|].
    rewrite fmap_app, elem_of_app. cbn. intros [?|Hin]; [done|].
    apply list_elem_of_singleton in Hin. congruence.
  - intros Hp. destruct (Hwait p Hp) as [?|[-> _]]; [done | lia].
Qed.

Lemma orphaned_run cs : forall p q, orphaned p q -> orphaned p (run cs q).
Proof.
  induction cs as [|c cs IH]; intros p q H; [done|].
  cbn. apply IH. by apply orphaned_step.
Qed.

Lemma pushes_run args q : pushes args q = run (uncurry Push <$> args) q.
Proof.
  revert q. induction args as [|[msg imgs] args IH]; intros q; [done|].
  cbn. apply IH.
Qed.

(** *** Every promise is resolved at most once *)

Lemma wf_empty : wf empty.
Proof.
  repeat split; cbn; try constructor; try done; intros p H; inversion H.
Qed.

Lemma wf_step q c : wf q -> wf (step q c).
Proof.
  intros (Hnd & Hlt & Hw).
  destruct (step_promises q c) as (Hf & Hwait & Hs).
  unfold wf, resolved in *.
  destruct Hs as [Heq | (p' & v & Hp' & Hnone & Heq)]; rewrite Heq.
  - repeat split; [done | intros p Hp; specialize (Hlt p Hp); lia | |].
    + destruct (Hwait p H) as [Hold|[-> ->]]; [apply Hw in Hold; lia | lia].
    + destruct (Hwait p H) as [Hold|[-> _]]; [by apply Hw in Hold as [_ ?]|].
      intros Hin. apply Hlt in Hin. lia.
  - destruct (Hw p' Hp') as [Hp'lt Hp'not].
    rewrite fmap_app. cbn. repeat split.
    + apply NoDup_app. repeat split; [done | | apply NoDup_singleton].
      intros x Hx Hx'. apply list_elem_of_singleton in Hx'. by subst.
    + intros p Hp. apply elem_of_app in Hp as [Hp|Hp].
      * specialize (Hlt p Hp). lia.
      * apply list_elem_of_singleton in Hp. subst. lia.
    + rewrite Hnone in H. done.
    + rewrite Hnone in H. done.
Qed.

Lemma wf_run cs : forall q, wf q -> wf (run cs q).
Proof.
  induction cs as [|c cs IH]; intros q H; [done|].
  cbn. apply IH. by apply wf_step.
Qed.

Lemma wf_reachable q : reachable q -> wf q.
Proof. intros [cs ->]. apply wf_run, wf_empty. Qed.

Lemma settled_run_prefix cs : forall q,
  exists more, settled (run cs q) = settled q ++ more.
Proof.
  induction cs as [|c cs IH]; intros q.
  - exists []. by rewrite app_nil_r.
  - change (run (c :: cs) q) with (run cs (step q c)).
    destruct (IH (step q c)) as [more ->].
    destruct (step_promises q c) as (_ & _ & [-> | (p & v & _ & _ & ->)]).
    + by exists more.
    + exists ((p, v) :: more). by rewrite <- app_assoc.
Qed.

Lemma count_once (l : list (promise * option QueueMessage)) p :
  NoDup l.*1 -> p ∈ l.*1 -> length (filter (fun e => e.1 = p) l) = 1.
Proof.
  induction l as [|[p' v] l IH]; cbn; intros Hnd Hin.
  - inversion Hin.
  - apply NoDup_cons in Hnd as [Hnot Hnd].
    destruct (decide (p' = p)) as [->|Hne].
    + cbn. f_equal.
      destruct (filter _ l) as [|[a b] more] eqn:Hf; [done|].
      assert (Hab : (a, b) ∈ filter (fun e => e.1 = p) l)
        by (rewrite Hf; left).
      apply list_elem_of_filter in Hab as [Ha Hl]. cbn in Ha. subst.
      exfalso. apply Hnot, list_elem_of_fmap. by exists (p, b).
    + apply IH; [done|]. apply elem_of_cons in Hin as [?|?]; [congruence | done].
Qed.

(** *** Two small runs *)

(** A push, then a wait: the wait returns the message at once. *)
Example push_then_wait :
  waitForMessage (push "hello" None empty)
  = (empty, Returned (Some {| message := "hello"; images := None |})).
Proof. reflexivity. Qed.

(** A wait, then a push: the wait suspends and the push resolves it. *)
Example wait_then_push :
  (waitForMessage empty).2 = Suspended 0
  /\ settled (push "hi" None (waitForMessage empty).1)
     = [(0, Some {| message := "hi"; images := None |})]
  /\ queue (push "hi" None (waitForMessage empty).1) = [].
Proof. by cbn. Qed.

(** *** N pushes, then M waits *)

Lemma pushes_fresh args :
  closed (pushes args empty) = false
  /\ waitResolve (pushes args empty) = None
  /\ queue (pushes args empty) = mk <$> args
  /\ settled (pushes args empty) = []
  /\ fresh (pushes args empty) = 0.
Proof. by apply (pushes_enqueue args empty). Qed.

(** C4, as amended. After [N] pushes into a fresh queue, [M] calls of
    [waitForMessage]: when [M <= N] they return the first [M] pushed
    messages in push order. When [N < M] the first [N] return the [N]
    pushed messages in push order and the other [M - N] all suspend,
    none of them resolved; the queue holds the resolver of the last one
    only, so the next push resolves that one with the pushed message, and
    the waits suspended before it are never resolved, whatever is called
    later. *)
Theorem pushes_then_waits args (M : nat) :
  let N := length args in
  let after := waits M (pushes args empty) in
  (M <= N ->
     after.2 = Returned ∘ Some ∘ mk <$> take M args
     /\ queue after.1 = mk <$> drop M args
     /\ settled after.1 = [])
  /\ (N < M ->
       after.2 = (Returned ∘ Some ∘ mk <$> args)
                 ++ (Suspended <$> seq 0 (M - N))
       /\ settled after.1 = []
       /\ waitResolve after.1 = Some (M - N - 1)
       /\ (forall msg imgs,
             settled (push msg imgs after.1)
             = [(M - N - 1, Some (mk (msg, imgs)))])
       /\ (forall p cs, p < M - N - 1 -> p ∉ resolved (run cs after.1))).
Proof.
  intros N after. subst N after.
  destruct (pushes_fresh args) as (Hc & Hw & Hq & Hs & Hf).
  split; intros HM.
  - rewrite waits_backlog by (rewrite ?Hq, ?length_fmap; first [done | lia]).
    cbn. rewrite Hq, Hs, <- fmap_take, <- fmap_drop, <- list_fmap_compose.
    done.
  - assert (HM' : exists k, M = length args + S k)
      by (exists (M - length args - 1); lia).
    destruct HM' as [k ->]. clear HM.
    replace (length args + S k - length args - 1) with k by lia.
    replace (length args + S k - length args) with (S k) by lia.
    rewrite waits_add.
    rewrite (waits_backlog (length args) (pushes args empty))
      by (rewrite ?Hq, ?length_fmap; first [done | lia]).
    cbn [fst snd].
    rewrite Hq, firstn_all2, skipn_all2 by (rewrite length_fmap; lia).
    set (q0 := set_queue [] (pushes args empty)).
    destruct (waits_suspend k q0)
      as (Hr & Hw' & Hf' & Hs' & Hq' & Hc' & Ho'); [done | done |].
    change (fresh q0) with (fresh (pushes args empty)) in *.
    change (settled q0) with (settled (pushes args empty)) in *.
    rewrite Hf in *. rewrite Hs in *. cbn [Nat.add] in *.
    rewrite Hr, Hs', Hw', <- list_fmap_compose.
    repeat split; try done.
    + intros msg imgs. unfold push. rewrite Hc'.
      destruct (onMessageCallback (waits (S k) q0).1);
        cbn [notify waitResolve]; rewrite Hw';
        cbn [fire notify settled]; by rewrite Hs'.
    + intros p cs Hp. apply (orphaned_run cs p). repeat split.
      * rewrite Hf'. lia.
      * unfold resolved. rewrite Hs'. cbn. inversion 1.
      * rewrite Hw'. intros [=]. lia.
Qed.

Lemma pushes_then_waits_witness :
  (waits 1 (pushes [("a", None); ("b", None)] empty)).2
    = [Returned (Some (mk ("a", None)))]
  /\ (waits 3 (pushes [("a", None)] empty)).2
      = [Returned (Some (mk ("a", None))); Suspended 0; Suspended 1]
  /\ settled (push "c" None (waits 3 (pushes [("a", None)] empty)).1)
      = [(1, Some (mk ("c", None)))].
Proof.
  split.
  - apply (pushes_then_waits [("a", None); ("b", None)] 1). cbn. lia.
  - destruct (pushes_then_waits [("a", None)] 3) as [_ H].
    destruct H as (Hr & _ & _ & Hp & _); [cbn; lia|].
    split; [exact Hr | exact (Hp "c" None)].
Defined.

(** Two waits on a fresh queue, then two pushes: the first push goes to
    the second wait, the second push is queued, the first wait is left
    pending. *)
Example two_waits_two_pushes :
  let q := pushes [("a", None); ("b", None)] (waits 2 empty).1 in
  (waits 2 empty).2 = [Suspended 0; Suspended 1]
  /\ settled q = [(1, Some (mk ("a", None)))]
  /\ queue q = [mk ("b", None)]
  /\ waitResolve q = None.
Proof. by cbn. Qed.

(** C4, as stated, fails: after two waits on a fresh queue the first of
    them is suspended and no later pushes ever resolve it. *)
Lemma suspended_waits_not_all_satisfiable : ~ suspended_waits_satisfiable.
Proof.
  intros H.
  destruct (H [] 2) with (p := 0) as [later Hin].
  - cbn. lia.
  - cbn. left.
  - rewrite pushes_run in Hin. revert Hin.
    apply (orphaned_run _ 0). repeat split; cbn; [lia | inversion 1 | done].
Qed.

(** *** reset *)

(** C5. [reset()] on a queue that holds the resolver of a suspended wait
    calls that resolver with null, clears it and leaves the backlog empty;
    a second [reset()] changes nothing, and on a queue produced by calls
    of the public methods that promise stays resolved exactly once, with
    null, whatever is called later. With no resolver stored, [reset()]
    only empties the backlog. *)
Theorem reset_wakes_waiter_once q :
  (forall p, waitResolve q = Some p ->
     settled (reset q) = settled q ++ [(p, None)]
     /\ queue (reset q) = []
     /\ waitResolve (reset q) = None
     /\ reset (reset q) = reset q
     /\ (reachable q -> forall cs,
          (p, None) ∈ settled (run cs (reset q))
          /\ timesResolved p (run cs (reset q)) = 1))
  /\ (waitResolve q = None ->
      reset q = set_queue [] q
      /\ queue (reset q) = []
      /\ settled (reset q) = settled q).
Proof.
  split.
  - intros p Hp.
    assert (Hreset : reset q = fire p None (set_queue [] q))
      by (unfold reset; cbn; by rewrite Hp).
    assert (Hs : settled (reset q) = settled q ++ [(p, None)])
      by (by rewrite Hreset).
    split; [exact Hs|].
    split; [by rewrite Hreset|].
    split; [by rewrite Hreset|].
    split; [by rewrite Hreset|].
    intros Hreach cs. split.
    + destruct (settled_run_prefix cs (reset q)) as [more ->].
      rewrite Hs, !elem_of_app. left. right. left.
    + apply wf_reachable in Hreach.
      pose proof (wf_run cs _ (wf_step q Reset Hreach)) as (Hnd & _ & _).
      apply count_once; [exact Hnd|].
      destruct (settled_run_prefix cs (reset q)) as [more ->].
      rewrite Hs, !fmap_app, !elem_of_app. left. right. left.
  - intros Hw. unfold reset. cbn. rewrite Hw. done.
Qed.

Lemma reset_wakes_waiter_once_witness :
  settled (reset (waits 1 empty).1) = [(0, None)]
  /\ timesResolved 0 (run [Reset; Push "a" None; Wait; Reset]
                         (reset (waits 1 empty).1)) = 1
  /\ queue (reset (pushes [("a", None)] empty)) = [].
Proof.
  destruct (reset_wakes_waiter_once (waits 1 empty).1) as [H _].
  destruct (H 0 eq_refl) as (Hs & _ & _ & _ & Hr).
  destruct (reset_wakes_waiter_once (pushes [("a", None)] empty))
    as [_ H'].
  destruct (H' eq_refl) as (_ & Hq & _).
  split; [exact Hs|]. split; [|exact Hq].
  apply Hr. by exists [Wait].
Defined.

(** *** close *)

Lemma close_inert q : inert (close q).
Proof.
  destruct q as [qu [p|] o cl ob se fr]; by cbn.
Qed.

Lemma inert_step q c :
  inert q ->
  inert (step q c)
  /\ observed (step q c) = observed q
  /\ settled (step q c) = settled q.
Proof.
  intros (Hc & Hq & Hw). unfold inert.
  destruct c as [msg imgs| | | |cb|]; cbn;
    unfold push, pop, waitForMessage, close, reset; cbn;
    rewrite ?Hc, ?Hq, ?Hw; cbn; rewrite ?Hc, ?Hq, ?Hw; cbn; auto.
Qed.

Lemma inert_run cs : forall q,
  inert q ->
  inert (run cs q)
  /\ observed (run cs q) = observed q
  /\ settled (run cs q) = settled q.
Proof.
  induction cs as [|c cs IH]; intros q Hq; [done|].
  change (run (c :: cs) q) with (run cs (step q c)).
  destruct (inert_step q c Hq) as (Hi & Ho & Hs).
  destruct (IH _ Hi) as (? & -> & ->). auto.
Qed.

(** C10. Once [close()] has been called, after any further calls of the
    public methods the queue is closed and empty with no stored resolver:
    [push] returns the state unchanged (nothing queued, no resolver and no
    observer called), [waitForMessage] returns null at once without
    storing a resolver, and [size()] is 0. Since [close()] itself, no
    observer call and no resolver call has been made. *)
Theorem closed_queue_is_inert q cs :
  let q' := run cs (close q) in
  closed q' = true
  /\ queue q' = []
  /\ waitResolve q' = None
  /\ size q' = 0
  /\ (forall msg imgs, push msg imgs q' = q')
  /\ waitForMessage q' = (q', Returned None)
  /\ observed q' = observed (close q)
  /\ settled q' = settled (close q).
Proof.
  intros q'.
  destruct (inert_run cs (close q) (close_inert q))
    as ((Hc & Hq & Hw) & Ho & Hs).
  fold q' in Hc, Hq, Hw, Ho, Hs.
  unfold size, push, waitForMessage. rewrite Hc, Hq. auto 10.
Qed.

End QueueFacts.

(** ** The session's permission relay *)

Module SessionFacts.

Import Session RemoteLauncher.

Implicit Types (s : Session.t) (r : PermissionResponse).

Lemma clear_all now s :
  hasPendingPermissionResponse
    (clearPendingPermissionResponse now (Some 0%Z) s) = false.
Proof.
  unfold clearPendingPermissionResponse, hasPendingPermissionResponse.
  destruct (pendingPermissionResponse s) eqn:Hp; cbn; by rewrite ?Hp.
Qed.

Lemma sendClaudeEvent_pending e s :
  pendingPermissionResponse (sendClaudeEvent e s)
  = pendingPermissionResponse s.
Proof. unfold sendClaudeEvent. by destruct (wsClient s). Qed.

Lemma sendClaudeEvent_tools e s :
  alwaysAllowedTools (sendClaudeEvent e s) = alwaysAllowedTools s.
Proof. unfold sendClaudeEvent. by destruct (wsClient s). Qed.

Lemma onPermissionRequest_tools now toolName toolInput s :
  alwaysAllowedTools (onPermissionRequest now toolName toolInput s)
  = alwaysAllowedTools s.
Proof.
  unfold onPermissionRequest.
  destruct (isToolAlwaysAllowed toolName s); [done|].
  rewrite sendClaudeEvent_tools. unfold clearPendingPermissionResponse.
  by destruct (String.eqb toolName "AskUserQuestion"),
       (pendingPermissionResponse s).
Qed.

Lemma isToolAlwaysAllowed_tools toolName s s' :
  alwaysAllowedTools s' = alwaysAllowedTools s ->
  isToolAlwaysAllowed toolName s' = isToolAlwaysAllowed toolName s.
Proof. unfold isToolAlwaysAllowed. by intros ->. Qed.

(** C1. When [onPermissionRequest] runs for a tool that
    [isToolAlwaysAllowed] does not report as always allowed, the session
    it hands to [sendClaudeEvent] already has no parked response, whatever
    the age of the one that was parked; after the handler, none is
    pending, and the [waitForPermission] that follows awaits a fresh
    answer. *)
Theorem permission_request_clears_pending now toolName toolInput s :
  isToolAlwaysAllowed toolName s = false ->
  (exists cleared,
      hasPendingPermissionResponse cleared = false
      /\ onPermissionRequest now toolName toolInput s
         = sendClaudeEvent
             {| ev_type := "PermissionRequest";
                ev_tool_name := Some toolName;
                ev_tool_input := Some toolInput |} cleared)
  /\ hasPendingPermissionResponse
       (onPermissionRequest now toolName toolInput s) = false
  /\ (forall later, exists resolver,
        (waitForPermission later toolName
           (onPermissionRequest now toolName toolInput s)).2
        = Awaiting resolver).
Proof.
  intros Hallowed.
  assert (Hpending :
    hasPendingPermissionResponse
      (onPermissionRequest now toolName toolInput s) = false).
  { unfold onPermissionRequest. rewrite Hallowed.
    unfold hasPendingPermissionResponse.
    rewrite sendClaudeEvent_pending.
    pose proof (clear_all now s) as Hc.
    unfold hasPendingPermissionResponse in Hc.
    by destruct (String.eqb toolName "AskUserQuestion"). }
  split; [|split; [exact Hpending|]].
  - unfold onPermissionRequest. rewrite Hallowed.
    eexists. split; [|reflexivity].
    pose proof (clear_all now s) as Hc.
    unfold hasPendingPermissionResponse in *.
    by destruct (String.eqb toolName "AskUserQuestion").
  - intros later. unfold waitForPermission.
    rewrite (isToolAlwaysAllowed_tools toolName s)
      by apply onPermissionRequest_tools.
    rewrite Hallowed. unfold consumePendingPermissionResponse.
    unfold hasPendingPermissionResponse in Hpending.
    destruct (pendingPermissionResponse
                (onPermissionRequest now toolName toolInput s));
      [done|]. cbn. eauto.
Qed.

Lemma permission_request_clears_pending_witness :
  let parked := handleMessage 100 (permission_response yes) create in
  hasPendingPermissionResponse parked = true
  /\ hasPendingPermissionResponse
       (onPermissionRequest 100 "Bash" "{}" parked) = false.
Proof.
  split; [reflexivity|].
  apply (permission_request_clears_pending 100 "Bash" "{}").
  vm_compute. reflexivity.
Defined.

(** C2. A permission response that arrives while no resolver is
    outstanding is parked with its receipt time. Consuming it when its
    age is at most the TTL ([maxAgeMs], 30000 ms when omitted) returns
    that response and empties the slot, so a second call returns null;
    consuming it when its age exceeds the TTL returns null and empties the
    slot too. *)
Theorem parked_response_ttl s r (receipt now : Z) (maxAgeMs : option Z) :
  permissionResolver s = None ->
  let parked := handleMessage receipt (permission_response r) s in
  let ttl := default 30000%Z maxAgeMs in
  let consumed := consumePendingPermissionResponse now maxAgeMs parked in
  pendingPermissionResponse parked
    = Some {| response := r; receivedAt := receipt |}
  /\ ((now - receipt <= ttl)%Z ->
       consumed.2 = Some r
       /\ hasPendingPermissionResponse consumed.1 = false
       /\ forall now' maxAge',
            (consumePendingPermissionResponse now' maxAge' consumed.1).2
            = None)
  /\ ((ttl < now - receipt)%Z ->
       consumed.2 = None
       /\ hasPendingPermissionResponse consumed.1 = false).
Proof.
  intros Hres parked ttl consumed.
  assert (Hparked : pendingPermissionResponse parked
                    = Some {| response := r; receivedAt := receipt |}).
  { unfold parked, handleMessage. rewrite Hres. cbn.
    by destruct (permissionResponseTriggerSwitch s). }
  split; [exact Hparked|].
  unfold consumed, consumePendingPermissionResponse,
    hasPendingPermissionResponse.
  rewrite Hparked. cbn [receivedAt response].
  change (default defaultMaxAgeMs maxAgeMs) with ttl.
  split; intros Hage.
  - destruct (Z.ltb_spec ttl (now - receipt)); [lia|]. by cbn.
  - destruct (Z.ltb_spec ttl (now - receipt)); [|lia]. by cbn.
Qed.

Lemma parked_response_ttl_witness :
  let parked := handleMessage 1000 (permission_response always) create in
  (consumePendingPermissionResponse 31000 None parked).2 = Some always
  /\ (consumePendingPermissionResponse 31001 None parked).2 = None.
Proof.
  pose proof (parked_response_ttl create always 1000 31000 None eq_refl)
    as (_ & Hin & _).
  pose proof (parked_response_ttl create always 1000 31001 None eq_refl)
    as (_ & _ & Hout).
  split; [apply Hin | apply Hout]; cbn; lia.
Defined.

(** A response parked in local mode is found on entering remote mode
    within the TTL, and only once. *)
Example parked_then_consumed_once :
  let parked := handleMessage 5000 (permission_response yes) create in
  let taken := consumePendingPermissionResponse 20000 None parked in
  hasPendingPermissionResponse parked = true
  /\ taken.2 = Some yes
  /\ (consumePendingPermissionResponse 20001 None taken.1).2 = None.
Proof. by cbn. Qed.

(** *** Always-allowed tools *)

Lemma mark_protected s : markToolAlwaysAllowed "AskUserQuestion" s = s.
Proof. reflexivity. Qed.

Lemma protected_never_allowed s :
  isToolAlwaysAllowed "AskUserQuestion" s = false.
Proof. reflexivity. Qed.

Lemma mark_keeps t t' s :
  isToolAlwaysAllowed t s = true ->
  isToolAlwaysAllowed t (markToolAlwaysAllowed t' s) = true.
Proof.
  unfold isToolAlwaysAllowed, markToolAlwaysAllowed.
  destruct (String.eqb t "AskUserQuestion"); [done|].
  destruct (String.eqb t' "AskUserQuestion"); [done|]. cbn.
  rewrite !bool_decide_eq_true. set_solver.
Qed.

Lemma toolCalls_keep cs : forall t s,
  isToolAlwaysAllowed t s = true ->
  isToolAlwaysAllowed t (toolCalls cs s).1 = true.
Proof.
  induction cs as [|[t'|t'] cs IH]; intros t s H; cbn.
  - done.
  - apply IH. by apply mark_keeps.
  - specialize (IH t s H). by destruct (toolCalls cs s).
Qed.

Lemma toolCalls_answers cs : forall s n b,
  (n, b) ∈ (toolCalls cs s).2 ->
  exists s', b = isToolAlwaysAllowed n s'.
Proof.
  induction cs as [|[t'|t'] cs IH]; intros s n b; cbn.
  - inversion 1.
  - apply IH.
  - specialize (IH s n b). destruct (toolCalls cs s) as [s' answers].
    cbn in *. intros [[= -> ->]|Hin]%elem_of_cons; eauto.
Qed.

(** C3. In every session state and after every sequence of
    [markToolAlwaysAllowed] and [isToolAlwaysAllowed] calls,
    [isToolAlwaysAllowed("AskUserQuestion")] is false: every answer given
    for it during the sequence is false, and so is the answer right after
    [markToolAlwaysAllowed("AskUserQuestion")], which leaves the session,
    and with it the always-allowed set, unchanged. For any other tool [t],
    [isToolAlwaysAllowed(t)] is true after [markToolAlwaysAllowed(t)] and
    stays true through any further such calls. *)
Theorem protected_tool_never_always_allowed s cs t :
  isToolAlwaysAllowed "AskUserQuestion" (toolCalls cs s).1 = false
  /\ (forall b, ("AskUserQuestion", b) ∈ (toolCalls cs s).2 -> b = false)
  /\ isToolAlwaysAllowed "AskUserQuestion"
       (markToolAlwaysAllowed "AskUserQuestion" s) = false
  /\ alwaysAllowedTools (markToolAlwaysAllowed "AskUserQuestion" s)
     = alwaysAllowedTools s
  /\ (t <> "AskUserQuestion" ->
      isToolAlwaysAllowed t (markToolAlwaysAllowed t s) = true
      /\ isToolAlwaysAllowed t
           (toolCalls cs (markToolAlwaysAllowed t s)).1 = true).
Proof.
  split; [apply protected_never_allowed|].
  split.
  { intros b Hin. by destruct (toolCalls_answers _ _ _ _ Hin) as [s' ->]. }
  split; [apply protected_never_allowed|].
  split; [by rewrite mark_protected|].
  intros Hne.
  assert (H : isToolAlwaysAllowed t (markToolAlwaysAllowed t s) = true).
  { unfold isToolAlwaysAllowed, markToolAlwaysAllowed.
    apply String.eqb_neq in Hne. rewrite Hne. cbn.
    rewrite bool_decide_eq_true. set_solver. }
  split; [exact H | by apply toolCalls_keep].
Qed.

Lemma protected_tool_never_always_allowed_witness :
  isToolAlwaysAllowed "Bash" (markToolAlwaysAllowed "Bash" create) = true
  /\ isToolAlwaysAllowed "AskUserQuestion"
       (toolCalls [Mark "AskUserQuestion"; Query "AskUserQuestion"]
          create).1 = false.
Proof.
  pose proof (protected_tool_never_always_allowed create
                [Mark "AskUserQuestion"; Query "AskUserQuestion"] "Bash")
    as (Hq & _ & _ & _ & Hother).
  split; [|exact Hq].
  apply Hother. discriminate.
Defined.

End SessionFacts.

(** ** The transcript scanner *)

Module ScannerFacts.

Import SessionScanner.

Implicit Types (s : SessionScanner.t) (m : RawJSONLines).
Implicit Types (messages : list RawJSONLines) (seen : gset string).

Lemma unseen_keys messages : forall seen,
  NoDup (messageKey <$> unseen seen messages)
  /\ (forall k, k ∈ messageKey <$> unseen seen messages -> k ∉ seen)
  /\ (forall m, m ∈ unseen seen messages -> m ∈ messages)
  /\ (forall m, m ∈ messages -> messageKey m ∉ seen ->
        messageKey m ∈ messageKey <$> unseen seen messages).
Proof.
  induction messages as [|m rest IH]; intros seen; cbn.
  - repeat split; [constructor | inversion 1 | done | inversion 1].
  - case_bool_decide as Hseen.
    + destruct (IH seen) as (Hnd & Hnot & Hsub & Hall).
      repeat split; [done | done | by right; apply Hsub |].
      intros m' [->|Hin]%elem_of_cons Hm'; [done | by apply Hall].
    + destruct (IH ({[messageKey m]} ∪ seen)) as (Hnd & Hnot & Hsub & Hall).
      cbn. repeat split.
      * apply NoDup_cons. split; [|done].
        intros Hin. apply Hnot in Hin. set_solver.
      * intros k [->|Hin]%elem_of_cons; [done|].
        apply Hnot in Hin. set_solver.
      * intros m' [->|Hin]%elem_of_cons; [left | right; by apply Hsub].
      * intros m' [->|Hin]%elem_of_cons Hm'; [left|].
        destruct (decide (messageKey m' = messageKey m)) as [->|Hne];
          [left | right; apply Hall; [done | set_solver]].
Qed.

Lemma unseen_all_seen messages seen :
  (forall m, m ∈ messages -> messageKey m ∈ seen) ->
  unseen seen messages = [].
Proof.
  induction messages as [|m rest IH]; intros H; cbn; [done|].
  rewrite bool_decide_eq_true_2 by (apply H; left).
  apply IH. intros m' Hm'. apply H. by right.
Qed.

(** The loop of [sync] forwards exactly the unseen entries and adds the
    identifiers of all entries to the processed set. *)
Lemma forward_spec messages : forall saw s,
  forwarded (forward messages saw s).1
    = forwarded s ++ unseen (processedMessageKeys s) messages
  /\ processedMessageKeys (forward messages saw s).1
     = processedMessageKeys s ∪ list_to_set (messageKey <$> messages)
  /\ currentSessionId (forward messages saw s).1 = currentSessionId s
  /\ watcher (forward messages saw s).1 = watcher s
  /\ onIdle (forward messages saw s).1 = onIdle s
  /\ idle (forward messages saw s).1 = idle s.
Proof.
  induction messages as [|m rest IH]; intros saw s; cbn.
  - rewrite app_nil_r. repeat split; set_solver.
  - case_bool_decide as Hseen.
    + destruct (IH saw s) as (-> & -> & -> & -> & -> & ->).
      repeat split; set_solver.
    + destruct (IH (saw || is_assistant m)
                   (onMessage m (add_key (messageKey m) s)))
        as (-> & -> & -> & -> & -> & ->).
      cbn. rewrite <- app_assoc. repeat split; set_solver.
Qed.

Lemma forward_all_seen messages : forall saw s,
  (forall m, m ∈ messages -> messageKey m ∈ processedMessageKeys s) ->
  forward messages saw s = (s, saw).
Proof.
  induction messages as [|m rest IH]; intros saw s H; cbn; [done|].
  rewrite bool_decide_eq_true_2 by (apply H; left).
  apply IH. intros m' Hm'. apply H. by right.
Qed.

Lemma sync_spec fs s :
  forwarded (sync fs s)
    = forwarded s ++ unseen (processedMessageKeys s) (reads fs s)
  /\ processedMessageKeys (sync fs s)
     = processedMessageKeys s ∪ list_to_set (messageKey <$> reads fs s)
  /\ currentSessionId (sync fs s) = currentSessionId s.
Proof.
  unfold sync, reads. destruct (truthy (currentSessionId s)) as [sid|].
  - destruct (forward_spec (readSessionLog fs sid) false s)
      as (Hf & Hp & Hc & _).
    destruct (forward (readSessionLog fs sid) false s) as [s1 saw].
    cbn in *. by destruct (saw && onIdle s1).
  - cbn. rewrite app_nil_r. repeat split; set_solver.
Qed.

Lemma once_create sessionId idleObserver fs :
  once (createSessionScanner sessionId idleObserver fs).
Proof.
  unfold createSessionScanner, once, forwardedKeys.
  destruct (truthy sessionId); cbn; split;
    solve [constructor | inversion 1].
Qed.

Lemma once_step s e : once s -> once (step s e).
Proof.
  intros [Hnd Hcov]. destruct e as [fs|sid]; cbn.
  - destruct (sync_spec fs s) as (Hf & Hp & _).
    destruct (unseen_keys (reads fs s) (processedMessageKeys s))
      as (Hnd' & Hnot & _).
    unfold once, forwardedKeys in *. rewrite Hf, Hp, fmap_app. split.
    + apply NoDup_app. repeat split; [done | | done].
      intros k Hk Hk'. by apply (Hnot k Hk'), Hcov.
    + intros k [Hk|Hk]%elem_of_app; [apply Hcov in Hk; set_solver|].
      apply elem_of_union_r, elem_of_list_to_set.
      apply list_elem_of_fmap in Hk as (m & -> & Hm).
      apply list_elem_of_fmap. exists m. split; [done|].
      by apply (unseen_keys (reads fs s) (processedMessageKeys s)).
  - unfold onNewSession. by case_bool_decide.
Qed.

Lemma once_run es : forall s, once s -> once (run es s).
Proof.
  induction es as [|e es IH]; intros s H; [done|].
  apply (IH (step s e)). by apply once_step.
Qed.

Lemma sync_again fs s : sync fs (sync fs s) = sync fs s.
Proof.
  destruct (sync_spec fs s) as (_ & Hp & Hc).
  unfold sync at 1. rewrite Hc.
  destruct (truthy (currentSessionId s)) as [sid|] eqn:Hsid; [|done].
  rewrite forward_all_seen; [done|].
  intros m Hm. rewrite Hp. unfold reads. rewrite Hsid.
  apply elem_of_union_r, elem_of_list_to_set, list_elem_of_fmap. eauto.
Qed.

Lemma reads_retargeted fs sid s :
  sid <> "" -> reads fs (onNewSession sid s) = readSessionLog fs sid.
Proof.
  intros Hne. unfold reads, onNewSession.
  apply String.eqb_neq in Hne.
  case_bool_decide as Hcur; [rewrite <- Hcur|]; cbn; by rewrite Hne.
Qed.

Lemma onNewSession_keeps sid s :
  processedMessageKeys (onNewSession sid s) = processedMessageKeys s
  /\ forwarded (onNewSession sid s) = forwarded s.
Proof. unfold onNewSession. by case_bool_decide. Qed.

(** C6. For a scanner created with any options and taken through any
    sequence of sync passes and retargets, no identifier has been handed
    to [onMessage] twice. A second pass over the same directory content
    changes nothing. A retarget keeps the processed set; the pass that
    follows it only appends to what was forwarded, appends no identifier
    that was forwarded before, and (for a non-empty session id) appends,
    in file order, the entries of the new file whose identifier is not in
    the processed set, so every such identifier is forwarded. *)
Theorem identifiers_forwarded_once sessionId idleObserver fs0 es :
  let s := run es (createSessionScanner sessionId idleObserver fs0) in
  NoDup (forwardedKeys s)
  /\ (forall fs, sync fs (sync fs s) = sync fs s)
  /\ (forall sid fs,
        processedMessageKeys (onNewSession sid s) = processedMessageKeys s
        /\ exists new,
             forwarded (sync fs (onNewSession sid s)) = forwarded s ++ new
             /\ NoDup (forwardedKeys (sync fs (onNewSession sid s)))
             /\ (forall m, m ∈ new -> messageKey m ∉ forwardedKeys s)
             /\ (sid <> "" ->
                   new = unseen (processedMessageKeys s)
                           (readSessionLog fs sid)
                   /\ forall m,
                        m ∈ readSessionLog fs sid ->
                        messageKey m ∉ processedMessageKeys s ->
                        messageKey m ∈ messageKey <$> new)).
Proof.
  intros s.
  assert (Hs : once s) by apply once_run, once_create.
  split; [apply Hs|]. split; [intros fs; apply sync_again|].
  intros sid fs.
  destruct (onNewSession_keeps sid s) as [Hkeep Hfwd].
  split; [exact Hkeep|].
  destruct (sync_spec fs (onNewSession sid s)) as (Hf & _ & _).
  rewrite Hkeep, Hfwd in Hf.
  eexists. split; [exact Hf|].
  split.
  { apply (once_step _ (SyncPass fs)), (once_step _ (NewSession sid)), Hs. }
  destruct (unseen_keys (reads fs (onNewSession sid s))
              (processedMessageKeys s)) as (_ & Hnot & _ & Hall).
  split.
  - intros m Hm Hold. apply (Hnot (messageKey m)).
    + apply list_elem_of_fmap. eauto.
    + by apply Hs.
  - intros Hne. rewrite reads_retargeted in * by done. split; [done|].
    exact Hall.
Qed.

Lemma identifiers_forwarded_once_witness :
  let old := fun sid : string =>
    if String.eqb sid "s1" then Some [entry (user "u1" "")] else None in
  let new := fun sid : string =>
    if String.eqb sid "s2"
    then Some [entry (user "u1" ""); malformed; entry (assistant "a1" "")]
    else None in
  let s := run [NewSession "s1"; SyncPass old]
               (createSessionScanner None true old) in
  forwarded s = [user "u1" ""]
  /\ forwarded (sync new (onNewSession "s2" s))
     = [user "u1" ""; assistant "a1" ""].
Proof.
  intros old new s. split; [reflexivity|].
  destruct (identifiers_forwarded_once None true old
              [NewSession "s1"; SyncPass old]) as (_ & _ & H).
  destruct (H "s2" new) as (_ & more & Hf & _ & _ & Hnew).
  destruct Hnew as [Hmore _]; [discriminate|].
  fold s in Hf, Hmore. rewrite Hf, Hmore. reflexivity.
Defined.

End ScannerFacts.

(** ** The reconnecting WebSocket client *)

Module WSFacts.

Import WSClient.

Local Open Scope Z_scope.

Implicit Types (s : WSClient.t) (e : event) (es : list event).

Ltac crush_effects :=
  unfold scheduled, sockets; cbn -[Z.mul Z.min Z.add Z.ltb];
  rewrite ?List.filter_app, <- ?app_assoc; cbn -[Z.mul Z.min Z.add Z.ltb];
  rewrite ?app_nil_r, ?length_app; cbn -[Z.mul Z.min Z.add Z.ltb];
  rewrite ?Nat.add_0_r; auto.

(** Once the caller has closed the client, no event schedules a reconnect,
    the flag stays set and no timer is added. *)
Lemma closed_step s e :
  isIntentionallyClosed s = true ->
  isIntentionallyClosed (step s e) = true
  /\ scheduled (step s e) = scheduled s
  /\ (timers (step s e) <= timers s)%nat
  /\ (timers s = 0%nat -> sockets (step s e) = sockets s).
Proof.
  destruct s as [mh ch pi n ic cr tm eff]. cbn. intros ->.
  destruct e as [|[|ty]| | | |h|h|], mh, ch, pi, cr, tm;
    unfold step, on_open, on_message, on_close, on_error, timer_fires,
      connect, close;
    cbn -[Z.mul Z.min Z.add Z.ltb String.eqb];
    repeat match goal with
           | |- context [if ?b then _ else _] => destruct b
           end;
    crush_effects; repeat split; first [lia | done | idtac].
Qed.

Lemma closed_run es : forall s,
  isIntentionallyClosed s = true ->
  isIntentionallyClosed (run es s) = true
  /\ scheduled (run es s) = scheduled s
  /\ (timers s = 0%nat -> sockets (run es s) = sockets s).
Proof.
  induction es as [|e es IH]; intros s Hc; [done|].
  change (run (e :: es) s) with (run es (step s e)).
  destruct (closed_step s e Hc) as (Hc' & <- & Ht & Hs).
  destruct (IH _ Hc') as (? & ? & Hs').
  repeat split; [done | done |].
  intros Hnone. rewrite Hs', Hs; [done | done | lia].
Qed.

Lemma attempts_step s e :
  0 <= reconnectAttempts s <= maxReconnects ->
  0 <= reconnectAttempts (step s e) <= maxReconnects.
Proof.
  unfold maxReconnects. destruct s as [mh ch pi n ic cr tm eff]. cbn.
  intros H.
  destruct e as [|[|ty]| | | |h|h|], mh, ch, pi, ic, cr, tm;
    unfold step, on_open, on_message, on_close, on_error, timer_fires,
      connect, onMessage, onClose, close, setTimeoutConnect, maxReconnects;
    cbn -[Z.mul Z.min Z.add Z.ltb String.eqb];
    repeat match goal with
           | |- context [if ?m <? 50 then _ else _] =>
               destruct (Z.ltb_spec m 50)
           | |- context [if ?b then _ else _] => destruct b
           end;
    cbn -[Z.mul Z.min Z.add Z.ltb String.eqb]; lia.
Qed.

Lemma attempts_run es : forall s,
  0 <= reconnectAttempts s <= maxReconnects ->
  0 <= reconnectAttempts (run es s) <= maxReconnects.
Proof.
  induction es as [|e es IH]; intros s H; [done|].
  apply (IH (step s e)). by apply attempts_step.
Qed.

(** C7. The close handler, on a close the caller did not ask for: with
    fewer than 50 attempts made it increments the counter and sets one
    timer for [connect] with delay [min (attempt * 1000) 10000], [attempt]
    being the incremented counter, and does not call the close observer;
    with the 50 attempts used up it calls the close observer (when one is
    registered), sets no timer and leaves the counter alone. The open
    handler sets the counter to 0. With the flag of [client.close()] set,
    the close handler sets no timer; after [client.close()] no event sets
    a reconnect timer again, and when no timer was pending at that call no
    socket is opened again. The counter of a client stays within 0..50. *)
Theorem reconnect_policy s :
  (isIntentionallyClosed s = false ->
   reconnectAttempts s < 50 ->
     reconnectAttempts (on_close s) = reconnectAttempts s + 1
     /\ scheduled (on_close s)
        = scheduled s
          ++ [SetTimeoutConnect
                (Z.min ((reconnectAttempts s + 1) * 1000) 10000)]
     /\ effects (on_close s)
        = effects s
          ++ (if pingInterval s then [ClearPingInterval] else [])
          ++ [SetTimeoutConnect
                (Z.min ((reconnectAttempts s + 1) * 1000) 10000)])
  /\ (isIntentionallyClosed s = false ->
      50 <= reconnectAttempts s ->
        reconnectAttempts (on_close s) = reconnectAttempts s
        /\ scheduled (on_close s) = scheduled s
        /\ effects (on_close s)
           = effects s
             ++ (if pingInterval s then [ClearPingInterval] else [])
             ++ (if closeHandler s then [CallCloseHandler] else []))
  /\ reconnectAttempts (on_open s) = 0
  /\ (isIntentionallyClosed s = true ->
      scheduled (on_close s) = scheduled s)
  /\ (forall es,
        isIntentionallyClosed (run es (close s)) = true
        /\ scheduled (run es (close s)) = scheduled s
        /\ (timers s = 0%nat -> sockets (run es (close s)) = sockets s))
  /\ (forall es,
        0 <= reconnectAttempts (run es createWSClient) <= 50).
Proof.
  split; [|split; [|split; [|split; [|split]]]].
  - destruct s as [mh ch pi n ic cr tm eff]. cbn. intros -> Hn.
    unfold on_close, setTimeoutConnect, maxReconnects.
    destruct pi; cbn -[Z.mul Z.min Z.add Z.ltb];
      (destruct (Z.ltb_spec n 50); [|lia]);
      rewrite (Z.mul_comm 1000); crush_effects.
  - destruct s as [mh ch pi n ic cr tm eff]. cbn. intros -> Hn.
    unfold on_close, maxReconnects.
    destruct pi, ch; cbn -[Z.mul Z.min Z.add Z.ltb];
      (destruct (Z.ltb_spec n 50); [lia|]); crush_effects.
  - destruct s as [mh ch pi n ic cr tm eff]. by destruct pi, cr.
  - intros Hi. apply (closed_step s Closed Hi).
  - intros es.
    assert (Hc : isIntentionallyClosed (close s) = true
                 /\ scheduled (close s) = scheduled s
                 /\ sockets (close s) = sockets s
                 /\ timers (close s) = timers s).
    { destruct s as [mh ch pi n ic cr tm eff].
      unfold close. destruct pi; crush_effects. }
    destruct Hc as (Hc & <- & <- & <-). by apply closed_run.
  - intros es. apply (attempts_run es createWSClient). cbn.
    unfold maxReconnects. lia.
Qed.

Lemma reconnect_policy_witness :
  let dropped := run [Open; CallOnClose true] createWSClient in
  scheduled (on_close dropped) = [SetTimeoutConnect 1000]
  /\ reconnectAttempts
       (on_close (run (repeat Closed 50) dropped)) = 50
  /\ scheduled (on_close (close dropped)) = [].
Proof.
  intros dropped.
  destruct (reconnect_policy dropped) as (Hfirst & _ & _ & _ & Hclosed & _).
  destruct (reconnect_policy (run (repeat Closed 50) dropped))
    as (_ & Hlast & _).
  destruct Hfirst as (_ & Hs & _); [reflexivity | reflexivity |].
  destruct Hlast as (Hn & _); [reflexivity | by vm_compute |].
  split; [exact Hs|]. split; [exact Hn|].
  destruct (reconnect_policy (close dropped)) as (_ & _ & _ & Hi & _).
  rewrite Hi by reflexivity.
  exact (proj1 (proj2 (Hclosed []))).
Defined.

(** From a first connection on, 51 closes in a row with no reopen: fifty
    timers with delays 1 s, 2 s, ..., 10 s, 10 s, ..., then the close
    observer is called and no timer is set. *)
Example fifty_attempts_then_give_up :
  let s := run (repeat Closed 51)
               (run [Open; CallOnClose true] createWSClient) in
  scheduled s
    = (fun n => SetTimeoutConnect (Z.min (Z.of_nat n * 1000) 10000))
        <$> seq 1 50
  /\ last (effects s) = Some CallCloseHandler
  /\ reconnectAttempts s = 50.
Proof. by vm_compute. Qed.

(** A reopen in between starts the count again. *)
Example reopen_resets_attempts :
  let s := run [Closed; TimerFires; Closed; TimerFires; Closed; TimerFires;
                Open; Closed]
               (run [Open] createWSClient) in
  reconnectAttempts s = 1
  /\ scheduled s = SetTimeoutConnect <$> [1000; 2000; 3000; 1000].
Proof. by vm_compute. Qed.

(** A timer set before [client.close()] is not cancelled by it: when it
    fires, one more socket is opened. *)
Example pending_timer_survives_close :
  let s := run [Open; Closed; CallClose] createWSClient in
  timers s = 1%nat
  /\ sockets s = 1%nat
  /\ sockets (run [TimerFires] s) = 2%nat
  /\ scheduled (run [TimerFires; Open; Closed] s) = scheduled s.
Proof. by vm_compute. Qed.

End WSFacts.

(** ** The remote query driver *)

Module RemoteFacts.

Import ClaudeRemote.

Implicit Types (E : env) (s : state) (first : UserMessage).
Implicit Types (resume startFrom : option string).

Lemma quiet_app l1 l2 : quiet l1 -> quiet l2 -> quiet (l1 ++ l2).
Proof. unfold quiet. intros H1 H2. by rewrite omap_app, H1, H2. Qed.

Lemma updateThinking_log E b s :
  exists more, log (updateThinking E b s) = log s ++ more /\ quiet more.
Proof.
  unfold updateThinking.
  destruct (Bool.eqb (thinking s) b);
    [exists []; by rewrite app_nil_r|].
  destruct (onThinkingChange E); cbn; [by eexists [_]|].
  exists []. by rewrite app_nil_r.
Qed.

(** Iterating a response calls [query] no further, and completes by a
    return or a throw. *)
Lemma loop_spec E resume ms fin : forall s,
  (exists more, log (loop E resume ms fin s).1 = log s ++ more
                /\ quiet more)
  /\ (loop E resume ms fin s).2 <> Normal.
Proof.
  induction ms as [|m rest IH]; intros s; cbn.
  - destruct fin; (split; [exists []; by rewrite app_nil_r | done]).
  - destruct m as [c|sid| |ty].
    + destruct (IH (emit (OnMessage (sdk_user c)) s))
        as [(more & -> & Hq) ?].
      split; [|done]. cbn. rewrite <- app_assoc.
      eexists. split; [done|]. by apply quiet_app.
    + set (s1 := emit (OnMessage (sdk_init sid)) s).
      destruct (updateThinking_log E true s1) as (m1 & H1 & Hq1).
      destruct sid as [id|].
      * destruct (IH (emit (OnSessionFound id) (updateThinking E true s1)))
          as [(more & -> & Hq) ?].
        split; [|done]. cbn. rewrite H1. cbn. rewrite <- !app_assoc.
        eexists. split; [done|].
        apply (quiet_app [_]); [done|].
        apply quiet_app; [done|]. by apply (quiet_app [_]).
      * destruct (IH (updateThinking E true s1)) as [(more & -> & Hq) ?].
        split; [|done]. rewrite H1. cbn. rewrite <- !app_assoc.
        eexists. split; [done|].
        apply (quiet_app [_]); [done|]. by apply quiet_app.
    + set (s1 := emit (OnMessage sdk_result) s).
      destruct (updateThinking_log E false s1) as (m1 & H1 & Hq1).
      destruct (nextMessage E _) as [n|] eqn:Hn; cbn.
      * match goal with
        | |- context [loop E resume rest fin ?s0] =>
            destruct (IH s0) as [(more & -> & Hq) ?]
        end.
        split; [|done]. cbn. rewrite H1. cbn. rewrite <- !app_assoc.
        eexists. split; [done|].
        apply (quiet_app [_]); [done|].
        apply quiet_app; [done|].
        apply (quiet_app [_]); [done|]. by apply (quiet_app [_]).
      * split; [|done]. rewrite H1. cbn. rewrite <- !app_assoc.
        eexists. split; [done|].
        apply (quiet_app [_]); [done|]. by apply quiet_app.
    + destruct (IH (emit (OnMessage (sdk_other ty)) s))
        as [(more & -> & Hq) ?].
      split; [|done]. cbn. rewrite <- app_assoc.
      eexists. split; [done|]. by apply quiet_app.
Qed.

(** One [runQuery] is one [query] call, with the resume target it was
    given. *)
Lemma runQuery_spec E resume first s :
  queries (runQuery E resume first s).1 = queries s ++ [resume]
  /\ (runQuery E resume first s).2 <> Normal.
Proof.
  unfold runQuery, call_query.
  match goal with
  | |- context [loop E resume ?ms ?fin (updateThinking E true ?s0)] =>
      destruct (loop_spec E resume ms fin (updateThinking E true s0))
        as [(more & Hl & Hq) ?];
      destruct (updateThinking_log E true s0) as (m1 & H1 & Hq1)
  end.
  split; [|done].
  unfold queries. rewrite Hl, H1. cbn.
  rewrite !omap_app. cbn. unfold quiet in *. rewrite Hq, Hq1.
  by rewrite !app_nil_r.
Qed.

Lemma queries_updateThinking E b s :
  queries (updateThinking E b s) = queries s.
Proof.
  destruct (updateThinking_log E b s) as (more & H & Hq).
  unfold queries. rewrite H, omap_app. unfold quiet in Hq.
  by rewrite Hq, app_nil_r.
Qed.

Lemma attempt_retry E startFrom first s :
  (runQuery E startFrom first s).2 = Throw ->
  truthy startFrom = true -> aborted E = false ->
  attempt E startFrom first s
  = (updateThinking E false
       (runQuery E None first (runQuery E startFrom first s).1).1,
     match (runQuery E None first (runQuery E startFrom first s).1).2 with
     | Return v => Return v
     | _ => Normal
     end).
Proof.
  intros Hthrow Ht Ha. unfold attempt, try_finally, try_catch.
  destruct (runQuery E startFrom first s) as [s1 c1].
  cbn [fst snd] in *. subst c1. rewrite Ht, Ha. cbn [andb negb].
  by destruct (runQuery E None first s1) as [s2 []].
Qed.

Lemma attempt_no_retry E startFrom first s :
  (runQuery E startFrom first s).2 = Throw ->
  truthy startFrom = false \/ aborted E = true ->
  attempt E startFrom first s
  = (updateThinking E false (runQuery E startFrom first s).1, Normal).
Proof.
  intros Hthrow Hno. unfold attempt, try_finally, try_catch.
  destruct (runQuery E startFrom first s) as [s1 c1].
  cbn [fst snd] in *. subst c1.
  by destruct Hno as [-> | ->]; rewrite ?andb_false_r.
Qed.

Lemma claudeRemote_attempt E sessionId claudeArgs first :
  nextMessage E 0 = Some first ->
  claudeRemote E sessionId claudeArgs
  = match attempt E (resumeTarget E sessionId claudeArgs) first
            (ask E start).1 with
    | (s2, Return v) => (s2, Fulfilled v)
    | (s2, Normal) =>
        (s2, Fulfilled (resumeTarget E sessionId claudeArgs))
    | (s2, Throw) => (s2, Rejected)
    end.
Proof.
  intros Hfirst. unfold claudeRemote, ask. cbn [asked start fst].
  by rewrite Hfirst.
Qed.

(** C8, as amended. Let the first query loop of [claudeRemote] throw.
    If the resume target is a non-empty session id and the abort signal
    is not set, [claudeRemote] runs the query loop once more, with no
    resume target and the same first message, from the state the failed
    attempt left; it makes those two [query] calls and no other, and its
    promise is fulfilled: with the value of the second attempt when that
    returns, with [startFrom] when the second attempt throws as well. If
    the resume target is null or empty, or the abort signal is set, the
    one [query] call is all and the promise is fulfilled with
    [startFrom]. *)
Theorem failed_resume_retries_once E sessionId claudeArgs first :
  let startFrom := resumeTarget E sessionId claudeArgs in
  let failed := (runQuery E startFrom first (ask E start).1).1 in
  let final := claudeRemote E sessionId claudeArgs in
  nextMessage E 0 = Some first ->
  (runQuery E startFrom first (ask E start).1).2 = Throw ->
  (truthy startFrom = true -> aborted E = false ->
     queries final.1 = [startFrom; None]
     /\ final.1 = updateThinking E false (runQuery E None first failed).1
     /\ final.2 = match (runQuery E None first failed).2 with
                  | Return v => Fulfilled v
                  | _ => Fulfilled startFrom
                  end
     /\ ((runQuery E None first failed).2 = Throw ->
         final.2 = Fulfilled startFrom))
  /\ (truthy startFrom = false \/ aborted E = true ->
      queries final.1 = [startFrom]
      /\ final.1 = updateThinking E false failed
      /\ final.2 = Fulfilled startFrom).
Proof.
  intros startFrom failed final Hfirst Hthrow.
  destruct (runQuery_spec E startFrom first (ask E start).1) as [Hq1 _].
  fold failed in Hq1.
  change (queries (ask E start).1) with (@nil (option string)) in Hq1.
  unfold final. rewrite (claudeRemote_attempt _ _ _ _ Hfirst).
  fold startFrom. split.
  - intros Htruthy Habort.
    rewrite (attempt_retry _ _ _ _ Hthrow Htruthy Habort). fold failed.
    destruct (runQuery_spec E None first failed) as [Hq2 Hn2].
    assert (Hq : queries (updateThinking E false
                            (runQuery E None first failed).1)
                 = [startFrom; None])
      by (by rewrite queries_updateThinking, Hq2, Hq1).
    destruct (runQuery E None first failed) as [s2 [v| |]];
      cbn [fst snd] in *; [|done|]; repeat split; done.
  - intros Hno. rewrite (attempt_no_retry _ _ _ _ Hthrow Hno). fold failed.
    cbn [fst snd]. by rewrite queries_updateThinking, Hq1.
Qed.

Lemma failed_resume_retries_once_witness :
  let E := {| sessionExists := fun _ => true;
              nextMessage := fun _ =>
                Some {| text := "hello"; attachments := None |};
              query := fun _ _ => {| yields := []; last := fails |};
              onThinkingChange := true;
              aborted := false |} in
  queries (claudeRemote E (Some "abc-123") None).1 = [Some "abc-123"; None]
  /\ (claudeRemote E (Some "abc-123") None).2 = Fulfilled (Some "abc-123")
  /\ queries (claudeRemote E None None).1 = [None].
Proof.
  intros E.
  destruct (failed_resume_retries_once E (Some "abc-123") None
              {| text := "hello"; attachments := None |} eq_refl eq_refl)
    as [Hretry _].
  destruct (Hretry eq_refl eq_refl) as (Hq & _ & _ & Hf).
  destruct (failed_resume_retries_once E None None
              {| text := "hello"; attachments := None |} eq_refl eq_refl)
    as [_ Hnone].
  destruct (Hnone (or_introl eq_refl)) as (Hq' & _).
  split; [exact Hq|]. split; [exact (Hf eq_refl) | exact Hq'].
Defined.

(** C8, as stated, fails: with the empty string as session id the resume
    target is non-null and is handed to [query], yet when that attempt
    throws no second attempt is made. *)
Lemma empty_session_id_is_not_retried :
  ~ retries_whenever_startFrom_non_null.
Proof.
  intros H.
  specialize (H {| sessionExists := fun _ => true;
                   nextMessage := fun _ =>
                     Some {| text := "hello"; attachments := None |};
                   query := fun _ _ => {| yields := []; last := fails |};
                   onThinkingChange := true;
                   aborted := false |}
                (Some "") None
                {| text := "hello"; attachments := None |}
                eq_refl).
  cbn in H. discriminate H; done.
Qed.

End RemoteFacts.

(** ** The hook receiver *)

Module HookFacts.

Import HookServer.

Local Open Scope Z_scope.

Implicit Types (o : HookServerOptions) (req : request) (p : parsed).

Lemma posted_test req :
  posted req <->
  String.eqb (method req) "POST"
  && (String.eqb (url req) "/hook"
      || String.eqb (url req) "/hook/session-start") = true.
Proof.
  unfold posted.
  rewrite andb_true_iff, orb_true_iff, !String.eqb_eq. tauto.
Qed.

(** With the headers not yet sent, a body that is not JSON [null] and
    observers that return lead to [200 ok]. *)
Lemma process_ok o u p s :
  observers_return o -> p <> Value JNull -> sent s = None ->
  exists s', process o u p s = (s', Ok tt) /\ sent s' = Some (200, "ok").
Proof.
  intros [Hsession Hevent] Hp Hs. unfold process.
  set (data := match p with SyntaxError => JObj [] | Value v => v end).
  assert (Hdata : data <> JNull) by (destruct p as [|[]]; done).
  assert (Hprop : forall k, exists v, prop data k = Ok v)
    by (intros k; destruct data; cbn; eauto; done).
  assert (Hrespond : forall s0, sent s0 = None ->
    exists s', respond 200 "ok" s0 = (s', Ok tt)
               /\ sent s' = Some (200, "ok")).
  { intros s0 H0. unfold respond, headersSent. rewrite H0. eauto. }
  unfold bind, lift, ret, notify.
  destruct (Hprop "session_id") as [a ->].
  destruct (Hprop "sessionId") as [b ->].
  destruct (Hprop "hook_event_name") as [eventType ->].
  assert (Hnotified : forall sessionId,
    exists s1,
      match sessionId with
      | Some sid =>
          if truthy sessionId then
            (if is_string eventType "SessionStart"
                || String.eqb u "/hook/session-start"
             then notify (SessionHook sid data) (onSessionHook o sid data)
             else ret tt) ;;;
            match onHookEvent o, eventType with
            | Some f, Some ty =>
                if truthy eventType
                then notify (HookEvent ty sid data) (f ty sid data)
                else ret tt
            | _, _ => ret tt
            end
          else ret tt
      | None => ret tt
      end s = (s1, Ok tt) /\ sent s1 = None).
  { intros [sid|]; [|by exists s].
    destruct (truthy (Some sid)); [|by exists s].
    unfold bind, notify, ret.
    destruct (is_string eventType "SessionStart"
              || String.eqb u "/hook/session-start");
      rewrite ?Hsession;
      (destruct (onHookEvent o) as [f|] eqn:Hf;
       [destruct eventType as [ty|];
        [destruct (truthy (Some ty)); rewrite ?(Hevent f eq_refl)|]|]);
      eauto. }
  destruct (truthy a); cbn beta iota;
    match goal with
    | |- context [match ?sessionId with Some _ => _ | None => _ end s] =>
        destruct (Hnotified sessionId) as (s1 & Hn & Hs1)
    end;
    unfold bind, notify, ret in Hn |- *; rewrite Hn; by apply Hrespond.
Qed.

Lemma ret_keeps {A : Type} (a : A) : keeps_timeout (ret a).
Proof. by intros s. Qed.

Lemma lift_keeps {A : Type} (r : js A) : keeps_timeout (lift r).
Proof. by intros s. Qed.

Lemma notify_keeps c b : keeps_timeout (notify c b).
Proof. by intros s. Qed.

Lemma respond_keeps status txt : keeps_timeout (respond status txt).
Proof. intros s Hs. unfold respond, headersSent. by rewrite Hs. Qed.

Lemma bind_keeps {A B : Type} (m : M A) (k : A -> M B) :
  keeps_timeout m -> (forall a, keeps_timeout (k a)) ->
  keeps_timeout (bind m k).
Proof.
  intros Hm Hk s Hs. unfold bind. specialize (Hm s Hs).
  destruct (m s) as [s1 [a|]]; [by apply Hk | done].
Qed.

Ltac keeps :=
  repeat first
    [ apply ret_keeps | apply lift_keeps | apply notify_keeps
    | apply respond_keeps
    | apply bind_keeps; [|intros ?]
    | match goal with
      | |- keeps_timeout (if ?b then _ else _) => destruct b
      | |- keeps_timeout (match ?x with _ => _ end) => destruct x
      end ].

Lemma process_keeps o u p : keeps_timeout (process o u p).
Proof. unfold process. keeps. Qed.

(** Once the timer has answered, nothing changes the answer. *)
Lemma late_answer o u p s :
  sent s = Some (408, "timeout") ->
  sent (match process o u p s with
        | (s1, Ok _) => s1
        | (s1, Throws) => on_error s1
        end) = Some (408, "timeout").
Proof.
  intros Hs. pose proof (process_keeps o u p s Hs) as Hkeep.
  destruct (process o u p s) as [s1 [[]|]]; cbn in Hkeep; [done|].
  unfold on_error, headersSent. by rewrite Hkeep.
Qed.

(** C9, as amended. A POST to [/hook] or to the legacy
    [/hook/session-start] whose body has been read before the timer
    fires is answered [200 ok] when the body is not the JSON value
    [null] and the observers return; a body that is not JSON at all is
    taken as the empty object, so it is answered [200 ok] with no
    observer called. Such a POST whose body has not been read when the
    timer fires is answered [408 timeout], whatever happens later. Every
    other request is answered [404 not found]. *)
Theorem hook_answers o req :
  (posted req ->
     (forall p, body req = ends false p ->
        p <> Value JNull -> observers_return o ->
        answer o req = Some (200, "ok"))
     /\ (body req = ends false SyntaxError ->
         answer o req = Some (200, "ok") /\ calls (handle o req) = [])
     /\ (body req = stalls \/ body req = breaks true
         \/ (exists p, body req = ends true p) ->
         answer o req = Some (408, "timeout")))
  /\ (~ posted req -> answer o req = Some (404, "not found")).
Proof.
  split.
  - intros Hposted. apply posted_test in Hposted.
    unfold answer, handle. rewrite Hposted.
    split; [|split].
    + intros p -> Hp Hobs.
      destruct (process_ok o (url req) p fresh Hobs Hp eq_refl)
        as (s' & -> & Hs'). exact Hs'.
    + by intros ->.
    + intros [-> | [-> | [p ->]]]; [done | done |].
      by apply late_answer.
  - intros Hnot. unfold answer, handle.
    destruct (String.eqb (method req) "POST"
              && (String.eqb (url req) "/hook"
                  || String.eqb (url req) "/hook/session-start")) eqn:Ht;
      [|done].
    by apply posted_test in Ht.
Qed.

Lemma hook_answers_witness :
  let o := {| onSessionHook := fun _ _ => true;
              onHookEvent := Some (fun _ _ _ => true) |} in
  let start := Value (JObj [("session_id", JStr "abc");
                            ("hook_event_name", JStr "SessionStart")]) in
  answer o {| method := "POST"; url := "/hook"; body := ends false start |}
    = Some (200, "ok")
  /\ answer o {| method := "POST"; url := "/hook"; body := ends true start |}
     = Some (408, "timeout")
  /\ answer o {| method := "GET"; url := "/hook"; body := ends false start |}
     = Some (404, "not found").
Proof.
  intros o start. split; [|split].
  - destruct (hook_answers o
      {| method := "POST"; url := "/hook"; body := ends false start |})
      as [H _].
    destruct H as (H & _); [split; [done | by left]|].
    apply (H start); [done | done |].
    split; [done | by intros f [= <-]].
  - destruct (hook_answers o
      {| method := "POST"; url := "/hook"; body := ends true start |})
      as [H _].
    destruct H as (_ & _ & H); [split; [done | by left]|].
    apply H. right. right. by exists start.
  - destruct (hook_answers o
      {| method := "GET"; url := "/hook"; body := ends false start |})
      as [_ H].
    apply H. by intros [? _].
Defined.

(** C9, as stated, fails: a POST to the legacy path is not a POST to
    [/hook], and it is answered [200 ok]. *)
Lemma legacy_path_is_served : ~ only_post_hook_is_served.
Proof.
  intros H.
  specialize (H {| onSessionHook := fun _ _ => true; onHookEvent := None |}
                {| method := "POST"; url := "/hook/session-start";
                   body := ends false SyntaxError |}).
  cbn in H. discriminate H. by intros [_ ?].
Qed.

(** What the legacy path does with a session-start body: it calls
    [onSessionHook] whatever the event name. *)
Example legacy_path_calls_session_hook :
  let data := JObj [("session_id", JStr "abc")] in
  handle {| onSessionHook := fun _ _ => true; onHookEvent := None |}
         {| method := "POST"; url := "/hook/session-start";
            body := ends false (Value data) |}
  = {| sent := Some (200, "ok");
       calls := [SessionHook (JStr "abc") data] |}.
Proof. reflexivity. Qed.

(** A body that is the JSON value [null] parses, and reading
    [data.session_id] then throws: the answer is [500 error]. *)
Example null_body_is_an_error o :
  answer o {| method := "POST"; url := "/hook";
              body := ends false (Value JNull) |}
  = Some (500, "error").
Proof. reflexivity. Qed.

(** An observer that throws turns the answer into [500 error]. *)
Example throwing_observer_is_an_error :
  answer {| onSessionHook := fun _ _ => false; onHookEvent := None |}
         {| method := "POST"; url := "/hook";
            body := ends false
              (Value (JObj [("session_id", JStr "abc");
                            ("hook_event_name", JStr "SessionStart")])) |}
  = Some (500, "error").
Proof. reflexivity. Qed.

End HookFacts.

(** * Further properties *)

(** ** The message queue: delivery and observer *)

Module QueueTraceFacts.

Import MessageQueue QueueTrace.

Implicit Types (q : t) (c : call) (cs : list call).

Lemma drop_settled_same (l : list (promise * option QueueMessage)) :
  omap snd (drop (length l) l) = [].
Proof. by rewrite drop_all. Qed.

Lemma drop_settled_one (l : list (promise * option QueueMessage)) e :
  omap snd (drop (length l) (l ++ [e])) = option_list e.2.
Proof. rewrite drop_app_length. cbn. by destruct e.2. Qed.

(** One call that is neither [reset] nor [close] hands out and keeps,
    together, the backlog and what it pushed. *)
Lemma handed_step q c :
  keeps c = true -> tidy q ->
  tidy (step q c)
  /\ handed q c ++ queue (step q c) = queue q ++ pushedBy [c].
Proof.
  intros Hk [Hc Hw]. destruct q as [qu w o cl ob se fr]. cbn in Hc, Hw.
  subst cl. unfold tidy, handed.
  assert (Hqu : w <> None -> qu = []) by exact Hw. clear Hw.
  destruct c as [msg imgs| | | |cb|]; try done;
    destruct w as [p|], o, qu as [|m rest];
    try (by specialize (Hqu ltac:(done)));
    cbn; rewrite ?drop_settled_same, ?drop_settled_one, ?app_nil_r; cbn;
    (split; [split; [done | try done] | try done]).
Qed.

(** X1. Along any calls other than [reset] and [close] on a fresh queue,
    the messages handed out (by [pop], by [waitForMessage] and to suspended
    waits), followed by the backlog that is left, are the pushed messages
    in push order: nothing is lost, duplicated or reordered. *)
Theorem pushed_messages_are_conserved cs q :
  Forall (fun c => keeps c = true) cs -> tidy q ->
  deliveries cs q ++ queue (run cs q) = queue q ++ pushedBy cs.
Proof.
  revert q. induction cs as [|c cs IH]; intros q Hcs Hq.
  - cbn. by rewrite app_nil_r.
  - apply Forall_cons in Hcs as [Hc Hcs].
    destruct (handed_step q c Hc Hq) as [Hq' Hstep].
    change (run (c :: cs) q) with (run cs (step q c)).
    change (deliveries (c :: cs) q)
      with (handed q c ++ deliveries cs (step q c)).
    replace (pushedBy (c :: cs)) with (pushedBy [c] ++ pushedBy cs)
      by (unfold pushedBy; by rewrite <- omap_app).
    rewrite <- app_assoc, (IH _ Hcs Hq'), !app_assoc. by rewrite Hstep.
Qed.

Lemma pushed_messages_are_conserved_witness :
  let cs := [Wait; Push "a" None; Push "b" None; Pop; Push "c" None] in
  deliveries cs empty = [mk ("a", None); mk ("b", None)]
  /\ deliveries cs empty ++ queue (run cs empty) = pushedBy cs.
Proof.
  intros cs. split; [reflexivity|].
  apply (pushed_messages_are_conserved cs empty).
  - repeat constructor.
  - split; [reflexivity | done].
Defined.

Lemma observed_step q c :
  observed (step q c)
  = observed q ++ notified (onMessageCallback q) (closed q) [c]
  /\ closed (step q c) = match c with Close => true | _ => closed q end
  /\ onMessageCallback (step q c)
     = match c with SetOnMessage cb => cb | _ => onMessageCallback q end.
Proof.
  destruct q as [qu w o cl ob se fr].
  destruct c as [msg imgs| | | |cb|], cl, o, w, qu;
    cbn; rewrite ?app_nil_r; done.
Qed.

(** X2. In every state and along every run of calls, the observer set by
    [setOnMessage] has been called with exactly the messages pushed while
    it was installed and the queue was not closed, in push order: waits,
    pops and resets make no difference to it. *)
Theorem observer_sees_every_push cs : forall q,
  observed (run cs q)
  = observed q ++ notified (onMessageCallback q) (closed q) cs.
Proof.
  induction cs as [|c cs IH]; intros q.
  - cbn. by rewrite app_nil_r.
  - change (run (c :: cs) q) with (run cs (step q c)).
    destruct (observed_step q c) as (Ho & Hc & Hcb).
    rewrite IH, Ho, Hc, Hcb, <- app_assoc. f_equal.
    destruct c; cbn; rewrite ?app_nil_r; done.
Qed.

End QueueTraceFacts.

(** ** The transcript scanner: order, startup, idle, appended lines *)

Module ScannerMoreFacts.

Import SessionScanner.

Implicit Types (s : SessionScanner.t) (m : RawJSONLines).
Implicit Types (messages : list RawJSONLines) (seen : gset string).

Lemma unseen_sublist messages : forall seen,
  unseen seen messages `sublist_of` messages.
Proof.
  induction messages as [|m rest IH]; intros seen; cbn; [done|].
  case_bool_decide; [by apply sublist_cons | by apply sublist_skip].
Qed.

Lemma entries_sublist (lines : list line) :
  entry <$> flat_map (fun l => match l with entry m => [m] | _ => [] end) lines
  `sublist_of` lines.
Proof.
  induction lines as [|l rest IH]; cbn; [done|].
  destruct l; cbn; first [by apply sublist_cons | by apply sublist_skip].
Qed.

Lemma sync_forwarded fs s :
  forwarded (sync fs s)
  = forwarded s ++ unseen (processedMessageKeys s) (reads fs s).
Proof.
  unfold sync, reads. destruct (truthy (currentSessionId s)) as [sid|].
  - generalize (readSessionLog fs sid). intros messages.
    assert (H : forall saw s0,
      forwarded (forward messages saw s0).1
      = forwarded s0 ++ unseen (processedMessageKeys s0) messages).
    { induction messages as [|m rest IH]; intros saw s0; cbn.
      - by rewrite app_nil_r.
      - case_bool_decide; [apply IH|].
        rewrite IH. cbn. by rewrite <- app_assoc. }
    specialize (H false s).
    destruct (forward messages false s) as [s1 saw]. cbn in H.
    by destruct (saw && onIdle s1).
  - cbn. by rewrite app_nil_r.
Qed.

(** X3. A sync pass forwards entries in file order: what it hands to
    [onMessage] is a subsequence of the lines of the current session file,
    so blank, malformed, internal and rejected lines are skipped without
    disturbing the order; with the file missing or the session id empty it
    forwards nothing. *)
Theorem forwarding_follows_file_order fs s :
  exists new,
    forwarded (sync fs s) = forwarded s ++ new
    /\ match truthy (currentSessionId s) with
       | Some sid =>
           match fs sid with
           | Some lines => (entry <$> new) `sublist_of` lines
           | None => new = []
           end
       | None => new = []
       end.
Proof.
  exists (unseen (processedMessageKeys s) (reads fs s)).
  split; [apply sync_forwarded|].
  unfold reads, readSessionLog.
  destruct (truthy (currentSessionId s)) as [sid|]; [|done].
  destruct (fs sid) as [lines|]; [|done].
  etrans; [|apply entries_sublist].
  apply fmap_sublist, unseen_sublist.
Qed.

Lemma processed_grows s e k :
  k ∈ processedMessageKeys s -> k ∈ processedMessageKeys (step s e).
Proof.
  intros Hk. destruct e as [fs|sid]; cbn.
  - unfold sync. destruct (truthy (currentSessionId s)) as [id|]; [|done].
    generalize (readSessionLog fs id). intros messages.
    assert (H : forall saw s0,
      k ∈ processedMessageKeys s0 ->
      k ∈ processedMessageKeys (forward messages saw s0).1).
    { induction messages as [|m rest IH]; intros saw s0 H0; cbn; [done|].
      case_bool_decide; apply IH; [done|]. cbn. set_solver. }
    specialize (H false s Hk).
    destruct (forward messages false s) as [s1 saw]. cbn in H.
    by destruct (saw && onIdle s1).
  - unfold onNewSession. by case_bool_decide.
Qed.

Lemma processed_not_forwarded_step s e k :
  k ∈ processedMessageKeys s -> k ∉ forwardedKeys s ->
  k ∉ forwardedKeys (step s e).
Proof.
  intros Hk Hnot. destruct e as [fs|sid]; cbn.
  - unfold forwardedKeys in *. rewrite sync_forwarded, fmap_app.
    intros [Hin|Hin]%elem_of_app; [done|].
    revert Hin. generalize (reads fs s). intros messages.
    assert (H : forall seen, k ∈ seen ->
                k ∉ messageKey <$> unseen seen messages).
    { induction messages as [|m rest IH]; intros seen Hseen; cbn.
      - inversion 1.
      - case_bool_decide as Hm; [by apply IH|]. cbn.
        intros [->|Hin]%elem_of_cons; [done|].
        revert Hin. apply IH. set_solver. }
    by apply H.
  - unfold onNewSession. by case_bool_decide.
Qed.

Lemma processed_not_forwarded_run es : forall s k,
  k ∈ processedMessageKeys s -> k ∉ forwardedKeys s ->
  k ∉ forwardedKeys (run es s).
Proof.
  induction es as [|e es IH]; intros s k Hk Hnot; [done|].
  apply (IH (step s e)).
  - by apply processed_grows.
  - by apply processed_not_forwarded_step.
Qed.

(** X4. The entries that are in the session file when the scanner is
    created for that session are marked as processed and never forwarded,
    through any later sync passes and retargets, also when the same
    identifier turns up in another session's file. *)
Theorem startup_entries_are_never_forwarded sid idleObserver fs0 es m :
  sid <> "" ->
  m ∈ readSessionLog fs0 sid ->
  messageKey m
  ∉ forwardedKeys (run es (createSessionScanner (Some sid) idleObserver fs0)).
Proof.
  intros Hsid Hm. apply String.eqb_neq in Hsid.
  apply processed_not_forwarded_run.
  - unfold createSessionScanner. cbn. rewrite Hsid. cbn.
    apply elem_of_list_to_set, list_elem_of_fmap. eauto.
  - unfold createSessionScanner, forwardedKeys. cbn. rewrite Hsid. cbn.
    inversion 1.
Qed.

Lemma startup_entries_are_never_forwarded_witness :
  let fs := fun sid : string =>
    if String.eqb sid "s1"
    then Some [entry (user "u1" ""); entry (assistant "a1" "")]
    else Some [entry (user "u1" "again"); entry (user "u2" "")] in
  "u1" ∉ forwardedKeys
          (run [SyncPass fs; NewSession "s2"; SyncPass fs]
               (createSessionScanner (Some "s1") false fs)).
Proof.
  intros fs.
  apply (startup_entries_are_never_forwarded "s1" false fs
           [SyncPass fs; NewSession "s2"; SyncPass fs] (user "u1" "")).
  - discriminate.
  - cbn. left.
Defined.

Lemma forward_saw messages : forall saw s,
  (forward messages saw s).2
  = saw || existsb is_assistant (unseen (processedMessageKeys s) messages).
Proof.
  induction messages as [|m rest IH]; intros saw s; cbn.
  - by rewrite orb_false_r.
  - case_bool_decide; [apply IH|].
    rewrite IH. cbn. by rewrite orb_assoc.
Qed.

Lemma forward_onIdle messages : forall saw s,
  onIdle (forward messages saw s).1 = onIdle s
  /\ idle (forward messages saw s).1 = idle s.
Proof.
  induction messages as [|m rest IH]; intros saw s; cbn; [done|].
  case_bool_decide; [apply IH|].
  by destruct (IH (saw || is_assistant m)
                  (onMessage m (add_key (messageKey m) s))).
Qed.

(** X5. A sync pass calls [onIdle] once when an idle observer is given and
    at least one of the entries the pass forwards is an assistant entry,
    and not at all otherwise: a pass that only re-reads known entries, or
    forwards only user, system and summary entries, never signals idle. *)
Theorem idle_follows_forwarded_assistant fs s :
  idle (sync fs s)
  = idle s
    + (if onIdle s
          && existsb is_assistant
               (unseen (processedMessageKeys s) (reads fs s))
       then 1 else 0).
Proof.
  unfold sync, reads. destruct (truthy (currentSessionId s)) as [sid|].
  - pose proof (forward_saw (readSessionLog fs sid) false s) as Hsaw.
    destruct (forward_onIdle (readSessionLog fs sid) false s) as [Ho Hi].
    destruct (forward (readSessionLog fs sid) false s) as [s1 saw].
    cbn in Hsaw, Ho, Hi. subst saw. rewrite Ho, andb_comm.
    destruct (onIdle s && _); cbn; lia.
  - rewrite andb_false_r. lia.
Qed.

Lemma unseen_app a b : forall seen,
  unseen seen (a ++ b)
  = unseen seen a ++ unseen (seen ∪ list_to_set (messageKey <$> a)) b.
Proof.
  induction a as [|m rest IH]; intros seen; cbn.
  - f_equal. set_solver.
  - case_bool_decide as Hm.
    + rewrite IH. do 2 f_equal. set_solver.
    + cbn. rewrite IH. do 3 f_equal. set_solver.
Qed.

Lemma sync_processed fs s :
  processedMessageKeys (sync fs s)
  = processedMessageKeys s ∪ list_to_set (messageKey <$> reads fs s)
  /\ currentSessionId (sync fs s) = currentSessionId s.
Proof.
  unfold sync, reads. destruct (truthy (currentSessionId s)) as [sid|].
  - generalize (readSessionLog fs sid). intros messages.
    assert (H : forall saw s0,
      processedMessageKeys (forward messages saw s0).1
      = processedMessageKeys s0 ∪ list_to_set (messageKey <$> messages)
      /\ currentSessionId (forward messages saw s0).1 = currentSessionId s0).
    { induction messages as [|m rest IH]; intros saw s0; cbn.
      - split; [set_solver | done].
      - case_bool_decide.
        + destruct (IH saw s0) as [-> ->]. split; [set_solver | done].
        + destruct (IH (saw || is_assistant m)
                       (onMessage m (add_key (messageKey m) s0)))
            as [-> ->]. cbn. split; [set_solver | done]. }
    destruct (H false s) as [Hp Hc].
    destruct (forward messages false s) as [s1 saw]. cbn in Hp, Hc.
    by destruct (saw && onIdle s1).
  - cbn. split; [set_solver | done].
Qed.

(** X6. When lines are appended to the current session file after a pass,
    the next pass forwards entries of the appended lines only: the entries
    among them whose identifier has not been processed, in file order. *)
Theorem appended_lines_are_forwarded_alone fs fs' s sid lines more :
  truthy (currentSessionId s) = Some sid ->
  fs sid = Some lines ->
  fs' sid = Some (lines ++ more) ->
  forwarded (sync fs' (sync fs s))
  = forwarded (sync fs s)
    ++ unseen (processedMessageKeys (sync fs s))
         (readSessionLog (fun _ => Some more) sid).
Proof.
  intros Hsid Hfs Hfs'.
  destruct (sync_processed fs s) as [Hp Hc].
  rewrite (sync_forwarded fs' (sync fs s)). f_equal.
  unfold reads in *. rewrite Hc, Hsid in *.
  unfold readSessionLog in *. rewrite Hfs in Hp. rewrite Hfs'.
  rewrite flat_map_app, unseen_app.
  rewrite ScannerFacts.unseen_all_seen; [cbn | ].
  - f_equal. rewrite Hp. set_solver.
  - intros m Hm. rewrite Hp.
    apply elem_of_union_r, elem_of_list_to_set, list_elem_of_fmap. eauto.
Qed.

Lemma appended_lines_are_forwarded_alone_witness :
  let before := fun _ : string => Some [entry (user "u1" "")] in
  let after := fun _ : string =>
    Some ([entry (user "u1" "")]
          ++ [blank; entry (assistant "a1" ""); entry (user "u1" "")]) in
  let s := createSessionScanner None false before in
  forwarded (sync after (sync before (onNewSession "s1" s)))
  = [user "u1" ""; assistant "a1" ""].
Proof.
  intros before after s.
  rewrite (appended_lines_are_forwarded_alone before after
             (onNewSession "s1" s) "s1" [entry (user "u1" "")]
             [blank; entry (assistant "a1" ""); entry (user "u1" "")]);
    reflexivity.
Defined.

End ScannerMoreFacts.

(** ** The WebSocket client: ping interval, settlement, relayed frames *)

Module WSMoreFacts.

Import WSClient WSTimers.

Implicit Types (s : WSClient.t) (e : event) (es : list event).

Lemma running_snoc (l : list effect) (x : effect) :
  running (l ++ [x]) = replay (running l) x.
Proof. unfold running. by rewrite fold_left_app. Qed.

(** The link between the variable [pingInterval] and the intervals that
    run: an interval runs only while the variable refers to it. *)
Definition ping_ok s : Prop :=
  running (effects s) = (0%nat, false)
  \/ (running (effects s) = (1%nat, true) /\ pingInterval s = true).

Lemma ping_ok_step s e : ping_ok s -> ping_ok (step s e).
Proof.
  unfold ping_ok. destruct s as [mh ch pi n ic cr tm eff].
  cbn [effects pingInterval]. intros Hr.
  assert (Hpi : pi = true \/ running eff = (0%nat, false))
    by (destruct Hr as [?|[_ ?]]; auto).
  destruct e as [|[|ty]| | | |h|h|];
    unfold step, on_open, on_message, on_close, on_error, timer_fires,
      connect, close, onMessage, onClose, setTimeoutConnect, emit,
      set_pingInterval, set_reconnectAttempts, set_timers;
    cbn -[running Z.mul Z.min Z.add Z.ltb String.eqb];
    repeat match goal with
           | |- context [if ?b then _ else _] => destruct b
           | |- context [match ?t with O => _ | S _ => _ end] => destruct t
           end;
    cbn -[running Z.mul Z.min Z.add Z.ltb String.eqb];
    rewrite ?running_snoc;
    destruct Hr as [->|[-> ?]]; cbn; auto;
    destruct Hpi as [?|?]; congruence.
Qed.

(** X7. At most one ping interval runs at any time, through any sequence
    of socket events, reconnect timers and calls of the caller: a
    reconnect replaces the interval instead of adding one, and when the
    variable [pingInterval] is empty none runs. *)
Theorem at_most_one_ping_interval es :
  ((running (effects (run es createWSClient))).1 <= 1)%nat
  /\ (pingInterval (run es createWSClient) = false ->
      (running (effects (run es createWSClient))).1 = 0%nat).
Proof.
  assert (H : forall s, ping_ok s -> ping_ok (run es s)).
  { induction es as [|e es IH]; intros s Hs; [done|].
    apply (IH (step s e)). by apply ping_ok_step. }
  destruct (H createWSClient) as [->|[-> Hp]]; [by left | |]; cbn.
  - split; [lia | done].
  - split; [lia | congruence].
Qed.

Definition settled_ok s : Prop :=
  exists k,
    settlements s
    = repeat RejectClient k
      ++ (if clientResolved s then [ResolveClient] else []).

Lemma settled_ok_step s e : settled_ok s -> settled_ok (step s e).
Proof.
  unfold settled_ok, settlements.
  destruct s as [mh ch pi n ic cr tm eff]. cbn. intros [k Hk].
  destruct e as [|[|ty]| | | |h|h|]; cbn;
    unfold on_open, on_message, on_close, on_error, timer_fires, connect,
      close, setTimeoutConnect, emit, set_pingInterval,
      set_reconnectAttempts, set_timers;
    cbn -[Z.mul Z.min Z.add Z.ltb String.eqb];
    repeat match goal with
           | |- context [if ?b then _ else _] => destruct b eqn:?
           | |- context [match ?t with O => _ | S _ => _ end] =>
               destruct t eqn:?
           end;
    cbn -[Z.mul Z.min Z.add Z.ltb String.eqb] in *; subst;
    try discriminate;
    rewrite ?List.filter_app; cbn; rewrite ?app_nil_r;
    try (exists k; by rewrite Hk);
    try (exists k; rewrite Hk, app_nil_r; done).
  exists (S k). rewrite Hk, app_nil_r.
  change [RejectClient] with (repeat RejectClient 1).
  rewrite <- repeat_app, app_nil_r. f_equal. lia.
Qed.

(** X8. The promise of [createWSClient] is resolved at most once, on the
    first open, and never rejected after it was resolved: the settlement
    calls are some rejections (one per socket error before the first open)
    followed by at most one resolution. *)
Theorem client_promise_settles_once es :
  exists k,
    settlements (run es createWSClient)
    = repeat RejectClient k
      ++ (if clientResolved (run es createWSClient)
          then [ResolveClient] else []).
Proof.
  assert (H : forall s, settled_ok s -> settled_ok (run es s)).
  { induction es as [|e es IH]; intros s Hs; [done|].
    apply (IH (step s e)). by apply settled_ok_step. }
  apply H. by exists 0%nat.
Qed.

Lemma relay_step s e :
  delivered (step s e) = delivered s ++ relayed (messageHandler s) [e]
  /\ messageHandler (step s e)
     = match e with CallOnMessage h => h | _ => messageHandler s end.
Proof.
  destruct s as [mh ch pi n ic cr tm eff].
  destruct e as [|[|ty]| | | |h|h|]; unfold delivered; cbn;
    unfold on_open, on_message, on_close, on_error, timer_fires, connect,
      close, setTimeoutConnect, emit, set_pingInterval,
      set_reconnectAttempts, set_timers, forwardable;
    cbn -[Z.mul Z.min Z.add Z.ltb String.eqb];
    repeat match goal with
           | |- context [if ?b then _ else _] => destruct b eqn:?
           | |- context [match ?t with O => _ | S _ => _ end] =>
               destruct t eqn:?
           | H : String.eqb _ _ = true |- _ =>
               apply String.eqb_eq in H; subst
           end;
    cbn -[Z.mul Z.min Z.add Z.ltb String.eqb] in *;
    rewrite ?omap_app, ?app_nil_r; cbn; rewrite ?app_nil_r;
    try done; try (split; congruence).
  destruct mh; cbn in *; discriminate.
Qed.

(** X9. The message observer receives exactly the frames that parse, carry
    the type [user_input], [permission_response] or [switch] and arrive
    while an observer is registered, once each and in arrival order; pong
    frames, frames of other types and unparsable frames never reach it,
    and neither reconnects nor [client.close()] stop the forwarding. *)
Theorem observer_gets_forwardable_frames es : forall s,
  delivered (run es s) = delivered s ++ relayed (messageHandler s) es.
Proof.
  induction es as [|e es IH]; intros s.
  - cbn. by rewrite app_nil_r.
  - change (run (e :: es) s) with (run es (step s e)).
    destruct (relay_step s e) as [Hd Hm].
    rewrite IH, Hd, Hm, <- app_assoc. f_equal.
    destruct e as [|[|ty]| | | |h|h|]; cbn; rewrite ?app_nil_r; done.
Qed.

End WSMoreFacts.

(** ** One-time flags *)

Module SessionOpsFacts.

Import Session RemoteLauncher SessionOps.

Implicit Types (s : Session.t) (args pre post : list string).

Lemma list_pair_ind (P : list string -> Prop) :
  P [] -> (forall a, P [a]) ->
  (forall a b l, P l -> P (b :: l) -> P (a :: b :: l)) ->
  forall l, P l.
Proof.
  intros H0 H1 H2 l.
  assert (H : P l /\ forall a, P (a :: l)); [|by destruct H].
  induction l as [|b l [IH1 IH2]]; [by split|].
  split; [apply IH2|]. intros a. apply H2; [done | apply IH2].
Qed.

Lemma filterFlags_cons2 a b l :
  filterFlags (a :: b :: l)
  = if String.eqb a "--continue" then filterFlags (b :: l)
    else if String.eqb a "--resume" && negb (startsWithDash b)
    then filterFlags l
    else a :: filterFlags (b :: l).
Proof.
  cbn [filterFlags].
  destruct (String.eqb a "--continue"), (String.eqb a "--resume"),
    (startsWithDash b); reflexivity.
Qed.

Lemma filterFlags_one a :
  filterFlags [a] = if String.eqb a "--continue" then [] else [a].
Proof.
  cbn. by destruct (String.eqb a "--continue"), (String.eqb a "--resume").
Qed.

Lemma filterFlags_spec args :
  ("--continue" ∉ filterFlags args)
  /\ (filterFlags args `sublist_of` args)
  /\ ("--continue" ∉ args -> "--resume" ∉ args -> filterFlags args = args).
Proof.
  induction args as [|a|a b l IH1 IH2] using list_pair_ind.
  - cbn. repeat split; [inversion 1 | done].
  - rewrite filterFlags_one.
    destruct (String.eqb_spec a "--continue") as [->|Hne].
    + repeat split; [inversion 1 | by apply sublist_cons | set_solver].
    + repeat split; [set_solver | done].
  - rewrite filterFlags_cons2.
    destruct IH1 as (N1 & S1 & I1), IH2 as (N2 & S2 & I2).
    destruct (String.eqb_spec a "--continue") as [->|Hne].
    { repeat split; [done | by apply sublist_cons | set_solver]. }
    destruct (String.eqb_spec a "--resume") as [->|Hnr]; cbn [andb].
    + destruct (startsWithDash b); cbn [negb].
      * repeat split; [set_solver | by apply sublist_skip | set_solver].
      * repeat split;
          [done | by do 2 apply sublist_cons | set_solver].
    + repeat split; [set_solver | by apply sublist_skip | ].
      intros Hc Hr. f_equal. apply I2; set_solver.
Qed.

(** X10. After [consumeOneTimeFlags] the arguments hold no [--continue];
    what is left is a subsequence of the arguments, in their order; and
    arguments with neither [--continue] nor [--resume] are left as they
    are. *)
Theorem one_time_flags_are_dropped args :
  ("--continue" ∉ filterFlags args)
  /\ (filterFlags args `sublist_of` args)
  /\ ("--continue" ∉ args -> "--resume" ∉ args -> filterFlags args = args).
Proof. apply filterFlags_spec. Qed.

Lemma one_time_flags_are_dropped_witness :
  ("--continue" ∉ ["-p"; "hello"])
  /\ ("--resume" ∉ ["-p"; "hello"])
  /\ filterFlags ["-p"; "hello"] = ["-p"; "hello"].
Proof.
  assert (H1 : "--continue" ∉ ["-p"; "hello"]).
  { rewrite !not_elem_of_cons. repeat split; try discriminate.
    apply not_elem_of_nil. }
  assert (H2 : "--resume" ∉ ["-p"; "hello"]).
  { rewrite !not_elem_of_cons. repeat split; try discriminate.
    apply not_elem_of_nil. }
  split; [exact H1|]. split; [exact H2|].
  exact (proj2 (proj2 (one_time_flags_are_dropped ["-p"; "hello"])) H1 H2).
Defined.

Lemma filterFlags_app pre post :
  match post with
  | [] => True
  | x :: _ => startsWithDash x = true
  end ->
  filterFlags (pre ++ post) = filterFlags pre ++ filterFlags post.
Proof.
  intros Hpost.
  induction pre as [|a|a b l IH1 IH2] using list_pair_ind.
  - done.
  - rewrite filterFlags_one. destruct post as [|x post].
    + rewrite !app_nil_r. apply filterFlags_one.
    + change ([a] ++ x :: post) with (a :: x :: post).
      rewrite filterFlags_cons2, Hpost. cbn [negb]. rewrite andb_false_r.
      by destruct (String.eqb a "--continue").
  - change ((a :: b :: l) ++ post) with (a :: b :: (l ++ post)).
    rewrite !filterFlags_cons2.
    change (b :: (l ++ post)) with ((b :: l) ++ post).
    rewrite IH1, IH2.
    by destruct (String.eqb a "--continue"),
         (String.eqb a "--resume" && negb (startsWithDash b)).
Qed.

(** X11. A [--resume] followed by a value that does not start with a dash
    is removed together with the value wherever the pair stands; the
    arguments before and after the pair are filtered as they would be on
    their own. *)
Theorem resume_pair_is_dropped pre v post :
  startsWithDash v = false ->
  filterFlags (pre ++ "--resume" :: v :: post)
  = filterFlags pre ++ filterFlags post.
Proof.
  intros Hv. rewrite filterFlags_app by reflexivity.
  f_equal. rewrite filterFlags_cons2, Hv. reflexivity.
Qed.

Lemma resume_pair_is_dropped_witness :
  filterFlags (["--verbose"] ++ "--resume" :: "abc" :: ["--model"; "opus"])
  = ["--verbose"; "--model"; "opus"].
Proof.
  rewrite (resume_pair_is_dropped ["--verbose"] "abc" ["--model"; "opus"]);
    reflexivity.
Defined.

End SessionOpsFacts.

(** ** Tool calls and permission promises *)

Module ToolCallFacts.

Import Session RemoteLauncher SessionOps.

Implicit Types (s : Session.t) (o : op) (os : list op).

Ltac session_eval E :=
  unfold step, canCallTool, resumed, waitForPermission, onPermissionRequest,
    waitForPermissionResponse, consumePendingPermissionResponse,
    clearPendingPermissionResponse, handleMessage, markToolAlwaysAllowed,
    isToolAlwaysAllowed, sendClaudeEvent, markActivity, set_queue,
    set_pending, set_resolver, set_tools, emit, hasPendingPermissionResponse
    in E;
  cbn -[MessageQueue.step MessageQueue.reset MessageQueue.push Z.ltb Z.eqb
        Z.sub String.eqb] in E;
  repeat (match type of E with
          | context [if ?b then _ else _] => destruct b eqn:?
          | context [match ?x with Some _ => _ | None => _ end] =>
              destruct x eqn:?
          | context [match ?x with yes => _ | no => _ | always => _ end] =>
              destruct x eqn:?
          end;
          cbn -[MessageQueue.step MessageQueue.reset MessageQueue.push Z.ltb
                Z.eqb Z.sub String.eqb] in E).

(** One call does one of three things to the permission promises: nothing;
    it resolves the stored one and forgets it; or it stores a new one. *)
Lemma resolver_step s o :
  (resolvedPermissions (step s o) = resolvedPermissions s
   /\ permissionResolver (step s o) = permissionResolver s
   /\ nextResolver (step s o) = nextResolver s)
  \/ (exists p, permissionResolver s = Some p
      /\ resolvedPermissions (step s o) = resolvedPermissions s ++ [p]
      /\ permissionResolver (step s o) = None
      /\ nextResolver (step s o) = nextResolver s)
  \/ (resolvedPermissions (step s o) = resolvedPermissions s
      /\ permissionResolver (step s o) = Some (nextResolver s)
      /\ nextResolver (step s o) = S (nextResolver s)).
Proof.
  destruct s as [q ws uh sh pr pp ts tools tr nx].
  remember (step _ o) as s' eqn:E.
  destruct o as [now [prompt imgs|r|]|now tn ti|tn r| |now age|now age|tn|c];
    session_eval E; subst s'; unfold resolvedPermissions; cbn;
    rewrite ?omap_app; cbn; rewrite ?app_nil_r; eauto 10.
Qed.

Definition res_ok s : Prop :=
  NoDup (resolvedPermissions s)
  /\ (forall p, p ∈ resolvedPermissions s -> p < nextResolver s)
  /\ (forall p, permissionResolver s = Some p ->
        p < nextResolver s /\ (p ∉ resolvedPermissions s)).

Lemma res_ok_step s o : res_ok s -> res_ok (step s o).
Proof.
  unfold res_ok. intros (Hnd & Hlt & Hst).
  destruct (resolver_step s o)
    as [(-> & -> & ->)|[(p & Hp & -> & -> & ->)|(-> & -> & ->)]].
  - done.
  - destruct (Hst p Hp) as [Hlp Hnp]. split; [|split].
    + apply NoDup_app. split; [done|]. split; [|apply NoDup_singleton].
      intros x Hx ->%list_elem_of_singleton. done.
    + intros x [Hx| ->%list_elem_of_singleton]%elem_of_app; auto.
    + intros x [=].
  - split; [done|]. split.
    + intros p Hp. specialize (Hlt p Hp). lia.
    + intros p [= <-]. split; [lia|].
      intros Hin. specialize (Hlt _ Hin). lia.
Qed.

Lemma res_ok_run os : forall s, res_ok s -> res_ok (run os s).
Proof.
  induction os as [|o os IH]; intros s Hs; [done|].
  apply (IH (step s o)). by apply res_ok_step.
Qed.

Lemma res_ok_create : res_ok create.
Proof.
  repeat split; cbn; [apply NoDup_nil_2 | inversion 1 | done | done].
Qed.

(** X12. No promise of [waitForPermissionResponse] is resolved twice,
    through any sequence of web messages, tool calls and other calls on
    the session: each [permission_response] resolves the stored resolver
    at most once and then forgets it. *)
Theorem permission_promise_resolves_at_most_once os :
  NoDup (resolvedPermissions (run os create)).
Proof. apply (res_ok_run os create res_ok_create). Qed.

Definition overwritten (p : nat) s : Prop :=
  p < nextResolver s /\ (p ∉ resolvedPermissions s)
  /\ permissionResolver s <> Some p.

Lemma overwritten_step p s o : overwritten p s -> overwritten p (step s o).
Proof.
  unfold overwritten. intros (Hlt & Hnot & Hne).
  destruct (resolver_step s o)
    as [(-> & -> & ->)|[(q & Hq & -> & -> & ->)|(-> & -> & ->)]].
  - done.
  - split; [done|]. split; [|done].
    intros [?| ->%list_elem_of_singleton]%elem_of_app; [done|].
    congruence.
  - split; [lia|]. split; [done|]. intros [= Heq]. lia.
Qed.

(** X13. A second [waitForPermissionResponse] made while the promise of an
    earlier one is pending takes over the single resolver slot: the
    earlier promise is never resolved afterwards, whatever messages and
    calls follow. *)
Theorem overwritten_permission_wait_is_never_resolved os0 os p :
  permissionResolver (run os0 create) = Some p ->
  p ∉ resolvedPermissions
        (run (WaitForPermissionResponse :: os) (run os0 create)).
Proof.
  intros Hp.
  destruct (res_ok_run os0 create res_ok_create) as (_ & _ & Hst).
  destruct (Hst p Hp) as [Hlt Hnot].
  assert (H : forall os s, overwritten p s -> overwritten p (run os s)).
  { clear. induction os as [|o os IH]; intros s Hs; [done|].
    apply (IH (step s o)). by apply overwritten_step. }
  apply (H os). split; [cbn; lia|]. split; [done|].
  cbn. intros [= Heq]. lia.
Qed.

Lemma overwritten_permission_wait_is_never_resolved_witness :
  0 ∉ resolvedPermissions
        (run [WaitForPermissionResponse;
              Incoming 0 (permission_response yes);
              Incoming 1 (permission_response no)]
           (run [WaitForPermissionResponse] create)).
Proof.
  apply (overwritten_permission_wait_is_never_resolved
           [WaitForPermissionResponse]
           [Incoming 0 (permission_response yes);
            Incoming 1 (permission_response no)] 0).
  reflexivity.
Defined.

(** X14. A tool call on a tool that is always allowed is answered
    [always] at once, with nothing sent and the session untouched. Any
    other tool call discards a parked response and waits for a new one
    from the web: it is never answered from a parked response; it sends
    one permission request when the session is connected, and a call for
    [AskUserQuestion] also resets the queue. *)
Theorem tool_call_waits_for_a_fresh_response now toolName toolInput s :
  if isToolAlwaysAllowed toolName s
  then canCallTool now toolName toolInput s = (s, Answered always)
  else
    (canCallTool now toolName toolInput s).2 = Awaiting (nextResolver s)
    /\ permissionResolver (canCallTool now toolName toolInput s).1
       = Some (nextResolver s)
    /\ pendingPermissionResponse (canCallTool now toolName toolInput s).1
       = None
    /\ requests (canCallTool now toolName toolInput s).1
       = requests s
         ++ (if wsClient s
             then [{| ev_type := "PermissionRequest";
                      ev_tool_name := Some toolName;
                      ev_tool_input := Some toolInput |}]
             else [])
    /\ queue (canCallTool now toolName toolInput s).1
       = (if String.eqb toolName "AskUserQuestion"
          then MessageQueue.reset (queue s) else queue s).
Proof.
  destruct s as [q ws uh sh pr pp ts tools tr nx].
  remember (canCallTool now toolName toolInput _) as r eqn:E.
  unfold isToolAlwaysAllowed. cbn [alwaysAllowedTools].
  destruct ws, pp as [[r0 t0]|];
    unfold canCallTool, onPermissionRequest, waitForPermission,
      isToolAlwaysAllowed, clearPendingPermissionResponse,
      consumePendingPermissionResponse, waitForPermissionResponse,
      sendClaudeEvent, set_queue, set_pending, emit in E;
    cbn -[MessageQueue.reset String.eqb] in E;
    destruct (String.eqb toolName "AskUserQuestion") eqn:Hq;
    cbn -[MessageQueue.reset String.eqb] in E;
    rewrite ?Hq in E; cbn -[MessageQueue.reset String.eqb] in E;
    try destruct (bool_decide (toolName ∈ tools)) eqn:Hd;
    cbn -[MessageQueue.reset String.eqb] in E;
    rewrite ?Hq, ?Hd in E; cbn -[MessageQueue.reset String.eqb] in E;
    subst r; unfold requests; cbn;
    rewrite ?omap_app; cbn; rewrite ?app_nil_r; done.
Qed.

Lemma tools_step s o :
  alwaysAllowedTools s ⊆ alwaysAllowedTools (step s o).
Proof.
  destruct s as [q ws uh sh pr pp ts tools tr nx].
  remember (step _ o) as s' eqn:E.
  destruct o as [now [prompt imgs|r|]|now tn ti|tn r| |now age|now age|tn|c];
    session_eval E; subst s'; cbn; set_solver.
Qed.

Lemma tools_run os : forall s,
  alwaysAllowedTools s ⊆ alwaysAllowedTools (run os s).
Proof.
  induction os as [|o os IH]; intros s; [done|].
  etrans; [apply (tools_step s o) | apply IH].
Qed.

(** X15. Once a tool call for a tool other than [AskUserQuestion] was
    answered [always], every later call for that tool is answered
    [always] at once without asking the web, whatever happened on the
    session in between. *)
Theorem always_allow_is_remembered toolName s os now toolInput :
  toolName <> "AskUserQuestion" ->
  canCallTool now toolName toolInput (run os (resumed toolName always s).1)
  = (run os (resumed toolName always s).1, Answered always).
Proof.
  intros Hne.
  pose proof (tools_run os (resumed toolName always s).1) as Hsub.
  assert (Hin : toolName ∈ alwaysAllowedTools (resumed toolName always s).1).
  { unfold resumed, markToolAlwaysAllowed. cbn.
    apply String.eqb_neq in Hne. rewrite Hne. cbn. set_solver. }
  generalize dependent (run os (resumed toolName always s).1).
  intros s' Hsub.
  unfold canCallTool, onPermissionRequest, waitForPermission,
    isToolAlwaysAllowed.
  apply String.eqb_neq in Hne. rewrite Hne.
  assert (Hd : bool_decide (toolName ∈ alwaysAllowedTools s') = true)
    by (apply bool_decide_eq_true_2; set_solver).
  by rewrite !Hd.
Qed.

Lemma always_allow_is_remembered_witness :
  (canCallTool 9 "Bash" "ls"
     (run [Incoming 5 (permission_response no); CanCallTool 6 "Edit" "x"]
        (resumed "Bash" always create).1)).2
  = Answered always.
Proof.
  rewrite (always_allow_is_remembered "Bash" create
             [Incoming 5 (permission_response no); CanCallTool 6 "Edit" "x"]
             9 "ls"); [reflexivity | discriminate].
Defined.

End ToolCallFacts.

(** ** Leaving remote mode *)

Module RemoteExitFacts.

Import Session RemoteExit.

Implicit Types (l : RemoteExit.t) (e : event) (es : list event).

Lemma leave_step l e :
  switchHandler (session l) = true ->
  exitReason (step l e)
  = match exitReason l with
    | Some r => Some r
    | None => reason_of e
    end
  /\ aborted (step l e)
     = aborted l || match reason_of e with Some _ => true | None => false end
  /\ switchHandler (session (step l e)) = true.
Proof.
  destruct l as [r a [q ws uh sh pr pp ts tools tr nx]]. cbn. intros ->.
  destruct e as [k|now [prompt imgs|resp|]]; cbn.
  - unfold keypressHandler, leave. cbn.
    destruct (name_is k "return" || name_is k "escape"
              || String.eqb (str k) "q"), (ctrl k && name_is k "c"), r, a;
      done.
  - rewrite orb_false_r. unfold markActivity, emit, set_queue. cbn.
    by destruct r, ws, uh.
  - rewrite orb_false_r. unfold emit, set_resolver, set_pending. cbn.
    by destruct r, pr, ts.
  - unfold leave, emit. cbn. by destruct r, a.
Qed.

Lemma leave_run es : forall l,
  switchHandler (session l) = true ->
  exitReason (run es l)
  = match exitReason l with
    | Some r => Some r
    | None => head (omap reason_of es)
    end
  /\ aborted (run es l)
     = aborted l
       || match head (omap reason_of es) with
          | Some _ => true
          | None => false
          end.
Proof.
  induction es as [|e es IH]; intros l Hl.
  - cbn. rewrite orb_false_r. by destruct (exitReason l).
  - change (run (e :: es) l) with (run es (step l e)).
    destruct (leave_step l e Hl) as (Hr & Ha & Hs).
    destruct (IH _ Hs) as [-> ->]. rewrite Hr, Ha. cbn.
    destruct (exitReason l), (reason_of e); cbn;
      rewrite ?orb_true_r, ?orb_false_r; done.
Qed.

Lemma launch_handler s : switchHandler (session (launch s)) = true.
Proof.
  unfold launch. cbn.
  by destruct (hasPendingPermissionResponse _ && _).
Qed.

(** X16. The remote launcher returns the reason of the first event that
    asks to leave: [switch] for Enter, Escape, [q] and the switch request
    of the web, [exit] for Ctrl+C; later events never change it, and
    without such an event it returns [exit]. The abort signal is raised
    exactly when some event asked to leave. *)
Theorem first_exit_reason_wins es s :
  returned (run es (launch s)) = default to_exit (head (omap reason_of es))
  /\ aborted (run es (launch s))
     = match head (omap reason_of es) with
       | Some _ => true
       | None => false
       end.
Proof.
  destruct (leave_run es (launch s) (launch_handler s)) as [Hr Ha].
  unfold returned. rewrite Hr, Ha. split; [|done].
  by destruct (head (omap reason_of es)).
Qed.

(** X17. When a permission response is parked at launch, the queue is not
    closed and no wait is outstanding, the first [waitForMessage] of
    remote mode returns a message at once: the oldest queued message, or
    the injected [continue] when the queue was empty. *)
Theorem parked_response_starts_a_turn s :
  hasPendingPermissionResponse s = true ->
  MessageQueue.closed (queue s) = false ->
  MessageQueue.waitResolve (queue s) = None ->
  (MessageQueue.waitForMessage (queue (session (launch s)))).2
  = MessageQueue.Returned
      (Some match MessageQueue.queue (queue s) with
            | m :: _ => m
            | [] => {| MessageQueue.message := "continue";
                       MessageQueue.images := None |}
            end).
Proof.
  destruct s as [[backlog w cb c obs st fr] ws uh sh pr pp ts tools tr nx].
  unfold hasPendingPermissionResponse. cbn. intros Hp -> ->.
  unfold launch, hasPendingPermissionResponse, MessageQueue.size. cbn.
  destruct pp; [|done]. destruct backlog as [|m rest]; cbn; [|done].
  unfold MessageQueue.push, MessageQueue.waitForMessage. cbn.
  by destruct cb.
Qed.

Lemma parked_response_starts_a_turn_witness :
  (MessageQueue.waitForMessage
     (queue (session (launch (handleMessage 7 (permission_response yes)
                                create))))).2
  = MessageQueue.Returned
      (Some {| MessageQueue.message := "continue";
               MessageQueue.images := None |}).
Proof.
  apply (parked_response_starts_a_turn
           (handleMessage 7 (permission_response yes) create));
    reflexivity.
Defined.

End RemoteExitFacts.

(** ** The mode loop *)

Module LoopFacts.

Import Loop.



End LoopFacts.

(** ** The child's arguments and the thinking tracker *)

Module ClaudeLocalFacts.

Import SessionOps ClaudeLocal.

Implicit Types (t : tracker) (e : event) (es : list event).

Lemma includes_false flag args :
  flag ∉ args -> includes flag (Some args) = false.
Proof.
  intros Hnot. cbn. apply not_true_is_false. intros Hex.
  apply existsb_exists in Hex as (x & Hx & ->%String.eqb_eq).
  by apply Hnot, list_elem_of_In.
Qed.

(** X19. With a session id that names an existing session file and user
    arguments without [--resume]: the first spawn resumes that session
    unless the user passed [--continue]; and once the one-time flags are
    consumed, the next spawn resumes it, [--continue] being gone from the
    arguments. The settings file is always passed last. *)
Theorem respawn_resumes_the_session sessionExists sid args path :
  sid <> "" -> sessionExists sid = true -> "--resume" ∉ args ->
  spawnArgs sessionExists (Some sid) (Some args) path
  = (if includes "--continue" (Some args) then [] else ["--resume"; sid])
    ++ args ++ ["--settings"; path]
  /\ spawnArgs sessionExists (Some sid) (consumeOneTimeFlags (Some args)) path
     = "--resume" :: sid :: filterFlags args ++ ["--settings"; path].
Proof.
  intros Hsid Hex Hres. apply String.eqb_neq in Hsid.
  destruct (SessionOpsFacts.filterFlags_spec args) as (Hc & Hsub & _).
  assert (Hr : "--resume" ∉ filterFlags args).
  { intros Hin. apply Hres. by eapply elem_of_sublist. }
  unfold spawnArgs, startFrom, consumeOneTimeFlags.
  cbn [truthy default]. rewrite Hsid, Hex. cbn [negb andb].
  rewrite (includes_false _ _ Hres), (includes_false _ _ Hr),
    (includes_false _ _ Hc).
  unfold truthy. rewrite Hsid. cbn [negb andb orb id].
  rewrite orb_false_r, andb_true_r.
  split; [|done].
  by destruct (includes "--continue" (Some args)).
Qed.

Lemma respawn_resumes_the_session_witness :
  spawnArgs (fun _ => true) (Some "abc")
    (consumeOneTimeFlags (Some ["--continue"; "--verbose"])) "/tmp/h.json"
  = ["--resume"; "abc"; "--verbose"; "--settings"; "/tmp/h.json"].
Proof.
  refine (proj2 (respawn_resumes_the_session (fun _ => true) "abc"
                   ["--continue"; "--verbose"] "/tmp/h.json" _ _ _)).
  - discriminate.
  - reflexivity.
  - rewrite !not_elem_of_cons. repeat split; try discriminate.
    apply not_elem_of_nil.
Defined.

Definition tracked t : Prop :=
  stopThinkingTimeout t = timerLive t
  /\ (timerLive t = true <-> thinking t = true /\ activeFetches t = ∅)
  /\ (activeFetches t <> ∅ -> thinking t = true).

Lemma tracked_step cb t e :
  is_line_or_timer e = true -> tracked t -> tracked (step cb t e).
Proof.
  unfold tracked. destruct t as [a th var live cs]. cbn.
  intros He (-> & Hlive & Hact).
  destruct e as [id|id| | | |]; try discriminate; cbn.
  - unfold updateThinking. cbn.
    destruct live, th; cbn; repeat split; try done; try set_solver.
  - assert (Ha : a ∖ {[id]} <> ∅ -> a <> ∅) by set_solver.
    destruct th, live; cbn; case_bool_decide as Hempty; cbn;
      (split; [done|]); (split; [split|]); try done; try tauto;
      try (intros [? ?]; done); try (intros; exfalso; tauto).
  - done.
  - destruct live; [|done]. destruct Hlive as [Hlive _].
    destruct (Hlive eq_refl) as [-> ->].
    rewrite bool_decide_eq_true_2 by done. cbn.
    split; [done|]. split; [split|]; try done. intros [? _]. done.
Qed.

(** X20. While the child runs, the tracker reports thinking whenever a
    fetch is active, and thinking with no fetch active always has the
    500 ms timer pending: when that timer fires with no fetch started in
    between, thinking is reported off. *)
Theorem thinking_follows_fetches cb es :
  Forall (fun e => is_line_or_timer e = true) es ->
  (activeFetches (run cb es start) <> ∅ ->
   thinking (run cb es start) = true)
  /\ (activeFetches (run cb es start) = ∅ ->
      thinking (run cb es start) = true ->
      timerLive (run cb es start) = true
      /\ thinking (step cb (run cb es start) TimerFires) = false).
Proof.
  intros Hes.
  assert (H : tracked (run cb es start)).
  { assert (G : forall t, tracked t -> tracked (run cb es t)).
    { induction Hes as [|e es He _ IH]; intros t Ht; [done|].
      apply (IH (step cb t e)). by apply tracked_step. }
    apply G. repeat split; cbn; try done. intros [? _]. done. }
  destruct H as (Hvar & Hlive & Hact). split; [done|].
  intros Hempty Hth.
  assert (Hl : timerLive (run cb es start) = true) by (apply Hlive; done).
  split; [done|]. cbn. rewrite Hl.
  rewrite bool_decide_eq_true_2 by done.
  unfold updateThinking. rewrite Hth. reflexivity.
Qed.

Lemma thinking_follows_fetches_witness :
  thinking (step true
              (run true [FetchStart 1; FetchStart 2; FetchEnd 2; FetchEnd 1]
                 start) TimerFires) = false.
Proof.
  refine (proj2 (proj2 (thinking_follows_fetches true
                   [FetchStart 1; FetchStart 2; FetchEnd 2; FetchEnd 1] _)
                 _ _)).
  - repeat constructor.
  - vm_compute. reflexivity.
  - reflexivity.
Defined.

Definition alternates (cb : bool) t : Prop :=
  exists n,
    calls t = (if cb then alternating true n else [])
    /\ thinking t = Nat.odd n.

Lemma alternating_snoc n : forall b,
  alternating b (S n) = alternating b n ++ [if Nat.odd n then negb b else b].
Proof.
  induction n as [|n IH]; intros b; [done|].
  change (alternating b (S (S n))) with (b :: alternating (negb b) (S n)).
  rewrite IH. cbn [alternating app]. f_equal. f_equal.
  rewrite Nat.odd_succ, <- Nat.negb_odd.
  destruct (Nat.odd n), b; reflexivity.
Qed.

Lemma alternates_update cb b t :
  alternates cb t -> alternates cb (updateThinking cb b t)
  /\ thinking (updateThinking cb b t) = b.
Proof.
  intros (n & Hc & Ht). unfold updateThinking.
  destruct (Bool.eqb (thinking t) b) eqn:Hb.
  - apply Bool.eqb_prop in Hb. split; [by exists n | done].
  - split; [|done]. exists (S n). cbn [calls thinking]. split.
    + destruct cb; [|by rewrite Hc]. rewrite Hc, alternating_snoc.
      f_equal. rewrite <- Ht. by destruct (thinking t), b.
    + rewrite Nat.odd_succ, <- Nat.negb_odd, <- Ht.
      by destruct (thinking t), b.
Qed.

Lemma alternates_step cb t e : alternates cb t -> alternates cb (step cb t e).
Proof.
  intros Ht.
  assert (Hset : forall v l t0, alternates cb t0 ->
                   alternates cb (set_timeout v l t0)) by (intros; done).
  assert (Hfet : forall a t0, alternates cb t0 ->
                   alternates cb (set_fetches a t0)) by (intros; done).
  destruct e as [id|id| | | |]; cbn -[updateThinking].
  - apply alternates_update. destruct (stopThinkingTimeout t); auto.
  - destruct (_ && _); auto.
  - done.
  - destruct (timerLive t); [|done]. apply Hset.
    case_bool_decide; [by apply alternates_update | done].
  - apply alternates_update. destruct (stopThinkingTimeout t); auto.
  - apply alternates_update. destruct (stopThinkingTimeout t); auto.
Qed.

(** X21. [onThinkingChange] is called only on a change: its calls are
    [true], [false], [true], ... in turn, the last one being the current
    state, through any lines, timers and exits; and after the exit of the
    child or the [finally] block thinking is off. *)
Theorem thinking_changes_alternate cb es :
  (exists n,
     calls (run cb es start) = (if cb then alternating true n else [])
     /\ thinking (run cb es start) = Nat.odd n)
  /\ thinking (step cb (run cb es start) ChildExit) = false
  /\ thinking (step cb (run cb es start) Finally) = false.
Proof.
  split.
  - assert (G : forall t, alternates cb t -> alternates cb (run cb es t)).
    { induction es as [|e es IH]; intros t Ht; [done|].
      apply (IH (step cb t e)). by apply alternates_step. }
    apply G. by exists 0%nat; destruct cb.
  - assert (U : forall b t, thinking (updateThinking cb b t) = b).
    { intros b [a [|] var live cs]; destruct b; reflexivity. }
    split; apply U.
Qed.

End ClaudeLocalFacts.

(** ** The retry loop of local mode *)

Module LocalLauncherFacts.

Import Loop LocalLauncher.

Lemma retry_spec attempts : forall s,
  spawned (retry None attempts s).1
  = spawned s ++ replicate (S (crashes attempts)) (claudeArgs s)
  /\ (retry None attempts s).2
     = match attempts !! crashes attempts with
       | None => Awaiting
       | Some a => Returned (if asked a then switch else exit)
       end
  /\ claudeArgs (retry None attempts s).1
     = match attempts !! crashes attempts with
       | Some {| ending_of := finishes |} =>
           SessionOps.consumeOneTimeFlags (claudeArgs s)
       | _ => claudeArgs s
       end.
Proof.
  induction attempts as [|[[|] [|]] rest IH]; intros s; cbn; try done.
  - destruct rest; done.
  - destruct (IH {| spawned := spawned s ++ [claudeArgs s];
                    claudeArgs := claudeArgs s |}) as (-> & -> & ->).
    cbn. by rewrite <- app_assoc.
Qed.

(** X22. Local mode respawns Claude after every run that fails while no
    switch was asked for, each time with the arguments unchanged; the
    first other run decides: a switch asked for during it wins whichever
    way it ended, and a run that finished unasked means exit. The
    one-time flags are consumed only after a run that finished. With
    messages already queued the launcher returns [switch] without
    spawning. *)
Theorem local_mode_retries_until_decided claudeArgs attempts :
  spawned (claudeLocalLauncher 0 claudeArgs attempts).1
  = replicate (S (crashes attempts)) claudeArgs
  /\ (claudeLocalLauncher 0 claudeArgs attempts).2
     = match attempts !! crashes attempts with
       | None => Awaiting
       | Some a => Returned (if asked a then switch else exit)
       end
  /\ LocalLauncher.claudeArgs (claudeLocalLauncher 0 claudeArgs attempts).1
     = match attempts !! crashes attempts with
       | Some {| ending_of := finishes |} =>
           SessionOps.consumeOneTimeFlags claudeArgs
       | _ => claudeArgs
       end
  /\ forall n,
       claudeLocalLauncher (S n) claudeArgs attempts
       = ({| spawned := []; LocalLauncher.claudeArgs := claudeArgs |},
          Returned switch).
Proof.
  unfold claudeLocalLauncher. cbn [Nat.ltb Nat.leb].
  destruct (retry_spec attempts
              {| spawned := []; LocalLauncher.claudeArgs := claudeArgs |})
    as (-> & -> & ->).
  done.
Qed.

End LocalLauncherFacts.

(** ** Validation of pass-through arguments *)

Module ClaudeArgsFacts.

Import SessionOps ClaudeArgs.

Implicit Types (args l : list string) (a b v : string) (allow : bool).

Lemma scan_one allow a :
  scan allow [a]
  = if has CLAUDE_FLAG_ARGS a then
      if has ANYWARE_HANDLED_ARGS a && negb allow
      then warning (handledWarning a) (scan allow [])
      else keep [a] (scan allow [])
    else if has CLAUDE_VALUE_ARGS a then
      error ("'" ++ a ++ "' requires a value")%string (scan allow [])
    else if startsWithDash a then
      error ("Unknown Claude Code argument: '" ++ a ++ "'")%string
        (scan allow [])
    else keep [a] (scan allow []).
Proof. reflexivity. Qed.

Lemma scan_cons2 allow a b l :
  scan allow (a :: b :: l)
  = if has CLAUDE_FLAG_ARGS a then
      if has ANYWARE_HANDLED_ARGS a && negb allow
      then warning (handledWarning a) (scan allow (b :: l))
      else keep [a] (scan allow (b :: l))
    else if has CLAUDE_VALUE_ARGS a then
      if looksLikeFlag b then
        error ("'" ++ a ++ "' requires a value, but got '" ++ b
               ++ "'")%string (scan allow (b :: l))
      else if has ANYWARE_HANDLED_ARGS a && negb allow
      then warning (handledWarning a) (scan allow l)
      else keep [a; b] (scan allow l)
    else if startsWithDash a then
      error ("Unknown Claude Code argument: '" ++ a ++ "'")%string
        (scan allow (b :: l))
    else keep [a] (scan allow (b :: l)).
Proof. reflexivity. Qed.

(** The head of a list decides alone unless it is a value argument. *)
Lemma scan_cons allow a l :
  has CLAUDE_FLAG_ARGS a = true \/ has CLAUDE_VALUE_ARGS a = false ->
  scan allow (a :: l)
  = if has CLAUDE_FLAG_ARGS a then
      if has ANYWARE_HANDLED_ARGS a && negb allow
      then warning (handledWarning a) (scan allow l)
      else keep [a] (scan allow l)
    else if startsWithDash a then
      error ("Unknown Claude Code argument: '" ++ a ++ "'")%string
        (scan allow l)
    else keep [a] (scan allow l).
Proof.
  intros H. cbn [scan].
  destruct (has CLAUDE_FLAG_ARGS a); [done|].
  destruct H as [?| ->]; done.
Qed.

Ltac scan_cases a b :=
  destruct (has CLAUDE_FLAG_ARGS a) eqn:Hflag;
  [ destruct (has ANYWARE_HANDLED_ARGS a && negb _) eqn:Hhandled
  | destruct (has CLAUDE_VALUE_ARGS a) eqn:Hvalue;
    [ try (destruct (looksLikeFlag b) eqn:Hlooks;
           [ | destruct (has ANYWARE_HANDLED_ARGS a && negb _) eqn:Hhandled ])
    | destruct (startsWithDash a) eqn:Hdash ] ].

Lemma handled_looks_like_flag v :
  has ANYWARE_HANDLED_ARGS v = true ->
  looksLikeFlag v = true /\ startsWithDash v = true.
Proof.
  unfold has. cbn [existsb ANYWARE_HANDLED_ARGS].
  rewrite !orb_true_iff.
  intros [H|[H|[H|[H|[H|[H|H]]]]]]; try discriminate;
    apply String.eqb_eq in H; subst; done.
Qed.

Lemma known_starts_with_dash v :
  has CLAUDE_FLAG_ARGS v = true \/ has CLAUDE_VALUE_ARGS v = true ->
  looksLikeFlag v = true.
Proof.
  unfold has. cbn [existsb CLAUDE_FLAG_ARGS CLAUDE_VALUE_ARGS].
  rewrite !orb_true_iff, ?orb_false_r. intros H.
  repeat match goal with
         | H : _ \/ _ |- _ => destruct H as [H|H]
         | H : String.eqb _ _ = true |- _ => apply String.eqb_eq in H; subst
         | H : false = true |- _ => discriminate
         end; done.
Qed.

Ltac scan_tidy :=
  change (scan _ []) with {| errs := []; warns := []; oks := [] |} in *;
  cbn [oks errs warns error warning keep app] in *.

Lemma scan_sublist allow args : oks (scan allow args) `sublist_of` args.
Proof.
  induction args as [|a|a b l IH1 IH2] using SessionOpsFacts.list_pair_ind.
  - done.
  - rewrite scan_one. scan_cases a a; scan_tidy;
      first [by apply sublist_cons | by apply sublist_skip].
  - rewrite scan_cons2. scan_cases a b; scan_tidy;
      first [ by apply sublist_cons | by apply sublist_skip
            | by do 2 apply sublist_cons | by do 2 apply sublist_skip ].
Qed.

Lemma scan_unhandled args :
  Forall (fun a => has ANYWARE_HANDLED_ARGS a = false) (oks (scan false args)).
Proof.
  assert (Hpos : forall a, startsWithDash a = false ->
                   has ANYWARE_HANDLED_ARGS a = false).
  { intros a Ha. apply not_true_is_false.
    intros [_ ?]%handled_looks_like_flag. congruence. }
  assert (Hval : forall a, looksLikeFlag a = false ->
                   has ANYWARE_HANDLED_ARGS a = false).
  { intros a Ha. apply not_true_is_false.
    intros [? _]%handled_looks_like_flag. congruence. }
  induction args as [|a|a b l IH1 IH2] using SessionOpsFacts.list_pair_ind.
  - constructor.
  - rewrite scan_one. scan_cases a a; scan_tidy; rewrite ?andb_true_r in *;
      repeat constructor; auto.
  - rewrite scan_cons2. scan_cases a b; scan_tidy; rewrite ?andb_true_r in *;
      repeat constructor; auto.
Qed.

(** X23. The valid arguments of [validateClaudeArgs] are a subsequence of
    the arguments given, in their order; and unless handled arguments are
    allowed, none of [--model], [--resume], [-r], [--continue], [-c] and
    [--settings] is among them, neither as an option nor as a value. *)
Theorem valid_args_are_filtered args allowHandledArgs :
  (validArgs (validateClaudeArgs args allowHandledArgs) `sublist_of` args)
  /\ Forall (fun a => has ANYWARE_HANDLED_ARGS a = false)
       (validArgs (validateClaudeArgs args None))
  /\ Forall (fun a => has ANYWARE_HANDLED_ARGS a = false)
       (validArgs (validateClaudeArgs args (Some false))).
Proof.
  split; [apply scan_sublist|]. split; apply scan_unhandled.
Qed.

Lemma scan_complete allow args :
  errs (scan allow args) = [] -> warns (scan allow args) = [] ->
  oks (scan allow args) = args.
Proof.
  induction args as [|a|a b l IH1 IH2] using SessionOpsFacts.list_pair_ind.
  - done.
  - rewrite scan_one. scan_cases a a; scan_tidy; done.
  - rewrite scan_cons2. scan_cases a b; scan_tidy; try done;
      intros He Hw; f_equal; auto; f_equal; auto.
Qed.

Lemma scan_allow_no_warnings args : warns (scan true args) = [].
Proof.
  induction args as [|a|a b l IH1 IH2] using SessionOpsFacts.list_pair_ind.
  - done.
  - rewrite scan_one. scan_cases a a; scan_tidy; rewrite ?andb_false_r in *; done.
  - rewrite scan_cons2.
    scan_cases a b; scan_tidy; rewrite ?andb_false_r in *; done.
Qed.

(** X24. [validateClaudeArgs] drops nothing silently: when it reports no
    error and no warning, the valid arguments are the arguments given;
    and with handled arguments allowed it gives no warning, so that a
    valid result then returns the arguments unchanged. *)
Theorem nothing_is_dropped_silently args :
  (forall allowHandledArgs,
     errors (validateClaudeArgs args allowHandledArgs) = [] ->
     warnings (validateClaudeArgs args allowHandledArgs) = [] ->
     validArgs (validateClaudeArgs args allowHandledArgs) = args)
  /\ warnings (validateClaudeArgs args (Some true)) = []
  /\ (valid (validateClaudeArgs args (Some true)) = true ->
      validArgs (validateClaudeArgs args (Some true)) = args).
Proof.
  split; [intros allow; apply scan_complete|].
  split; [apply scan_allow_no_warnings|].
  unfold validateClaudeArgs. cbn. intros Hv%Nat.eqb_eq.
  apply scan_complete; [|apply scan_allow_no_warnings].
  by destruct (errs (scan true args)).
Qed.

Lemma nothing_is_dropped_silently_witness :
  validArgs (validateClaudeArgs ["--model"; "opus"; "-p"; "hi"] (Some true))
  = ["--model"; "opus"; "-p"; "hi"].
Proof.
  apply (proj2 (proj2 (nothing_is_dropped_silently
                         ["--model"; "opus"; "-p"; "hi"]))).
  reflexivity.
Defined.

Definition clean (l : list string) : arrays :=
  {| errs := []; warns := []; oks := l |}.

Lemma keep_clean l l' r : r = clean l' -> keep l r = clean (l ++ l').
Proof. by intros ->. Qed.

Lemma scan_again allow args :
  scan allow (oks (scan allow args)) = clean (oks (scan allow args)).
Proof.
  induction args as [|a|a b l IH1 IH2] using SessionOpsFacts.list_pair_ind.
  - done.
  - rewrite scan_one. scan_cases a a; scan_tidy; try done.
    + rewrite scan_one, Hflag, Hhandled. done.
    + rewrite scan_one, Hflag, Hvalue, Hdash. done.
  - rewrite scan_cons2. scan_cases a b; cbn [oks error warning keep app];
      try done.
    + rewrite scan_cons by auto. rewrite Hflag, Hhandled.
      by apply (keep_clean [a]).
    + destruct (oks (scan allow l)) as [|c rest] eqn:Hoks.
      * rewrite scan_cons2, Hflag, Hvalue, Hlooks, Hhandled. done.
      * rewrite scan_cons2, Hflag, Hvalue, Hlooks, Hhandled.
        cbn [scan] in IH1 |- *. by apply (keep_clean [a; b]).
    + rewrite scan_cons by auto. rewrite Hflag, Hdash.
      by apply (keep_clean [a]).
Qed.

(** X25. Validating the valid arguments again changes nothing: the second
    pass reports no error and no warning and returns the same
    arguments. *)
Theorem validation_is_idempotent args allowHandledArgs :
  validateClaudeArgs
    (validArgs (validateClaudeArgs args allowHandledArgs)) allowHandledArgs
  = {| valid := true; errors := []; warnings := [];
       validArgs := validArgs (validateClaudeArgs args allowHandledArgs) |}.
Proof.
  unfold validateClaudeArgs. cbn [validArgs].
  by rewrite scan_again.
Qed.

(** X26. The arguments [main.ts] builds hold the session flags only where
    it put them: after [consumeOneTimeFlags] what is left is the model
    option followed by the valid pass-through arguments, for a model name
    that is not itself one of the two flags and a session id to resume
    that does not start with a dash. *)
Theorem built_args_lose_only_session_flags model resume continue passthrough :
  model <> Some "--continue" -> model <> Some "--resume" ->
  (forall r, resume = Some r -> startsWithDash r = false) ->
  default [] (consumeOneTimeFlags
                (buildClaudeArgs model resume continue passthrough))
  = (match model with
     | Some m => if ClaudeLocal.truthy model then ["--model"; m] else []
     | None => []
     end)
    ++ validArgs (validateClaudeArgs passthrough None).
Proof.
  intros Hm1 Hm2 Hr.
  assert (Hv : filterFlags (validArgs (validateClaudeArgs passthrough None))
               = validArgs (validateClaudeArgs passthrough None)).
  { pose proof (scan_unhandled passthrough) as Hun.
    apply SessionOpsFacts.filterFlags_spec.
    - intros Hin. rewrite Forall_forall in Hun. by apply Hun in Hin.
    - intros Hin. rewrite Forall_forall in Hun. by apply Hun in Hin. }
  unfold buildClaudeArgs.
  replace (if (0 <? length passthrough)%nat
           then validArgs (validateClaudeArgs passthrough None) else [])
    with (validArgs (validateClaudeArgs passthrough None))
    by (by destruct passthrough).
  set (V := validArgs (validateClaudeArgs passthrough None)) in *.
  assert (Hsome : forall l : list string,
            default [] (consumeOneTimeFlags
                          (if (0 <? length l)%nat then Some l else None))
            = filterFlags l) by (by intros [|? ?]).
  rewrite Hsome. clear Hsome.
  assert (Htail : filterFlags
            ((match resume with
              | Some r =>
                  if ClaudeLocal.truthy resume then ["--resume"; r] else []
              | None => []
              end) ++ (if continue then ["--continue"] else []) ++ V) = V).
  { destruct resume as [r|]; cbn [ClaudeLocal.truthy].
    - specialize (Hr r eq_refl).
      destruct (negb (String.eqb r "")); cbn [app filterFlags String.eqb];
        rewrite ?Hr; cbn [negb]; by destruct continue.
    - by destruct continue. }
  destruct model as [m|]; [|exact Htail]. cbn [ClaudeLocal.truthy].
  destruct (negb (String.eqb m "")); [|exact Htail].
  cbn [app]. rewrite SessionOpsFacts.filterFlags_cons2.
  cbn [String.eqb Ascii.eqb Bool.eqb andb].
  f_equal.
  assert (Hc : String.eqb m "--continue" = false)
    by (apply String.eqb_neq; congruence).
  assert (Hs : String.eqb m "--resume" = false)
    by (apply String.eqb_neq; congruence).
  destruct (match resume with
            | Some r =>
                if ClaudeLocal.truthy resume then ["--resume"; r] else []
            | None => []
            end ++ (if continue then ["--continue"] else []) ++ V)
    as [|x rest] eqn:Hl.
  - rewrite SessionOpsFacts.filterFlags_one, Hc. by rewrite <- Htail.
  - rewrite SessionOpsFacts.filterFlags_cons2, Hc, Hs. cbn [andb].
    by rewrite Htail.
Qed.

Lemma built_args_lose_only_session_flags_witness :
  default [] (consumeOneTimeFlags
                (buildClaudeArgs (Some "opus") (Some "abc") true
                   ["--verbose"; "--continue"; "fix it"]))
  = ["--model"; "opus"; "--verbose"; "fix it"].
Proof.
  rewrite (built_args_lose_only_session_flags (Some "opus") (Some "abc") true
             ["--verbose"; "--continue"; "fix it"]).
  - reflexivity.
  - discriminate.
  - discriminate.
  - intros r [= <-]. reflexivity.
Defined.

End ClaudeArgsFacts.

(** ** Remote mode: what [claudeRemote] comes to *)

Module RemoteMoreFacts.

Import ClaudeRemote.

Implicit Types (E : env) (s : state).






(** X28. The resume target of [claudeRemote] never names a missing
    session: when it is a non-empty id, that session exists. A non-empty
    [sessionId] option takes precedence over [--resume] in the arguments,
    also when its session is missing: the target is then that id or
    null. *)
Theorem resume_target_exists E sessionId claudeArgs :
  (forall x, resumeTarget E sessionId claudeArgs = Some x ->
     x = "" \/ sessionExists E x = true)
  /\ (forall id, sessionId = Some id -> id <> "" ->
        resumeTarget E sessionId claudeArgs
        = if sessionExists E id then Some id else None).
Proof.
  split.
  - intros x. unfold resumeTarget.
    match goal with
    | |- match ?t with _ => _ end = _ -> _ => destruct t as [sid|] eqn:Hs
    end; [|done].
    unfold truthy.
    destruct (String.eqb_spec sid "") as [->|Hne]; cbn [negb andb].
    + intros [= <-]. by left.
    + destruct (sessionExists E sid) eqn:Hex; cbn [negb]; [|done].
      intros [= <-]. by right.
  - intros id -> Hid. unfold resumeTarget, truthy.
    apply String.eqb_neq in Hid. rewrite Hid. cbn [negb andb].
    destruct claudeArgs; rewrite ?Hid; cbn [negb andb];
      by destruct (sessionExists E id).
Qed.

Lemma resume_target_exists_witness :
  let E := {| sessionExists := fun id => String.eqb id "s-1";
              nextMessage := fun _ => None;
              query := fun _ _ => {| yields := []; last := finishes |};
              onThinkingChange := false; aborted := false |} in
  resumeTarget E (Some "s-2") (Some ["--resume"; "s-1"]) = None.
Proof.
  intros E.
  rewrite (proj2 (resume_target_exists E (Some "s-2")
                    (Some ["--resume"; "s-1"])) "s-2" eq_refl);
    [reflexivity | discriminate].
Defined.

End RemoteMoreFacts.

(** ** The SDK stream *)

Module StreamFacts.

Import Stream.

Section Facts.

Context {T : Type}.

Implicit Types (s : Stream.t T) (c : call T) (cs : list (call T)).

Lemma conserved_step s c :
  (reader s <> None -> queue s = []) ->
  (reader (step s c) <> None -> queue (step s c) = [])
  /\ delivered (step s c) ++ queue (step s c)
     = delivered s ++ queue s ++ accepted (isDone s) [c]
  /\ isDone (step s c)
     = match c with
       | Done | Return | Error _ | Throw _ => true
       | _ => isDone s
       end.
Proof.
  destruct s as [q r d e st se de fr]. cbn. intros Hq.
  destruct r as [p|]; [rewrite Hq by done|];
    destruct c as [|v| |err| |err|]; cbn;
    unfold next, enqueue, done, error, asyncIterator; cbn;
    repeat match goal with
           | |- context [match ?x with _ => _ end] => destruct x
           end;
    cbn; rewrite ?app_nil_r, <- ?app_assoc; done.
Qed.

Lemma failed_keeps s c :
  errorValue s <> None -> isDone s = true ->
  errorValue (step s c) <> None /\ isDone (step s c) = true
  /\ delivered (step s c) = delivered s.
Proof.
  destruct s as [q r d e st se de fr]. cbn. intros He ->.
  destruct e as [e|]; [clear He|done].
  destruct c as [|v| |err| |err|]; cbn;
    unfold next, enqueue, done, error, asyncIterator; cbn;
    repeat match goal with
           | |- context [match ?x with _ => _ end] => destruct x
           end;
    done.
Qed.

(** X29. The stream neither loses, duplicates nor reorders items: the
    items handed to readers followed by the backlog are the items enqueued
    before the stream was marked complete, in order; items enqueued after
    [done], [return], [error] or [throw] are ignored. After [error] no
    item is handed out any more, backlog or not, whatever calls
    follow. *)
Theorem stream_items_are_conserved cs :
  delivered (run cs (@empty T)) ++ queue (run cs (@empty T))
  = accepted false cs
  /\ forall err cs',
       delivered (run cs' (error err (run cs (@empty T))))
       = delivered (error err (run cs (@empty T))).
Proof.
  split.
  - assert (H : forall s,
      (reader s <> None -> queue s = []) ->
      delivered (run cs s) ++ queue (run cs s)
      = delivered s ++ queue s ++ accepted (isDone s) cs).
    { induction cs as [|c cs IH]; intros s Hs.
      - cbn. by rewrite app_nil_r.
      - change (run (c :: cs) s) with (run cs (step s c)).
        destruct (conserved_step s c Hs) as (Hs' & Hd & Hi).
        rewrite (IH _ Hs'), Hi, app_assoc, Hd, <- !app_assoc. do 2 f_equal.
        destruct c; cbn; rewrite ?app_nil_r; done. }
    by apply H.
  - intros err cs'.
    assert (H : forall s, errorValue s <> None -> isDone s = true ->
                delivered (run cs' s) = delivered s).
    { induction cs' as [|c cs' IH]; intros s He Hd; [done|].
      change (run (c :: cs') s) with (run cs' (step s c)).
      destruct (failed_keeps s c He Hd) as (He' & Hd' & <-).
      by apply IH. }
    apply H; unfold error; by destruct (reader _).
Qed.

End Facts.

End StreamFacts.

(** ** The history limit *)

Module HistoryFacts.

Import ClaudeHistory.

Local Open Scope Z_scope.

Lemma limited_spec {A} (limit : Z) (h : list A) :
  0 <= limit ->
  limited limit h
  = if limit =? 0 then h else drop (length h - Z.to_nat limit) h.
Proof.
  intros Hl. unfold limited, slice.
  destruct (Z.ltb_spec limit (Z.of_nat (length h))) as [Hlt|Hge].
  - destruct (Z.eqb_spec limit 0) as [->|Hne].
    + change (- 0 <? 0) with false. cbn [Z.opp].
      by rewrite Z.min_l by lia.
    + destruct (Z.ltb_spec (- limit) 0); [|lia].
      f_equal. lia.
  - destruct (Z.eqb_spec limit 0) as [->|Hne]; [done|].
    replace (length h - Z.to_nat limit)%nat with 0%nat by lia. done.
Qed.

(** X30. [readClaudeLocalHistory] returns null when there is no session
    file. Otherwise, for a limit above zero it returns the last [limit]
    converted events, or all of them when there are no more than that;
    for a limit of zero it returns all of them, not none. *)
Theorem history_keeps_the_most_recent {Time} (getTime : string -> Time)
    now lines limit events :
  0 <= default 250 limit ->
  convertToHistoricalEvents Time getTime now (parseSessionFile lines)
  = Some events ->
  readClaudeLocalHistory Time getTime now None limit = Returns Time None
  /\ readClaudeLocalHistory Time getTime now (Some lines) limit
     = Returns Time
         (Some (if default 250 limit =? 0 then events
                else drop (length events - Z.to_nat (default 250 limit))
                       events)).
Proof.
  intros Hl Hc. split; [done|].
  unfold readClaudeLocalHistory. rewrite Hc.
  by rewrite limited_spec.
Qed.

Lemma history_keeps_the_most_recent_witness :
  let lines :=
    [parsed {| type := "user"; message := Some "a"; timestamp := None |};
     blank;
     parsed {| type := "change"; message := Some "x"; timestamp := None |};
     parsed {| type := "assistant"; message := Some "b";
               timestamp := Some "t" |}] in
  readClaudeLocalHistory nat (fun _ => 7%nat) (fun i => i) (Some lines)
    (Some 0)
  = Returns nat
      (Some [ {| h_type := user; h_timestamp := 0%nat; h_message := "a" |};
              {| h_type := assistant; h_timestamp := 7%nat;
                 h_message := "b" |} ]).
Proof.
  intros lines.
  refine (proj2 (history_keeps_the_most_recent (fun _ => 7%nat) (fun i => i)
                   lines (Some 0) _ _ _)).
  - cbn. lia.
  - reflexivity.
Defined.

End HistoryFacts.
